(** * Mountain-Climber: the two hash tables

    A shallow embedding of [double_key_table.py] (the composite, two-level
    open-addressing table) and [infinite_hash_table.py] (the trie of
    fixed-size arrays), and the properties of their specification.

    Python objects mutated in place are modelled by explicit state passing:
    every operation takes the table and gives back an [outcome] that carries
    the table as the operation leaves it, also when it raises.  Keys are
    strings, read character by character with [ord]; values are Python
    ints.  *)

From Stdlib Require Import ZArith NArith Ascii String Bool.
From stdpp Require Import base tactics option list.

Local Open Scope Z_scope.

(** ** Exceptions and outcomes *)

(** The exceptions the two modules can raise, by their Python class. *)
Inductive exn : Type :=
| KeyError
| FullError
| TypeError
| IndexError
| ValueError
| ZeroDivisionError.

(** Result of a computation that changes no state. *)
Inductive result (A : Type) : Type :=
| Ok (a : A)
| Error (e : exn).
Arguments Ok {A} a.
Arguments Error {A} e.

(** Result of a method call on a mutable object of state [S]. *)
Inductive outcome (S A : Type) : Type :=
| Return (a : A) (s : S)   (* returned [a], leaving the object as [s] *)
| Raise (e : exn) (s : S)  (* raised [e], the object being [s] by then *)
| OutOfFuel.               (* a loop was still running when the fuel ended *)
Arguments Return {S A} a s.
Arguments Raise {S A} e s.
Arguments OutOfFuel {S A}.

(** A call made on the object an earlier call returned with. *)
Definition and_then {S A B : Type} (o : outcome S A) (f : S -> outcome S B)
    : outcome S B :=
  match o with
  | Return _ s => f s
  | Raise e s => Raise e s
  | OutOfFuel => OutOfFuel
  end.

(** Evaluation of a run on concrete tables, conjunct by conjunct. *)
Ltac run := vm_compute; reflexivity.
Ltac run_all :=
  repeat match goal with |- _ /\ _ => split; [run|] end; run.

(** [ord(c)] *)
Definition ord (c : ascii) : N := N_of_ascii c.

(** [key[:n]] *)
Definition prefix_of (n : nat) (key : string) : string := substring 0 n key.

(** A fixed array ([ArrayR]) is a list of slots, read with [a !! i]; an
    index outside it raises [IndexError].

    [ArrayR(length)]: a positive length, every slot [None]. *)
Definition new_array {A : Type} (length : Z) : result (list (option A)) :=
  if length <=? 0 then Error ValueError
  else Ok (replicate (Z.to_nat length) None).

(** [a[i] = x] *)
Definition array_set {A : Type} (a : list A) (i : nat) (x : A) : result (list A) :=
  if decide (i < length a)%nat then Ok (<[i := x]> a) else Error IndexError.

(** ** The polynomial hash of [hash1] and [hash2] *)

Definition HASH_BASE : N := 31.

(** The loop [for char in key] of [hash1] and [hash2] over the table size
    [size], from the current [value] and [a]. *)
Fixpoint hash_chars (size : N) (key : string) (value a : N) : result N :=
  match key with
  | EmptyString => Ok value
  | String char rest =>
      if (size =? 0)%N then Error ZeroDivisionError
      else
        let value' := ((ord char + a * value) mod size)%N in
        if (size - 1 =? 0)%N then Error ZeroDivisionError
        else hash_chars size rest value' ((a * HASH_BASE) mod (size - 1))%N
  end.

(** The body of [hash1] and [hash2]: [value = 0], [a = 31415], the loop,
    [return value]. *)
Definition hash_string (table_size : nat) (key : string) : result nat :=
  match hash_chars (N.of_nat table_size) key 0 31415 with
  | Ok value => Ok (N.to_nat value)
  | Error e => Error e
  end.

(** ** The trie table ([infinite_hash_table.py]) *)

Module InfiniteHashTable.

Definition TABLE_SIZE : nat := 27.

(** A non-empty slot holds a pair: [(key, value)] or
    [(key[:level], new_table)].

    Modelled from the spec: the occupancy counter [count] of a node, which
    the methods read and update on [ArrayR] objects although the array class
    is not among the sources; a new array starts with counter 0. *)
Inductive ArrayR : Type :=
| mkArrayR (cells : list (option entry)) (count : Z)
with entry : Type :=
| Leaf (key : string) (value : Z)
| Sub (prefix : string) (child : ArrayR).

Definition cells (a : ArrayR) : list (option entry) :=
  match a with mkArrayR c _ => c end.

Definition node_count (a : ArrayR) : Z :=
  match a with mkArrayR _ n => n end.

(** [item[0]] of a pair. *)
Definition entry_key (e : entry) : string :=
  match e with
  | Leaf k _ => k
  | Sub p _ => p
  end.

(** [ArrayR(self.TABLE_SIZE)] *)
Definition new_ArrayR : ArrayR := mkArrayR (replicate TABLE_SIZE None) 0.

Record InfiniteHashTable : Type := mkTable {
  table : ArrayR;
  level : nat;
  count : Z
}.

(** [__init__] *)
Definition init : InfiniteHashTable :=
  {| table := new_ArrayR; level := 0; count := 0 |}.

(** [hash], with [self.level] as an argument. *)
Definition hash (level : nat) (key : string) : nat :=
  match String.get level key with
  | Some c => N.to_nat (ord c mod N.of_nat (TABLE_SIZE - 1))
  | None => (TABLE_SIZE - 1)%nat
  end.

(** The number of nodes on the longest path from a node down: no walk from
    it takes more turns. *)
Fixpoint depth (a : ArrayR) : nat :=
  match a with
  | mkArrayR c _ =>
      S (foldr (fun s d =>
                  match s with
                  | Some (Sub _ child) => Nat.max (depth child) d
                  | _ => d
                  end) 0%nat c)
  end.

(** [__len__] *)
Definition len (t : InfiniteHashTable) : Z := count t.

(** *** [__setitem__] *)

(** The node a split makes, at depth [lvl], for the leaf it moves down:
    [new_table = ArrayR(self.TABLE_SIZE)],
    [new_table[self.hash(key)] = (key, value)], [new_table.count += 1]. *)
Definition split_table (lvl : nat) (key : string) (value : Z) : ArrayR :=
  mkArrayR (<[hash lvl key := Some (Leaf key value)]> (cells new_ArrayR))
           (node_count new_ArrayR + 1).

(** The [while] loop of [__setitem__] from the node [current] at depth
    [lvl]; [pos] is the slot of the key there.  It gives back the node as
    the loop and the final write leave it, and the last [self.level]. *)
Fixpoint set_loop (fuel : nat) (lvl : nat) (current : ArrayR) (pos : nat)
    (key : string) (value : Z) : outcome (ArrayR * nat) unit :=
  match fuel with
  | O => OutOfFuel
  | S fuel' =>
      let c := cells current in
      let n := node_count current in
      match c !! pos with
      | None => Raise IndexError (current, lvl)
      | Some None =>
          (* current_table[pos] = key, value; current_table.count += 1 *)
          Return tt (mkArrayR (<[pos := Some (Leaf key value)]> c) (n + 1), lvl)
      | Some (Some e) =>
          let lvl' := S lvl in
          let n' := n + 1 in
          let '(tag, child) :=
            match e with
            | Leaf k v =>
                (* not an ArrayR: split *)
                (prefix_of lvl' key, split_table lvl' k v)
            | Sub p child => (p, child)
            end in
          match set_loop fuel' lvl' child (hash lvl' key) key value with
          | Return _ (child', l) =>
              Return tt (mkArrayR (<[pos := Some (Sub tag child')]> c) n', l)
          | Raise ex (child', l) =>
              Raise ex (mkArrayR (<[pos := Some (Sub tag child')]> c) n', l)
          | OutOfFuel => OutOfFuel
          end
      end
  end.

(** [__setitem__]: [self.level = 0], the loop from the root, the write,
    [self.count += 1]. *)
Definition setitem (fuel : nat) (t : InfiniteHashTable) (key : string) (value : Z)
    : outcome InfiniteHashTable unit :=
  match set_loop fuel 0 (table t) (hash 0 key) key value with
  | Return _ (a, l) => Return tt {| table := a; level := l; count := count t + 1 |}
  | Raise ex (a, l) => Raise ex {| table := a; level := l; count := count t |}
  | OutOfFuel => OutOfFuel
  end.

(** *** [get_location] and [__getitem__] *)

Section Identity.

(** [stored is key]: whether a stored string and the argument are one
    object.  Python leaves this to the interpreter (interned strings are
    shared, computed ones need not be), so it is a parameter.  It is given
    the contents of the two strings: two stored objects of equal contents
    (a pointer tag [key[:level]] and the key of a leaf) get the same
    answer, so the properties of reads say what they need of the tags on
    the path. *)
Variable same_object : string -> string -> bool.

(** The loop of [get_location] from [current] at depth [lvl], with the
    positions collected so far; the state is [self.level]. *)
Fixpoint get_location_loop (fuel : nat) (lvl : nat) (current : ArrayR)
    (key : string) (temp : list nat) : outcome nat (list nat) :=
  match fuel with
  | O => OutOfFuel
  | S fuel' =>
      let pos := hash lvl key in
      match cells current !! pos with
      | None => Raise IndexError lvl
      | Some None => Return (temp ++ [pos]) 0%nat
      | Some (Some e) =>
          if same_object (entry_key e) key then Return (temp ++ [pos]) 0%nat
          else
            match e with
            | Leaf _ _ =>
                (* current_table is now the value; values are ints here, so
                   isinstance(current_table, int) holds *)
                Raise KeyError (S lvl)
            | Sub _ child =>
                get_location_loop fuel' (S lvl) child key (temp ++ [pos])
            end
      end
  end.

(** [get_location]; the walk goes one node down at each turn, so the depth
    of the table is fuel enough. *)
Definition get_location (t : InfiniteHashTable) (key : string)
    : outcome InfiniteHashTable (list nat) :=
  match get_location_loop (depth (table t)) 0 (table t) key [] with
  | Return loc l => Return loc {| table := table t; level := l; count := count t |}
  | Raise ex l => Raise ex {| table := table t; level := l; count := count t |}
  | OutOfFuel => OutOfFuel
  end.

(** What the variable [current] of [__getitem__] can hold. *)
Inductive pyobj : Type :=
| PInt (v : Z)
| PArray (a : ArrayR).

(** [for index in location: current = current[index][1]] *)
Fixpoint follow (current : pyobj) (location : list nat) : result pyobj :=
  match location with
  | [] => Ok current
  | index :: rest =>
      match current with
      | PInt _ => Error TypeError
      | PArray a =>
          match cells a !! index with
          | None => Error IndexError
          | Some None => Error TypeError
          | Some (Some (Leaf _ v)) => follow (PInt v) rest
          | Some (Some (Sub _ c)) => follow (PArray c) rest
          end
      end
  end.

(** [__getitem__] *)
Definition getitem (t : InfiniteHashTable) (key : string)
    : outcome InfiniteHashTable pyobj :=
  match get_location t key with
  | Return location t' =>
      match follow (PArray (table t)) location with
      | Ok v => Return v t'
      | Error ex => Raise ex t'
      end
  | Raise ex t' => Raise ex t'
  | OutOfFuel => OutOfFuel
  end.

(** [__contains__]: only [KeyError] is caught. *)
Definition contains (t : InfiniteHashTable) (key : string)
    : outcome InfiniteHashTable bool :=
  match getitem t key with
  | Return _ t' => Return true t'
  | Raise KeyError t' => Return false t'
  | Raise ex t' => Raise ex t'
  | OutOfFuel => OutOfFuel
  end.

End Identity.

(** *** [__delitem__] *)

(** The first non-empty slot of a node, [None] when there is none. *)
Definition first_item (c : list (option entry)) : option entry :=
  match List.find (fun s => match s with Some _ => true | None => false end) c with
  | Some s => s
  | None => None
  end.

(** [__delitem__] from the node [current] at depth [lvl].  The recursion on
    the child is the rest of the first loop; what follows it is the turn of
    the second loop that pops [current] from the stack.  The result is
    [item] and whether the second loop is still running, that is whether the
    node it last left has counter 1. *)
Fixpoint del_loop (fuel : nat) (lvl : nat) (current : ArrayR) (key : string)
    : outcome (ArrayR * nat) (option entry * bool) :=
  match fuel with
  | O => OutOfFuel
  | S fuel' =>
      let pos := hash lvl key in
      let c := cells current in
      match c !! pos with
      | None => Raise IndexError (current, lvl)
      | Some None => Raise TypeError (current, lvl)
      | Some (Some e) =>
          if String.eqb (entry_key e) key then
            (* current_table[pos] = None; current_table.count -= 1 *)
            let c' := <[pos := None]> c in
            let n' := node_count current - 1 in
            Return (first_item c', n' =? 1) (mkArrayR c' n', lvl)
          else
            (* current_table.count -= 1; tables.push(current_table) *)
            let n' := node_count current - 1 in
            match e with
            | Leaf _ _ =>
                (* current_table is now an int, indexed by the loop test *)
                Raise TypeError (mkArrayR c n', S lvl)
            | Sub p child =>
                match del_loop fuel' (S lvl) child key with
                | OutOfFuel => OutOfFuel
                | Raise ex (child', l) =>
                    Raise ex (mkArrayR (<[pos := Some (Sub p child')]> c) n', l)
                | Return (item, running) (child', l) =>
                    let c1 := <[pos := Some (Sub p child')]> c in
                    if running then
                      (* current_table = tables.pop(); self.level -= 1 *)
                      let l' := (l - 1)%nat in
                      match item with
                      | None => Raise TypeError (mkArrayR c1 n', l')
                      | Some it =>
                          match array_set c1 (hash l' (entry_key it)) item with
                          | Error ex => Raise ex (mkArrayR c1 n', l')
                          | Ok c2 => Return (item, n' =? 1) (mkArrayR c2 n', l')
                          end
                      end
                    else Return (item, false) (mkArrayR c1 n', l)
                end
            end
      end
  end.

(** [__delitem__]; [self.count -= 1] comes last. *)
Definition delitem (t : InfiniteHashTable) (key : string)
    : outcome InfiniteHashTable unit :=
  match del_loop (depth (table t)) 0 (table t) key with
  | Return _ (a, l) => Return tt {| table := a; level := l; count := count t - 1 |}
  | Raise ex (a, l) => Raise ex {| table := a; level := l; count := count t |}
  | OutOfFuel => OutOfFuel
  end.

End InfiniteHashTable.

(** ** The nested single-key table *)

Module LinearProbe.

(** Modelled from the spec: the single-key open-addressing table
    ([LinearProbeTable] of [data_structures.hash_table]), the nested store of
    the composite table, which is not among the sources: a slot sequence, a
    count and a capacity sequence of its own. *)
Record LinearProbeTable : Type := mkLinearProbeTable {
  TABLE_SIZES : list Z;
  size_index : nat;
  count : Z;
  array : list (option (string * Z))
}.

(** Modelled from the spec: the capacity of a single-key table, the length
    of its slot sequence. *)
Definition table_size (t : LinearProbeTable) : nat := length (array t).

(** Modelled from the spec: [len()] of a single-key table, its count. *)
Definition len (t : LinearProbeTable) : Z := count t.

(** Modelled from the spec: the capacity sequence a single-key table
    takes when it is given none, the default one of both tables. *)
Definition DEFAULT_TABLE_SIZES : list Z :=
  [5; 13; 29; 53; 97; 193; 389; 769; 1543; 3079; 6151; 12289; 24593; 49157;
   98317; 196613; 393241; 786433; 1572869].

(** Modelled from the spec: the construction of a single-key table from a
    capacity sequence; the first capacity sizes the slot array, which must
    not be empty. *)
Definition init (sizes : option (list Z)) : result LinearProbeTable :=
  let sizes := default DEFAULT_TABLE_SIZES sizes in
  match sizes !! 0%nat with
  | None => Error IndexError
  | Some n =>
      match new_array n with
      | Error e => Error e
      | Ok a => Ok {| TABLE_SIZES := sizes; size_index := 0; count := 0; array := a |}
      end
  end.

(** Modelled from the spec: linear probing, step +1 modulo the capacity, at
    most once around; an empty slot ends an insertion probe with its
    position and a lookup probe with [KeyError]. *)
Fixpoint probe_loop {A : Type} (n : nat) (a : list (option (string * A)))
    (position : nat) (key : string) (is_insert : bool) : result nat :=
  match n with
  | O => Error (if is_insert then FullError else KeyError)
  | S n' =>
      match a !! position with
      | None => Error IndexError
      | Some None => if is_insert then Ok position else Error KeyError
      | Some (Some (k, _)) =>
          if String.eqb k key then Ok position
          else probe_loop n' a ((position + 1) mod length a)%nat key is_insert
      end
  end.

Section Hash.

(** Modelled from the spec: the hash function bound to the table, which
    can be replaced; the composite table binds it to its [hash2] over the
    nested table's own capacity. *)
Variable hash : LinearProbeTable -> string -> result nat.

(** Modelled from the spec: the probing entry point of the single-key
    table. *)
Definition _linear_probe (t : LinearProbeTable) (key : string) (is_insert : bool)
    : result nat :=
  match hash t key with
  | Error e => Error e
  | Ok position => probe_loop (table_size t) (array t) position key is_insert
  end.

(** Modelled from the spec: the slot of [key] is located, then written;
    the count grows when the slot was empty. *)
Definition write (t : LinearProbeTable) (key : string) (data : Z)
    : outcome LinearProbeTable unit :=
  match _linear_probe t key true with
  | Error e => Raise e t
  | Ok position =>
      match array t !! position with
      | None => Raise IndexError t
      | Some old =>
          Return tt
            {| TABLE_SIZES := TABLE_SIZES t; size_index := size_index t;
               count := (if old is None then count t + 1 else count t);
               array := <[position := Some (key, data)]> (array t) |}
      end
  end.

(** Modelled from the spec: the reinsertion of every pair of a slot
    sequence, in slot order, through [set]; it stops at the first pair whose
    insertion does not return. *)
Fixpoint reinsert_all (set : LinearProbeTable -> string -> Z -> outcome LinearProbeTable unit)
    (items : list (option (string * Z))) (t : LinearProbeTable)
    : outcome LinearProbeTable unit :=
  match items with
  | [] => Return tt t
  | None :: rest => reinsert_all set rest t
  | Some (key, value) :: rest =>
      match set t key value with
      | Return _ t' => reinsert_all set rest t'
      | other => other
      end
  end.

(** Modelled from the spec: growth advances to the next capacity of the
    sequence, allocates a fresh slot array and reinserts every pair; it is
    skipped silently when the sequence is exhausted. *)
Definition _rehash (set : LinearProbeTable -> string -> Z -> outcome LinearProbeTable unit)
    (t : LinearProbeTable) : outcome LinearProbeTable unit :=
  match TABLE_SIZES t !! S (size_index t) with
  | None => Return tt t
  | Some n =>
      match new_array n with
      | Error e => Raise e t
      | Ok a =>
          reinsert_all set (array t)
            {| TABLE_SIZES := TABLE_SIZES t; size_index := S (size_index t);
               count := 0; array := a |}
      end
  end.

(** Modelled from the spec: set writes the pair and then, once the count
    exceeds half the capacity, grows the table.  The fuel bounds the nesting
    of growth steps. *)
Fixpoint setitem_fuel (fuel : nat) (t : LinearProbeTable) (key : string) (data : Z)
    : outcome LinearProbeTable unit :=
  match fuel with
  | O => OutOfFuel
  | S fuel' =>
      match write t key data with
      | Return _ t1 =>
          if 2 * count t1 >? Z.of_nat (table_size t1)
          then _rehash (setitem_fuel fuel') t1
          else Return tt t1
      | other => other
      end
  end.

(** Modelled from the spec: set, with fuel for every growth step the
    capacity sequence allows. *)
Definition setitem (t : LinearProbeTable) (key : string) (data : Z)
    : outcome LinearProbeTable unit :=
  setitem_fuel (S (length (TABLE_SIZES t) - size_index t)) t key data.

(** Modelled from the spec: the cluster after a freed slot is repaired by
    taking each pair out of its slot and placing it again by an insertion
    probe, until an empty slot is met. *)
Fixpoint repair (fuel : nat) (t : LinearProbeTable) (position : nat)
    : outcome LinearProbeTable unit :=
  match fuel with
  | O => OutOfFuel
  | S fuel' =>
      match array t !! position with
      | None => Raise IndexError t
      | Some None => Return tt t
      | Some (Some (key, value)) =>
          let t1 := {| TABLE_SIZES := TABLE_SIZES t; size_index := size_index t;
                       count := count t;
                       array := <[position := None]> (array t) |} in
          match _linear_probe t1 key true with
          | Error e => Raise e t1
          | Ok newpos =>
              repair fuel'
                {| TABLE_SIZES := TABLE_SIZES t1; size_index := size_index t1;
                   count := count t1;
                   array := <[newpos := Some (key, value)]> (array t1) |}
                ((position + 1) mod table_size t1)%nat
          end
      end
  end.

(** Modelled from the spec: delete locates the key by a lookup probe
    ([KeyError] when absent), clears the slot and repairs the cluster. *)
Definition delitem (fuel : nat) (t : LinearProbeTable) (key : string)
    : outcome LinearProbeTable unit :=
  match _linear_probe t key false with
  | Error e => Raise e t
  | Ok position =>
      repair fuel
        {| TABLE_SIZES := TABLE_SIZES t; size_index := size_index t;
           count := count t - 1;
           array := <[position := None]> (array t) |}
        ((position + 1) mod table_size t)%nat
  end.

End Hash.

(** Modelled from the spec: key iteration of the single-key table, the keys
    of its pairs in slot order. *)
Definition keys (t : LinearProbeTable) : list string :=
  omap (fun s : option (string * Z) => match s with Some (k, _) => Some k | None => None end)
       (array t).

(** Modelled from the spec: value iteration of the single-key table, the
    values of its pairs in slot order. *)
Definition values (t : LinearProbeTable) : list Z :=
  omap (fun s : option (string * Z) => match s with Some (_, v) => Some v | None => None end)
       (array t).

End LinearProbe.

(** ** The composite table ([double_key_table.py]) *)

Module DoubleKeyTable.

Import LinearProbe.

Definition DEFAULT_TABLE_SIZES : list Z :=
  [5; 13; 29; 53; 97; 193; 389; 769; 1543; 3079; 6151; 12289; 24593; 49157;
   98317; 196613; 393241; 786433; 1572869].

Record DoubleKeyTable : Type := mkDoubleKeyTable {
  TABLE_SIZES : list Z;
  size_index : nat;
  count : Z;
  top_level_array : list (option (string * LinearProbeTable));
  internal_sizes : option (list Z)
}.

(** The property [table_size] *)
Definition table_size (t : DoubleKeyTable) : nat := length (top_level_array t).

(** [__len__] *)
Definition len (t : DoubleKeyTable) : Z := count t.

(** [__init__] *)
Definition init (sizes internal_sizes : option (list Z)) : result DoubleKeyTable :=
  let TABLE_SIZES := default DEFAULT_TABLE_SIZES sizes in
  match TABLE_SIZES !! 0%nat with
  | None => Error IndexError
  | Some n =>
      match new_array n with
      | Error e => Error e
      | Ok a =>
          Ok {| TABLE_SIZES := TABLE_SIZES; size_index := 0; count := 0;
                top_level_array := a; internal_sizes := internal_sizes |}
      end
  end.

(** [hash1], over [self.table_size] *)
Definition hash1 (t : DoubleKeyTable) (key : string) : result nat :=
  hash_string (table_size t) key.

(** [hash2], over [sub_table.table_size] *)
Definition hash2 (sub_table : LinearProbeTable) (key : string) : result nat :=
  hash_string (LinearProbe.table_size sub_table) key.

(** The table with its outer slot [i] replaced (an in-place write). *)
Definition with_slot (t : DoubleKeyTable) (i : nat)
    (s : option (string * LinearProbeTable)) (n : Z) : DoubleKeyTable :=
  {| TABLE_SIZES := TABLE_SIZES t; size_index := size_index t; count := n;
     top_level_array := <[i := s]> (top_level_array t);
     internal_sizes := internal_sizes t |}.

(** The loop [for _ in range(self.table_size)] of [_linear_probe], with [n]
    turns left. *)
Fixpoint probe_loop (n : nat) (t : DoubleKeyTable) (position_top_level : nat)
    (key1 key2 : string) (is_insert : bool) : outcome DoubleKeyTable (nat * nat) :=
  match n with
  | O => Raise (if is_insert then FullError else KeyError) t
  | S n' =>
      match top_level_array t !! position_top_level with
      | None => Raise IndexError t
      | Some None =>
          if is_insert then
            match LinearProbe.init (internal_sizes t) with
            | Error e => Raise e t
            | Ok new_probe_table =>
                let t' := with_slot t position_top_level
                            (Some (key1, new_probe_table)) (count t + 1) in
                match hash2 new_probe_table key2 with
                | Error e => Raise e t'
                | Ok p2 => Return (position_top_level, p2) t'
                end
            end
          else Raise KeyError t
      | Some (Some (k, position_internal_table)) =>
          if String.eqb k key1 then
            match LinearProbe._linear_probe hash2 position_internal_table key2 is_insert with
            | Error e => Raise e t
            | Ok p2 => Return (position_top_level, p2) t
            end
          else
            probe_loop n' t ((position_top_level + 1) mod table_size t)%nat
              key1 key2 is_insert
      end
  end.

(** [_linear_probe] *)
Definition _linear_probe (t : DoubleKeyTable) (key1 key2 : string) (is_insert : bool)
    : outcome DoubleKeyTable (nat * nat) :=
  match hash1 t key1 with
  | Error e => Raise e t
  | Ok position_top_level =>
      probe_loop (table_size t) t position_top_level key1 key2 is_insert
  end.

(** What the subscript of an outer pair can give. *)
Inductive pyobj : Type :=
| PStr (s : string)
| PTable (t : LinearProbeTable).

(** What a subscript can be. *)
Inductive subscript : Type :=
| SInt (i : Z)
| SStr (s : string).

(** [item[i]] for the pair [item = (key1, nested_table)] of an outer slot:
    a tuple takes integer subscripts, within its length. *)
Definition tuple_getitem (item : string * LinearProbeTable) (i : subscript)
    : result pyobj :=
  match i with
  | SInt 0 | SInt (-2) => Ok (PStr item.1)
  | SInt 1 | SInt (-1) => Ok (PTable item.2)
  | SInt _ => Error IndexError
  | SStr _ => Error TypeError
  end.

(** [__getitem__] *)
Definition getitem (t : DoubleKeyTable) (key : string * string)
    : outcome DoubleKeyTable pyobj :=
  match _linear_probe t key.1 key.2 false with
  | Return (key1_position, _) t1 =>
      match top_level_array t1 !! key1_position with
      | None => Raise IndexError t1
      | Some None => Raise TypeError t1
      | Some (Some item) =>
          (* self.top_level_array[key1_position][key[1]] *)
          match tuple_getitem item (SStr key.2) with
          | Ok v => Return v t1
          | Error e => Raise e t1
          end
      end
  | Raise e t1 => Raise e t1
  | OutOfFuel => OutOfFuel
  end.

(** [__contains__]: only [KeyError] is caught. *)
Definition contains (t : DoubleKeyTable) (key : string * string)
    : outcome DoubleKeyTable bool :=
  match getitem t key with
  | Return _ t' => Return true t'
  | Raise KeyError t' => Return false t'
  | Raise e t' => Raise e t'
  | OutOfFuel => OutOfFuel
  end.

(** The loop [for inner_item in inner_table.array] of [_rehash] and
    [__delitem__]: every pair of the nested slot sequence [items] is set
    again under [key1].  The pairs are those of the sequence when the loop
    starts: a set of the loop goes to another nested table, or it writes the
    pair back where the loop has read it. *)
Fixpoint reinsert_inner
    (set : DoubleKeyTable -> string * string -> Z -> outcome DoubleKeyTable unit)
    (key1 : string) (items : list (option (string * Z))) (t : DoubleKeyTable)
    : outcome DoubleKeyTable unit :=
  match items with
  | [] => Return tt t
  | None :: rest => reinsert_inner set key1 rest t
  | Some (key2, value) :: rest =>
      match set t (key1, key2) value with
      | Return _ t' => reinsert_inner set key1 rest t'
      | other => other
      end
  end.

(** The loop [for item in old_array] of [_rehash]. *)
Fixpoint reinsert_outer
    (set : DoubleKeyTable -> string * string -> Z -> outcome DoubleKeyTable unit)
    (old_array : list (option (string * LinearProbeTable))) (t : DoubleKeyTable)
    : outcome DoubleKeyTable unit :=
  match old_array with
  | [] => Return tt t
  | None :: rest => reinsert_outer set rest t
  | Some (key1, inner_linear_probe_table) :: rest =>
      match reinsert_inner set key1 (LinearProbe.array inner_linear_probe_table) t with
      | Return _ t' => reinsert_outer set rest t'
      | other => other
      end
  end.

(** [_rehash], the calls [self[key1, key2] = value] being [set]: the
    index is incremented first and compared with the length of the
    sequence for equality. *)
Definition _rehash
    (set : DoubleKeyTable -> string * string -> Z -> outcome DoubleKeyTable unit)
    (t : DoubleKeyTable) : outcome DoubleKeyTable unit :=
  let old_array := top_level_array t in
  let t1 := {| TABLE_SIZES := TABLE_SIZES t; size_index := S (size_index t);
               count := count t; top_level_array := top_level_array t;
               internal_sizes := internal_sizes t |} in
  if (size_index t1 =? length (TABLE_SIZES t1))%nat then Return tt t1
  else
    match TABLE_SIZES t1 !! size_index t1 with
    | None => Raise IndexError t1
    | Some n =>
        match new_array n with
        | Error e => Raise e t1
        | Ok a =>
            reinsert_outer set old_array
              {| TABLE_SIZES := TABLE_SIZES t1; size_index := size_index t1;
                 count := 0; top_level_array := a;
                 internal_sizes := internal_sizes t1 |}
        end
    end.

(** The probe and the write of [__setitem__], before the occupancy check. *)
Definition write_pair (t : DoubleKeyTable) (key : string * string) (data : Z)
    : outcome DoubleKeyTable unit :=
  match _linear_probe t key.1 key.2 true with
  | Return (key1_position, _) t1 =>
      match top_level_array t1 !! key1_position with
      | None => Raise IndexError t1
      | Some None => Raise TypeError t1
      | Some (Some (k, inner)) =>
          if String.eqb k key.1 then
            match LinearProbe.setitem hash2 inner key.2 data with
            | Return _ inner' =>
                Return tt (with_slot t1 key1_position (Some (k, inner')) (count t1))
            | Raise e inner' =>
                Raise e (with_slot t1 key1_position (Some (k, inner')) (count t1))
            | OutOfFuel => OutOfFuel
            end
          else Return tt t1
      end
  | Raise e t1 => Raise e t1
  | OutOfFuel => OutOfFuel
  end.

(** [__setitem__]; the fuel bounds the nesting of [_rehash] and
    [__setitem__]. *)
Fixpoint setitem_fuel (fuel : nat) (t : DoubleKeyTable) (key : string * string)
    (data : Z) : outcome DoubleKeyTable unit :=
  match fuel with
  | O => OutOfFuel
  | S fuel' =>
      match write_pair t key data with
      | Return _ t2 =>
          if 2 * len t2 >? Z.of_nat (table_size t2)
          then _rehash (setitem_fuel fuel') t2
          else Return tt t2
      | other => other
      end
  end.

(** [__setitem__], with fuel for every growth step the capacity sequence
    allows. *)
Definition setitem (t : DoubleKeyTable) (key : string * string) (data : Z)
    : outcome DoubleKeyTable unit :=
  setitem_fuel (S (S (length (TABLE_SIZES t)))) t key data.

(** The loop [while self.top_level_array[key1_position] is not None] of
    [__delitem__]. *)
Fixpoint cluster_loop (fuel : nat) (t : DoubleKeyTable) (key1_position : nat)
    : outcome DoubleKeyTable unit :=
  match fuel with
  | O => OutOfFuel
  | S fuel' =>
      match top_level_array t !! key1_position with
      | None => Raise IndexError t
      | Some None => Return tt t
      | Some (Some (key1, inner_table)) =>
          match reinsert_inner setitem key1 (LinearProbe.array inner_table) t with
          | Return _ t' =>
              cluster_loop fuel' t' ((key1_position + 1) mod table_size t')%nat
          | other => other
          end
      end
  end.

(** [__delitem__]; the fuel bounds the two cluster walks. *)
Definition delitem (fuel : nat) (t : DoubleKeyTable) (key : string * string)
    : outcome DoubleKeyTable unit :=
  match _linear_probe t key.1 key.2 false with
  | Return (key1_position, _) t1 =>
      match top_level_array t1 !! key1_position with
      | None => Raise IndexError t1
      | Some None => Raise TypeError t1
      | Some (Some (k, inner)) =>
          match LinearProbe.delitem hash2 fuel inner key.2 with
          | Return _ inner' =>
              let t2 := with_slot t1 key1_position (Some (k, inner')) (count t1) in
              if LinearProbe.len inner' =? 0 then
                let t3 := with_slot t2 key1_position None (count t2 - 1) in
                cluster_loop fuel t3 ((key1_position + 1) mod table_size t3)%nat
              else Return tt t2
          | Raise e inner' =>
              Raise e (with_slot t1 key1_position (Some (k, inner')) (count t1))
          | OutOfFuel => OutOfFuel
          end
      end
  | Raise e t1 => Raise e t1
  | OutOfFuel => OutOfFuel
  end.

(** [keys()] with no argument: the top-level keys in slot order. *)
Definition keys (t : DoubleKeyTable) : list string :=
  omap (fun item => match item with Some (k, _) => Some k | None => None end)
       (top_level_array t).

(** The loop [for item in self.top_level_array] of [keys(key)] and
    [values(key)] with a key: [return f(item[1])] at the first slot that
    holds [key]; when no slot does the loop ends, the method has no other
    [return], and the call gives [None]. *)
Fixpoint first_of {B : Type} (f : LinearProbeTable -> B)
    (items : list (option (string * LinearProbeTable))) (key : string) : option B :=
  match items with
  | [] => None
  | None :: rest => first_of f rest key
  | Some (k, inner) :: rest =>
      if String.eqb k key then Some (f inner) else first_of f rest key
  end.

(** [keys(key)] with a key; [None] is Python's [None]. *)
Definition keys_of (t : DoubleKeyTable) (key : string) : option (list string) :=
  first_of LinearProbe.keys (top_level_array t) key.

(** [values()] with no argument: [res += item[1].values()] over the
    occupied slots, in slot order. *)
Definition values (t : DoubleKeyTable) : list Z :=
  flat_map (fun item : option (string * LinearProbeTable) =>
              match item with
              | Some (_, inner) => LinearProbe.values inner
              | None => []
              end)
           (top_level_array t).

(** [values(key)] with a key; [None] is Python's [None]. *)
Definition values_of (t : DoubleKeyTable) (key : string) : option (list Z) :=
  first_of LinearProbe.values (top_level_array t) key.

(** The loop of the generators [iter_keys(key)] and [iter_values(key)] with
    a key: [yield from f(item[1])] at every slot that holds [key].  A
    generator is modelled by the list of what it yields, the table not being
    changed while it runs. *)
Fixpoint each_of {B : Type} (f : LinearProbeTable -> list B)
    (items : list (option (string * LinearProbeTable))) (key : string) : list B :=
  match items with
  | [] => []
  | None :: rest => each_of f rest key
  | Some (k, inner) :: rest =>
      if String.eqb k key then (f inner ++ each_of f rest key)%list
      else each_of f rest key
  end.

(** [iter_keys] *)
Definition iter_keys (t : DoubleKeyTable) (key : option string) : list string :=
  match key with
  | None =>
      omap (fun item : option (string * LinearProbeTable) =>
              match item with Some (k, _) => Some k | None => None end)
           (top_level_array t)
  | Some key => each_of LinearProbe.keys (top_level_array t) key
  end.

(** [iter_values] *)
Definition iter_values (t : DoubleKeyTable) (key : option string) : list Z :=
  match key with
  | None =>
      flat_map (fun item : option (string * LinearProbeTable) =>
                  match item with
                  | Some (_, inner) => LinearProbe.values inner
                  | None => []
                  end)
               (top_level_array t)
  | Some key => each_of LinearProbe.values (top_level_array t) key
  end.

(** *** [__str__] *)

Section Str.

(** [str(x)] of what a read gives: Python leaves it to the class of the
    object, so it is a parameter. *)
Variable str_of : pyobj -> string.

(** The loop [for key2 in self.keys(key1)] of [__str__], from the string
    built so far. *)
Fixpoint str_inner (t : DoubleKeyTable) (key1 : string) (keys2 : list string)
    (result : string) : outcome DoubleKeyTable string :=
  match keys2 with
  | [] => Return result t
  | key2 :: rest =>
      match getitem t (key1, key2) with
      | Return v t' =>
          str_inner t' key1 rest
            (result ++ "(" ++ key1 ++ "," ++ key2 ++ "," ++ str_of v ++ ")"
                    ++ String (ascii_of_nat 10) EmptyString)%string
      | Raise e t' => Raise e t'
      | OutOfFuel => OutOfFuel
      end
  end.

(** The loop [for key1 in self.keys()] of [__str__]; a [for] over the
    [None] that [keys(key1)] gives for an unlisted key raises
    [TypeError]. *)
Fixpoint str_outer (t : DoubleKeyTable) (keys1 : list string) (result : string)
    : outcome DoubleKeyTable string :=
  match keys1 with
  | [] => Return result t
  | key1 :: rest =>
      match keys_of t key1 with
      | None => Raise TypeError t
      | Some keys2 =>
          match str_inner t key1 keys2 result with
          | Return result' t' => str_outer t' rest result'
          | other => other
          end
      end
  end.

(** [__str__]: the string is built and the method ends without a
    [return], so the call gives [None]. *)
Definition str (t : DoubleKeyTable) : outcome DoubleKeyTable (option string) :=
  match str_outer t (keys t) EmptyString with
  | Return _ t' => Return None t'
  | Raise e t' => Raise e t'
  | OutOfFuel => OutOfFuel
  end.

End Str.

End DoubleKeyTable.

(** * Specification of the trie table *)

Module InfiniteHashTableSpec.

Import InfiniteHashTable.

Local Open Scope string_scope.

(** [holds lvl a key]: the walk for [key] from node [a] at depth [lvl] goes
    down through nodes and ends at a leaf that stores [key]. *)
Inductive holds : nat -> ArrayR -> string -> Prop :=
| holds_here lvl a key v :
    cells a !! hash lvl key = Some (Some (Leaf key v)) ->
    holds lvl a key
| holds_below lvl a key p child :
    cells a !! hash lvl key = Some (Some (Sub p child)) ->
    holds (S lvl) child key ->
    holds lvl a key.

(** The table after [t["a"] = 1] on a new table. *)
Definition table_a : InfiniteHashTable :=
  {| table := mkArrayR (<[19%nat := Some (Leaf "a" 1)]> (replicate 27 None)) 1;
     level := 0; count := 1 |}.

(** The table after [t["a"] = 1; t["ab"] = 2] on a new table: the root
    points, from slot 19, to a node with the two leaves. *)
Definition table_ab : InfiniteHashTable :=
  {| table :=
       mkArrayR
         (<[19%nat := Some (Sub "a"
              (mkArrayR (<[20%nat := Some (Leaf "ab" 2)]>
                           (<[26%nat := Some (Leaf "a" 1)]> (replicate 27 None))) 2))]>
            (replicate 27 None)) 2;
     level := 1; count := 2 |}.

(** The run [t[k1] = v1; ...] on a new table, each set with fuel 10. *)
Fixpoint set_all (kvs : list (string * Z)) (t : InfiniteHashTable)
    : outcome InfiniteHashTable unit :=
  match kvs with
  | [] => Return tt t
  | (k, v) :: rest => and_then (setitem 10 t k v) (set_all rest)
  end.

(** The node under ["x"] once ["xa"] is deleted from the table of ["xa"],
    ["xab"] and ["xb"]. *)
Definition node_x_after : ArrayR :=
  mkArrayR (<[20%nat := Some (Leaf "xb" 3)]> (replicate 27 None)) 2.

(** The number of (key, value) leaves stored beneath a node. *)
Fixpoint leaves (a : ArrayR) : nat :=
  match a with
  | mkArrayR c _ =>
      foldr (fun s acc =>
               (match s with
                | None => 0
                | Some (Leaf _ _) => 1
                | Some (Sub _ child) => leaves child
                end + acc)%nat) 0%nat c
  end.

Definition slot_leaves (s : option entry) : nat :=
  match s with
  | None => 0
  | Some (Leaf _ _) => 1
  | Some (Sub _ child) => leaves child
  end.

(** The number of non-empty slots of a node. *)
Definition occupied_slots (a : ArrayR) : nat :=
  length (filter (fun s : option entry => is_Some s) (cells a)).

(** The node reached from [a] through the pointers in the slots [path]. *)
Fixpoint node_at (a : ArrayR) (path : list nat) : option ArrayR :=
  match path with
  | [] => Some a
  | i :: rest =>
      match cells a !! i with
      | Some (Some (Sub _ child)) => node_at child rest
      | _ => None
      end
  end.

(** Every node of the trie has a counter equal to the number of leaves of
    its subtree. *)
Definition counters_count_leaves (a : ArrayR) : Prop :=
  forall path b, node_at a path = Some b -> node_count b = Z.of_nat (leaves b).

(** The slots a key hashes to at the depths below [d]. *)
Definition key_path (key : string) (d : nat) : list nat :=
  (fun lvl => hash lvl key) <$> seq 0 d.

(** [wf path a]: the node [a], reached through the slots [path], is as the
    methods build it: full length, a counter that counts the leaves beneath,
    every leaf on the path of its key, and at least two leaves under every
    pointer. *)
Inductive wf : list nat -> ArrayR -> Prop :=
| wf_node path c n :
    length c = TABLE_SIZE ->
    n = Z.of_nat (leaves (mkArrayR c n)) ->
    (forall i e, c !! i = Some (Some e) -> wf_entry path i e) ->
    wf path (mkArrayR c n)
with wf_entry : list nat -> nat -> entry -> Prop :=
| wf_leaf path i k v :
    key_path k (S (length path)) = (path ++ [i])%list ->
    wf_entry path i (Leaf k v)
| wf_sub path i tag child :
    (2 <= leaves child)%nat ->
    wf (path ++ [i])%list child ->
    wf_entry path i (Sub tag child).

(** [stops_at_leaf lvl a key]: the walk of [__delitem__] for [key] from
    [a] passes pointers whose tag is not [key] and stops at the leaf that
    stores [key]. *)
Inductive stops_at_leaf : nat -> ArrayR -> string -> Prop :=
| stops_here lvl a key v :
    cells a !! hash lvl key = Some (Some (Leaf key v)) ->
    stops_at_leaf lvl a key
| stops_below lvl a key p child :
    cells a !! hash lvl key = Some (Some (Sub p child)) ->
    p <> key ->
    stops_at_leaf (S lvl) child key ->
    stops_at_leaf lvl a key.

(** The tables that completed sets, and completed deletes of keys found at
    their leaf, build from a new table. *)
Inductive built : InfiniteHashTable -> Prop :=
| built_init : built init
| built_set t fuel key value t' :
    built t ->
    setitem fuel t key value = Return tt t' ->
    built t'
| built_del t key t' :
    built t ->
    stops_at_leaf 0 (table t) key ->
    delitem t key = Return tt t' ->
    built t'.

(** [stored lvl a key v]: the slots [key] hashes to, from node [a] at depth
    [lvl], lead through pointers to the leaf [(key, v)]. *)
Inductive stored : nat -> ArrayR -> string -> Z -> Prop :=
| stored_here lvl a key v :
    cells a !! hash lvl key = Some (Some (Leaf key v)) ->
    stored lvl a key v
| stored_below lvl a key v p child :
    cells a !! hash lvl key = Some (Some (Sub p child)) ->
    stored (S lvl) child key v ->
    stored lvl a key v.

(** [walk lvl a key d s]: the walk for [key] from node [a] at depth [lvl]
    passes pointers whose tag is not [key] and ends at depth [d] on a slot
    that is empty or holds a leaf; [s] is what the slot holds. *)
Inductive walk : nat -> ArrayR -> string -> nat -> option entry -> Prop :=
| walk_empty lvl a key :
    cells a !! hash lvl key = Some None ->
    walk lvl a key lvl None
| walk_leaf lvl a key k v :
    cells a !! hash lvl key = Some (Some (Leaf k v)) ->
    walk lvl a key lvl (Some (Leaf k v))
| walk_below lvl a key p child d s :
    cells a !! hash lvl key = Some (Some (Sub p child)) ->
    p <> key ->
    walk (S lvl) child key d s ->
    walk lvl a key d s.

(** [can_set lvl a key]: the slots [key] hashes to, from node [a] at depth
    [lvl], lead through pointers to an empty slot, or to the leaf of a key
    that hashes to another slot than [key] at some greater depth. *)
Inductive can_set : nat -> ArrayR -> string -> Prop :=
| can_set_empty lvl a key :
    cells a !! hash lvl key = Some None ->
    can_set lvl a key
| can_set_leaf lvl a key k v d :
    cells a !! hash lvl key = Some (Some (Leaf k v)) ->
    (lvl < d)%nat ->
    hash d key <> hash d k ->
    can_set lvl a key
| can_set_below lvl a key p child :
    cells a !! hash lvl key = Some (Some (Sub p child)) ->
    can_set (S lvl) child key ->
    can_set lvl a key.

(** [can_set_above lvl a key]: as [can_set], through pointers whose tag is
    not [key], and with the depth where the two keys hash apart below the
    length of [key]. *)
Inductive can_set_above : nat -> ArrayR -> string -> Prop :=
| can_set_above_empty lvl a key :
    cells a !! hash lvl key = Some None ->
    can_set_above lvl a key
| can_set_above_leaf lvl a key k v d :
    cells a !! hash lvl key = Some (Some (Leaf k v)) ->
    (lvl < d)%nat ->
    (d < String.length key)%nat ->
    hash d key <> hash d k ->
    can_set_above lvl a key
| can_set_above_below lvl a key p child :
    cells a !! hash lvl key = Some (Some (Sub p child)) ->
    p <> key ->
    can_set_above (S lvl) child key ->
    can_set_above lvl a key.

(** The table after [t["lin"] = 1; t["lim"] = 2] on a new table. *)
Definition table_lin_lim : InfiniteHashTable :=
  Eval vm_compute in
    match set_all [("lin", 1); ("lim", 2)] init with
    | Return _ t => t
    | _ => init
    end.

(** [get_walk same_object lvl a key d s]: the loop of [get_location] for
    [key] from node [a] at depth [lvl] passes pointers whose tag is not the
    object [key] and ends at depth [d] on a slot that is empty or holds a
    leaf; [s] is what the slot holds. *)
Inductive get_walk (same_object : string -> string -> bool)
    : nat -> ArrayR -> string -> nat -> option entry -> Prop :=
| get_walk_empty lvl a key :
    cells a !! hash lvl key = Some None ->
    get_walk same_object lvl a key lvl None
| get_walk_leaf lvl a key k v :
    cells a !! hash lvl key = Some (Some (Leaf k v)) ->
    get_walk same_object lvl a key lvl (Some (Leaf k v))
| get_walk_below lvl a key p child d s :
    cells a !! hash lvl key = Some (Some (Sub p child)) ->
    same_object p key = false ->
    get_walk same_object (S lvl) child key d s ->
    get_walk same_object lvl a key d s.

(** The table after [t["DG"] = 1; t["xab"] = 2] on a new table: the two
    keys hash alike at depths 0 and 1, so the leaves lie under the pointers
    tagged ["x"] and ["xa"]. *)
Definition table_DG_xab : InfiniteHashTable :=
  Eval vm_compute in
    match set_all [("DG", 1); ("xab", 2)] init with
    | Return _ t => t
    | _ => init
    end.

End InfiniteHashTableSpec.

(** * Specification of the nested table *)

Module LinearProbeSpec.

Import LinearProbe.

(** What a run of reinsertions over the slot sequence [items] leaves under
    [key], from what was there before: the pair of the last slot that holds
    [key], if any. *)
Fixpoint overridden (items : list (option (string * Z))) (key : string)
    (before : option Z) : option Z :=
  match items with
  | [] => before
  | None :: rest => overridden rest key before
  | Some (k, v) :: rest =>
      overridden rest key (if String.eqb key k then Some v else before)
  end.

Section Table.

Variable hash : LinearProbeTable -> string -> result nat.

(** The value the lookup probe locates for [key]. *)
Definition lookup (t : LinearProbeTable) (key : string) : option Z :=
  match _linear_probe hash t key false with
  | Ok position =>
      match array t !! position with
      | Some (Some (_, v)) => Some v
      | _ => None
      end
  | Error _ => None
  end.

(** Every stored pair is where the lookup probe of its key ends. *)
Definition inv (t : LinearProbeTable) : Prop :=
  forall i k v, array t !! i = Some (Some (k, v)) -> _linear_probe hash t k false = Ok i.

(** What a set must do for the reinsertion lemma. *)
Definition set_ok (set : LinearProbeTable -> string -> Z -> outcome LinearProbeTable unit)
    : Prop :=
  forall t k v t',
    inv t -> set t k v = Return tt t' ->
    inv t' /\ forall k', lookup t' k' = if String.eqb k' k then Some v else lookup t k'.

End Table.

(** What a set must do for the reinsertion not to run out of fuel, on the
    tables of capacity sequence [sizes] from index [idx] on. *)
Definition set_ends (sizes : list Z) (idx : nat)
    (set : LinearProbeTable -> string -> Z -> outcome LinearProbeTable unit) : Prop :=
  forall t k v,
    TABLE_SIZES t = sizes -> (idx <= size_index t)%nat ->
    set t k v <> OutOfFuel /\
    forall t', set t k v = Return tt t' ->
               TABLE_SIZES t' = sizes /\ (size_index t <= size_index t')%nat.

End LinearProbeSpec.

(** * Specification of the composite table *)

Module DoubleKeyTableSpec.

Import DoubleKeyTable.

Local Open Scope string_scope.

(** The value the lookup probe of [_linear_probe] locates for a key pair:
    the value in the nested slot it resolves to. *)
Definition lookup (t : DoubleKeyTable) (key1 key2 : string) : option Z :=
  match _linear_probe t key1 key2 false with
  | Return (p1, p2) _ =>
      match top_level_array t !! p1 with
      | Some (Some (_, inner)) =>
          match LinearProbe.array inner !! p2 with
          | Some (Some (_, v)) => Some v
          | _ => None
          end
      | _ => None
      end
  | _ => None
  end.

(** Whether the lookup probe finds an outer slot that holds [key1]. *)
Definition has_key (t : DoubleKeyTable) (key1 : string) : bool :=
  match hash1 t key1 with
  | Ok pos =>
      match LinearProbe.probe_loop (table_size t) (top_level_array t) pos key1 false with
      | Ok _ => true
      | Error _ => false
      end
  | Error _ => false
  end.

(** The number of occupied slots of a slot sequence. *)
Definition occupied {A : Type} (a : list (option A)) : nat :=
  sum_list ((fun s : option A => if s is Some _ then 1 else 0)%nat <$> a).

(** The outer slots are where the probe of their key ends, the nested
    tables are well formed, and the count is that of the occupied outer
    slots. *)
Record inv (t : DoubleKeyTable) : Prop := mkInv {
  inv_found : forall i k inner,
    top_level_array t !! i = Some (Some (k, inner)) ->
    exists pos, hash1 t k = Ok pos /\
      LinearProbe.probe_loop (table_size t) (top_level_array t) pos k false = Ok i;
  inv_inner : forall i k inner,
    top_level_array t !! i = Some (Some (k, inner)) ->
    LinearProbeSpec.inv hash2 inner;
  inv_count : count t = Z.of_nat (occupied (top_level_array t))
}.

(** What the reinsertion of the outer slot sequence [items] leaves under a
    key pair, from what was there before. *)
Fixpoint overridden2 (items : list (option (string * LinearProbe.LinearProbeTable)))
    (key1 key2 : string) (before : option Z) : option Z :=
  match items with
  | [] => before
  | None :: rest => overridden2 rest key1 key2 before
  | Some (k, inner) :: rest =>
      overridden2 rest key1 key2
        (if String.eqb key1 k
         then LinearProbeSpec.overridden (LinearProbe.array inner) key2 before
         else before)
  end.

(** The table an outcome returns with; a table of no capacity otherwise. *)
Definition table_of (o : outcome DoubleKeyTable unit) : DoubleKeyTable :=
  match o with
  | Return _ t => t
  | _ => {| TABLE_SIZES := []; size_index := 0; count := 0; top_level_array := [];
            internal_sizes := None |}
  end.

(** A new table with the default capacities, after [t["a", "x"] = 1] and
    [t["b", "x"] = 2]: two outer keys in capacity 5. *)
Definition two_keys : DoubleKeyTable :=
  Eval vm_compute in
    table_of (match init None None with
              | Ok t => and_then (setitem t ("a", "x") 1) (fun t => setitem t ("b", "x") 2)
              | Error _ => OutOfFuel
              end).

(** [two_keys] once the pair of [t["c", "x"] = 3] is written, before the
    occupancy check, and once the set has returned. *)
Definition three_keys_written : DoubleKeyTable :=
  Eval vm_compute in table_of (write_pair two_keys ("c", "x") 3).

Definition three_keys : DoubleKeyTable :=
  Eval vm_compute in table_of (setitem two_keys ("c", "x") 3).

(** The run of sets [t[k] = v; ...] from a table. *)
Fixpoint set_all (kvs : list (string * string * Z)) (t : DoubleKeyTable)
    : outcome DoubleKeyTable unit :=
  match kvs with
  | [] => Return tt t
  | (k, v) :: rest => and_then (setitem t k v) (set_all rest)
  end.

(** What a set must do for the reinsertions of [_rehash] not to run out
    of fuel, on the tables of capacity sequence [sizes] from index [idx]
    on. *)
Definition set_ends (sizes : list Z) (idx : nat)
    (set : DoubleKeyTable -> string * string -> Z -> outcome DoubleKeyTable unit) : Prop :=
  forall t key v,
    TABLE_SIZES t = sizes -> (idx <= size_index t)%nat ->
    set t key v <> OutOfFuel /\
    forall t', set t key v = Return tt t' ->
               TABLE_SIZES t' = sizes /\ (size_index t <= size_index t')%nat.

(** The tables that sets that return build from a new table. *)
Inductive set_built : DoubleKeyTable -> Prop :=
| set_built_init sizes internal_sizes t :
    init sizes internal_sizes = Ok t ->
    set_built t
| set_built_set t key data t' :
    set_built t ->
    setitem t key data = Return tt t' ->
    set_built t'.

(** A new table with the default capacities. *)
Definition new_table : DoubleKeyTable :=
  Eval vm_compute in
    match init None None with
    | Ok t => t
    | Error _ => table_of OutOfFuel
    end.

(** A table of the single capacity 2 after [t["a", "x"] = 1] and
    [t["b", "x"] = 2]: both outer slots are taken. *)
Definition full_table : DoubleKeyTable :=
  Eval vm_compute in
    table_of (match init (Some [2]) None with
              | Ok t => and_then (setitem t ("a", "x") 1) (fun t => setitem t ("b", "x") 2)
              | Error _ => OutOfFuel
              end).

(** A new table of the single capacity 1. *)
Definition unit_table : DoubleKeyTable :=
  Eval vm_compute in
    match init (Some [1]) None with
    | Ok t => t
    | Error _ => table_of OutOfFuel
    end.

(** A new nested table with the default capacities. *)
Definition new_nested : LinearProbe.LinearProbeTable :=
  Eval vm_compute in
    match LinearProbe.init None with
    | Ok t => t
    | Error _ =>
        {| LinearProbe.TABLE_SIZES := []; LinearProbe.size_index := 0;
           LinearProbe.count := 0; LinearProbe.array := [] |}
    end.

(** What a run of sets leaves under a key pair, from what was there
    before: the value of the last set of the pair, if any. *)
Fixpoint last_set (kvs : list (string * string * Z)) (key1 key2 : string)
    (before : option Z) : option Z :=
  match kvs with
  | [] => before
  | (k1, k2, v) :: rest =>
      last_set rest key1 key2
        (if String.eqb key1 k1 && String.eqb key2 k2 then Some v else before)
  end.

End DoubleKeyTableSpec.

(** * Sums over slot sequences *)

Lemma sum_list_insert {A : Type} (f : A -> nat) (l : list A) (i : nat) (old x : A) :
  l !! i = Some old ->
  (sum_list (f <$> <[i := x]> l) + f old = sum_list (f <$> l) + f x)%nat.
Proof.
  revert i. induction l as [|y l IH]; intros [|i] H; try discriminate.
  - injection H as ->. simpl. lia.
  - specialize (IH i H).
    change (sum_list (f <$> <[S i := x]> (y :: l)))
      with (f y + sum_list (f <$> <[i := x]> l))%nat.
    change (sum_list (f <$> (y :: l))) with (f y + sum_list (f <$> l))%nat.
    lia.
Qed.

Lemma sum_list_lookup_le {A : Type} (f : A -> nat) (l : list A) (i : nat) (x : A) :
  l !! i = Some x -> (f x <= sum_list (f <$> l))%nat.
Proof.
  revert i. induction l as [|y l IH]; intros [|i] H; cbn in *; try discriminate.
  - injection H as ->. clear IH. lia.
  - specialize (IH i H). lia.
Qed.

(** * Properties of the trie table *)

Module InfiniteHashTableProofs.

Import InfiniteHashTable InfiniteHashTableSpec.

Local Open Scope string_scope.

Lemma hash_lt (lvl : nat) (key : string) : (hash lvl key < TABLE_SIZE)%nat.
Proof.
  unfold hash, TABLE_SIZE. destruct (String.get lvl key) as [c|]; [|lia].
  assert (ord c mod N.of_nat (27 - 1) < N.of_nat (27 - 1))%N
    by (apply N.mod_lt; discriminate).
  lia.
Qed.

Lemma depth_child (c : list (option entry)) (n : Z) (i : nat) (tag : string)
    (child : ArrayR) :
  c !! i = Some (Some (Sub tag child)) ->
  (depth child < depth (mkArrayR c n))%nat.
Proof.
  cbn [depth]. revert i. induction c as [|s c IH]; intros [|i] H; try discriminate.
  - injection H as ->. cbn [foldr]. lia.
  - specialize (IH i H). cbn [foldr]. destruct s as [[?|? ?]|]; lia.
Qed.

(** The walks of [get_location] and [__delitem__] go one node down at each
    turn, so they end within the depth of the table. *)
Lemma get_location_loop_ends (same_object : string -> string -> bool) (fuel : nat) :
  forall lvl current key temp,
    (depth current <= fuel)%nat ->
    get_location_loop same_object fuel lvl current key temp <> OutOfFuel.
Proof.
  induction fuel as [|fuel IH]; intros lvl [c n] key temp Hd.
  - cbn [depth] in Hd. lia.
  - cbn [get_location_loop cells].
    destruct (c !! hash lvl key) as [[[k v|tag child]|]|] eqn:Hs; try discriminate.
    + cbn [entry_key]. destruct (same_object k key); discriminate.
    + cbn [entry_key]. destruct (same_object tag key); [discriminate|].
      apply IH. pose proof (depth_child c n _ tag child Hs). lia.
Qed.

Lemma get_location_ends (same_object : string -> string -> bool)
    (t : InfiniteHashTable) (key : string) :
  get_location same_object t key <> OutOfFuel.
Proof.
  unfold get_location.
  pose proof (get_location_loop_ends same_object (depth (table t)) 0 (table t) key []
                (Nat.le_refl _)) as H.
  destruct (get_location_loop same_object (depth (table t)) 0 (table t) key []);
    [discriminate|discriminate|contradiction].
Qed.

Lemma del_loop_ends (fuel : nat) :
  forall lvl current key,
    (depth current <= fuel)%nat ->
    del_loop fuel lvl current key <> OutOfFuel.
Proof.
  induction fuel as [|fuel IH]; intros lvl [c n] key Hd.
  - cbn [depth] in Hd. lia.
  - cbn [del_loop cells node_count]. cbv zeta.
    destruct (c !! hash lvl key) as [[[k v|tag child]|]|] eqn:Hs; try discriminate.
    + cbn [entry_key]. destruct (String.eqb k key); discriminate.
    + cbn [entry_key]. destruct (String.eqb tag key); [discriminate|].
      pose proof (depth_child c n _ tag child Hs) as Hc.
      specialize (IH (S lvl) child key ltac:(lia)).
      destruct (del_loop fuel (S lvl) child key) as [[item running] [child' l]|ex [child' l]|];
        [|discriminate|contradiction].
      destruct running; [|discriminate].
      destruct item as [it|]; [|discriminate].
      destruct (array_set _ _ _); discriminate.
Qed.

Lemma delitem_ends (t : InfiniteHashTable) (key : string) :
  delitem t key <> OutOfFuel.
Proof.
  unfold delitem.
  pose proof (del_loop_ends (depth (table t)) 0 (table t) key (Nat.le_refl _)) as H.
  destruct (del_loop (depth (table t)) 0 (table t) key) as [[] []|? []|];
    [discriminate|discriminate|contradiction].
Qed.

Lemma set_loop_on_stored_leaf (fuel : nat) :
  forall lvl current key v0 value,
    cells current !! hash lvl key = Some (Some (Leaf key v0)) ->
    set_loop fuel lvl current (hash lvl key) key value = OutOfFuel.
Proof.
  induction fuel as [|fuel IH]; intros lvl current key v0 value Hslot; [reflexivity|].
  cbn [set_loop]. rewrite Hslot. cbn zeta.
  rewrite (IH (S lvl) _ key v0 value); [reflexivity|].
  unfold split_table. cbn [cells new_ArrayR]. apply list_lookup_insert_eq.
  rewrite length_replicate. apply hash_lt.
Qed.

Lemma set_loop_on_held_key (lvl : nat) (current : ArrayR) (key : string) :
  holds lvl current key ->
  forall fuel value, set_loop fuel lvl current (hash lvl key) key value = OutOfFuel.
Proof.
  induction 1 as [lvl a key v0 Hslot | lvl a key p child Hslot _ IH];
    intros fuel value.
  - eapply set_loop_on_stored_leaf; eauto.
  - destruct fuel as [|fuel]; [reflexivity|].
    cbn [set_loop]. rewrite Hslot. cbn zeta. now rewrite IH.
Qed.

(** C3: a set on a key the table already stores never finishes: whatever
    the fuel, the loop of [__setitem__] is still running when it ends (it
    splits the leaf of the key again and again), so no overwrite takes
    place. *)
Theorem setitem_stored_key_diverges (t : InfiniteHashTable) (key : string) :
  holds 0 (table t) key ->
  forall (fuel : nat) (value : Z), setitem fuel t key value = OutOfFuel.
Proof.
  intros H fuel value. unfold setitem.
  now rewrite (set_loop_on_held_key 0 (table t) key H).
Qed.

(** The theorem on the table of ["lin"] and ["lim"], where the leaf of
    ["lim"] lies two pointers below the root beside the leaf of ["lin"], and
    on the table of the single key ["a"]. *)
Lemma setitem_stored_key_diverges_witness :
  set_all [("lin", 1); ("lim", 2)] init = Return tt table_lin_lim /\
  holds 0 (table table_lin_lim) "lim" /\
  (forall (fuel : nat) (value : Z), setitem fuel table_lin_lim "lim" value = OutOfFuel) /\
  setitem 1 init "a" 1 = Return tt table_a /\
  holds 0 (table table_a) "a" /\
  forall (fuel : nat) (value : Z), setitem fuel table_a "a" value = OutOfFuel.
Proof.
  assert (H1 : holds 0 (table table_lin_lim) "lim").
  { eapply holds_below; [reflexivity|]. eapply holds_below; [reflexivity|].
    apply (holds_here 2 _ "lim" 2). reflexivity. }
  assert (H2 : holds 0 (table table_a) "a")
    by (apply (holds_here 0 _ "a" 1); reflexivity).
  split; [reflexivity|]. split; [exact H1|].
  split; [exact (setitem_stored_key_diverges table_lin_lim "lim" H1)|].
  split; [reflexivity|]. split; [exact H2|].
  exact (setitem_stored_key_diverges table_a "a" H2).
Defined.

(** Two different keys of one length whose characters agree modulo 26 at
    every position are not told apart at any depth either. *)
Lemma setitem_colliding_keys_diverges :
  forall (fuel : nat) (value : Z), setitem fuel table_a "G" value = OutOfFuel.
Proof.
  intros fuel value. unfold setitem.
  destruct fuel as [|fuel]; [reflexivity|].
  cbn [set_loop]. change (hash 0 "G") with 19%nat.
  change (cells (table table_a) !! 19%nat) with (Some (Some (Leaf "a" 1))).
  cbv beta iota zeta.
  assert (Hgen : forall fuel lvl current,
             cells current !! 26%nat = Some (Some (Leaf "a" 1)) ->
             set_loop fuel (S lvl) current 26 "G" value = OutOfFuel).
  { clear. induction fuel as [|fuel IH]; intros lvl current Hs; [reflexivity|].
    cbn [set_loop]. rewrite Hs. cbn zeta.
    replace (hash (S (S lvl)) "G") with 26%nat by (destruct lvl; reflexivity).
    replace (hash (S (S lvl)) "a") with 26%nat by (destruct lvl; reflexivity).
    rewrite IH; [reflexivity|]. reflexivity. }
  change (hash 1 "G") with 26%nat. change (hash 1 "a") with 26%nat.
  rewrite Hgen; reflexivity.
Qed.

(** C6: on a new table the key ["a"] is absent and its walk ends at an
    empty slot at once; [get_location] returns the position of that slot,
    [__getitem__] and [__delitem__] raise [TypeError] (they subscript
    [None]), and none of them raises [KeyError]. *)
Theorem absent_key_at_empty_slot (same_object : string -> string -> bool) :
  get_location same_object init "a" = Return [19%nat] init /\
  getitem same_object init "a" = Raise TypeError init /\
  contains same_object init "a" = Raise TypeError init /\
  delitem init "a" = Raise TypeError init.
Proof. run_all. Qed.

(** Scenario B: after ["lin"] and ["lim"] are set and ["lin"] is deleted,
    the leaf of ["lim"] is in the root, and the lookup of ["lim"] by the
    stored object gives 2. *)
Lemma scenario_B :
  exists t1 t2,
    set_all [("lin", 1); ("lim", 2)] init = Return tt t1 /\
    getitem String.eqb t1 "lin" = Return (PInt 1) {| table := table t1; level := 0; count := 2 |} /\
    delitem t1 "lin" = Return tt t2 /\
    table t2 = mkArrayR (<[4%nat := Some (Leaf "lim" 2)]> (replicate 27 None)) 1 /\
    len t2 = 1 /\
    getitem String.eqb t2 "lim" = Return (PInt 2) t2.
Proof. do 2 eexists. run_all. Qed.

(** C7: with ["xa"], ["xab"] and ["xb"] stored, the delete of ["xa"] stops
    at the pointer tagged ["xa"] and clears it; the node under ["x"] is
    left with the single leaf ["xb"], which is not moved up into the root:
    the root still points to that node. *)
Theorem delete_leaves_single_leaf_below :
  exists t1 t2,
    set_all [("xa", 1); ("xab", 2); ("xb", 3)] init = Return tt t1 /\
    holds 0 (table t1) "xa" /\
    delitem t1 "xa" = Return tt t2 /\
    cells (table t2) !! 16%nat = Some (Some (Sub "x" node_x_after)) /\
    getitem String.eqb t2 "xab" =
      Raise TypeError {| table := table t2; level := 0; count := count t2 |}.
Proof.
  do 2 eexists. split; [run|]. split.
  - eapply holds_below; [run|].
    eapply holds_below; [run|].
    eapply holds_here. run.
  - run_all.
Qed.

(** The delete of a key that is also the tag of a pointer discards the
    subtree of the pointer: here ["ab"] goes with ["a"], and the length
    stays 1 with no key left. *)
Lemma delete_discards_subtree :
  exists t1 t2,
    set_all [("a", 1); ("ab", 2)] init = Return tt t1 /\
    delitem t1 "a" = Return tt t2 /\
    table t2 = mkArrayR (replicate 27 None) 1 /\
    len t2 = 1.
Proof. do 2 eexists. run_all. Qed.

(** C10: the delete of the absent key ["ab"] from the table that stores
    ["a"] raises only after it has decremented the counter of the root:
    the table it leaves is not the table it was given. *)
Theorem failed_delete_changes_counter :
  exists t',
    delitem table_a "ab" = Raise TypeError t' /\
    node_count (table table_a) = 1 /\
    node_count (table t') = 0 /\
    t' <> table_a.
Proof.
  eexists. split; [vm_compute; reflexivity|].
  split; [reflexivity|]. split; [reflexivity|]. discriminate.
Qed.


(** ** The counters of the nodes *)

Lemma leaves_unfold (c : list (option entry)) (n : Z) :
  leaves (mkArrayR c n) = sum_list (slot_leaves <$> c).
Proof. induction c as [|s c IH]; [reflexivity|]. cbn in *. now rewrite IH. Qed.

Lemma leaves_new_ArrayR (n : Z) : leaves (mkArrayR (replicate TABLE_SIZE None) n) = 0%nat.
Proof. reflexivity. Qed.

Lemma key_path_S (key : string) (d : nat) :
  key_path key (S d) = (key_path key d ++ [hash d key])%list.
Proof. unfold key_path. rewrite seq_S, fmap_app. reflexivity. Qed.

Lemma key_path_length (key : string) (d : nat) : length (key_path key d) = d.
Proof. unfold key_path. now rewrite length_fmap, length_seq. Qed.

Lemma key_path_step (key : string) (path : list nat) (i : nat) :
  key_path key (S (length path)) = (path ++ [i])%list ->
  key_path key (length path) = path /\ hash (length path) key = i.
Proof.
  rewrite key_path_S. intros H. apply app_inj_tail in H as [H1 H2]. auto.
Qed.

Lemma wf_init : wf [] (table init).
Proof.
  constructor; [reflexivity|reflexivity|].
  intros i e H. apply lookup_replicate in H as [H _]. discriminate.
Qed.

Lemma wf_node_at (path : list nat) :
  forall pre a b, wf pre a -> node_at a path = Some b -> wf (pre ++ path)%list b.
Proof.
  induction path as [|i path IH]; intros pre a b Hwf Hat; cbn in Hat.
  - injection Hat as <-. now rewrite app_nil_r.
  - destruct a as [c n]. cbn [cells] in Hat.
    destruct (c !! i) as [[[k v|tag child]|]|] eqn:Hs; try discriminate.
    inversion Hwf as [? ? ? _ _ Hent]; subst.
    specialize (Hent i _ Hs). inversion Hent; subst.
    replace (pre ++ i :: path)%list with ((pre ++ [i]) ++ path)%list
      by (now rewrite <- app_assoc).
    eapply IH; eauto.
Qed.

Lemma wf_counters (a : ArrayR) : wf [] a -> counters_count_leaves a.
Proof.
  intros Hwf path b Hat. apply (wf_node_at path [] a b Hwf) in Hat.
  inversion Hat; subst. cbn [node_count]. assumption.
Qed.

(** *** Sets *)

Lemma split_table_wf (path : list nat) (pos : nat) (k0 : string) (v0 : Z) :
  wf_entry path pos (Leaf k0 v0) ->
  wf (path ++ [pos])%list (split_table (S (length path)) k0 v0) /\
  leaves (split_table (S (length path)) k0 v0) = 1%nat.
Proof.
  intros Hent. unfold split_table. cbn [cells new_ArrayR node_count].
  set (h := hash (S (length path)) k0).
  assert (Hh : (h < TABLE_SIZE)%nat) by apply hash_lt.
  assert (Hl : leaves (mkArrayR (<[h := Some (Leaf k0 v0)]> (replicate TABLE_SIZE None))
                         (0 + 1)) = 1%nat).
  { rewrite leaves_unfold.
    pose proof (sum_list_insert slot_leaves (replicate TABLE_SIZE None)
                  h None (Some (Leaf k0 v0))) as Hsum.
    rewrite lookup_replicate_2 in Hsum by exact Hh.
    specialize (Hsum eq_refl).
    change (sum_list (slot_leaves <$> replicate TABLE_SIZE None)) with 0%nat in Hsum.
    cbn [slot_leaves] in Hsum. lia. }
  split; [|exact Hl].
  constructor.
  - now rewrite length_insert, length_replicate.
  - rewrite Hl. reflexivity.
  - intros i e Hi. apply list_lookup_insert_Some in Hi as [(Hi1 & Hi2 & _)|(_ & Hi)].
    + subst i. injection Hi2 as <-. inversion Hent; subst.
      constructor. rewrite key_path_S, length_app. cbn [length].
      rewrite Nat.add_1_r. fold h. congruence.
    + apply lookup_replicate in Hi as [Hi _]. discriminate.
Qed.

Lemma set_loop_wf (fuel : nat) :
  forall lvl path current key value current' l,
    length path = lvl ->
    key_path key lvl = path ->
    wf path current ->
    set_loop fuel lvl current (hash lvl key) key value = Return tt (current', l) ->
    wf path current' /\ leaves current' = S (leaves current).
Proof.
  induction fuel as [|fuel IH];
    intros lvl path [c n] key value current' l Hlen Hkey Hwf Hset; [discriminate|].
  assert (HkeyS : key_path key (S (length path)) = (path ++ [hash lvl key])%list)
    by (rewrite key_path_S, Hlen, Hkey; reflexivity).
  inversion Hwf as [? ? ? Hc Hn Hent]; subst path0 c0 n0.
  rewrite leaves_unfold in Hn.
  cbn [set_loop cells node_count] in Hset.
  set (pos := hash lvl key) in *.
  assert (Hpos : (pos < length c)%nat) by (rewrite Hc; apply hash_lt).
  destruct (c !! pos) as [[e|]|] eqn:Hs; [| |discriminate].
  - (* an occupied slot: one more turn *)
    cbv zeta in Hset.
    assert (Hchild : exists tag child,
               match e with
               | Leaf k v => (prefix_of (S lvl) key, split_table (S lvl) k v)
               | Sub p child => (p, child)
               end = (tag, child) /\
               wf (path ++ [pos])%list child /\
               leaves child = slot_leaves (Some e) /\
               (1 <= leaves child)%nat).
    { specialize (Hent pos e Hs). destruct e as [k0 v0|p ch].
      - do 2 eexists. split; [reflexivity|]. subst lvl.
        destruct (split_table_wf path pos k0 v0 Hent) as [H1 H2].
        split; [exact H1|]. rewrite H2. cbn [slot_leaves]. lia.
      - do 2 eexists. split; [reflexivity|]. inversion Hent; subst. cbn [slot_leaves].
        split; [assumption|lia]. }
    destruct Hchild as (tag & child & Heq & Hwfc & Hlc & Hge).
    rewrite Heq in Hset.
    destruct (set_loop fuel (S lvl) child (hash (S lvl) key) key value)
      as [[] [child' l']|ex [child' l']|] eqn:Hrec; try discriminate.
    injection Hset as <- <-.
    destruct (IH (S lvl) (path ++ [pos])%list child key value child' l') as [Hwf' Hl'];
      [rewrite length_app; cbn; lia|rewrite <- Hlen; exact HkeyS|assumption|assumption|].
    pose proof (sum_list_insert slot_leaves c pos (Some e) (Some (Sub tag child')) Hs) as Hsum.
    change (slot_leaves (Some (Sub tag child'))) with (leaves child') in Hsum.
    split.
    + constructor.
      * now rewrite length_insert.
      * rewrite leaves_unfold. lia.
      * intros i e' Hi. apply list_lookup_insert_Some in Hi as [(Hi1 & Hi2 & _)|(Hne & Hi)].
        -- subst i. injection Hi2 as <-. constructor; [lia|assumption].
        -- eauto.
    + rewrite !leaves_unfold. lia.
  - (* an empty slot: the pair is written *)
    injection Hset as <- <-.
    pose proof (sum_list_insert slot_leaves c pos None (Some (Leaf key value)) Hs) as Hsum.
    cbn [slot_leaves] in Hsum.
    split.
    + constructor.
      * now rewrite length_insert.
      * rewrite leaves_unfold. lia.
      * intros i e' Hi. apply list_lookup_insert_Some in Hi as [(Hi1 & Hi2 & _)|(Hne & Hi)].
        -- subst i. injection Hi2 as <-. constructor. exact HkeyS.
        -- eauto.
    + rewrite !leaves_unfold. lia.
Qed.

(** *** Deletes *)

Lemma first_item_single (c : list (option entry)) :
  sum_list (slot_leaves <$> c) = 1%nat ->
  (forall i tag child, c !! i = Some (Some (Sub tag child)) -> (2 <= leaves child)%nat) ->
  exists i k v, c !! i = Some (Some (Leaf k v)) /\ first_item c = Some (Leaf k v).
Proof.
  induction c as [|s c IH]; intros Hsum Hsub; [discriminate|].
  destruct s as [[k v|tag child]|].
  - exists 0%nat, k, v. split; reflexivity.
  - specialize (Hsub 0%nat tag child eq_refl).
    change (sum_list (slot_leaves <$> Some (Sub tag child) :: c))
      with (leaves child + sum_list (slot_leaves <$> c))%nat in Hsum. lia.
  - destruct IH as (i & k & v & Hi & Hf).
    + exact Hsum.
    + intros i tag child Hi. exact (Hsub (S i) tag child Hi).
    + exists (S i), k, v. split; [exact Hi|exact Hf].
Qed.

Lemma del_loop_wf (fuel : nat) :
  forall lvl path current key item running current' l,
    length path = lvl ->
    wf path current ->
    stops_at_leaf lvl current key ->
    del_loop fuel lvl current key = Return (item, running) (current', l) ->
    wf path current' /\ S (leaves current') = leaves current /\
    (running = true ->
       l = lvl /\ leaves current' = 1%nat /\
       exists k v, item = Some (Leaf k v) /\ key_path k lvl = path) /\
    (running = false -> leaves current' <> 1%nat).
Proof.
  induction fuel as [|fuel IH];
    intros lvl path [c n] key item running current' l Hlen Hwf Hstop Hdel;
    [discriminate|].
  inversion Hwf as [? ? ? Hc Hn Hent]; subst path0 c0 n0.
  rewrite leaves_unfold in Hn.
  cbn [del_loop cells node_count] in Hdel. cbv zeta in Hdel.
  set (pos := hash lvl key) in *.
  assert (Hpos : (pos < length c)%nat) by (rewrite Hc; apply hash_lt).
  inversion Hstop as [? ? ? v Hs|? ? ? p child Hs Hp Hbelow]; subst; cbn [cells] in Hs;
    fold pos in Hs; rewrite Hs in Hdel; cbn [entry_key] in Hdel.
  - (* the leaf of the key: it is cleared *)
    rewrite String.eqb_refl in Hdel. injection Hdel as <- <- <- <-.
    pose proof (sum_list_insert slot_leaves c pos _ None Hs) as Hsum.
    cbn [slot_leaves] in Hsum.
    assert (Hent' : forall i e, <[pos := None]> c !! i = Some (Some e) -> wf_entry path i e).
    { intros i e Hi. apply list_lookup_insert_Some in Hi as [(_ & Hi2 & _)|(_ & Hi)];
        [discriminate|eauto]. }
    split; [|split; [|split]].
    + constructor; [now rewrite length_insert|rewrite leaves_unfold; lia|exact Hent'].
    + rewrite !leaves_unfold. lia.
    + intros Hrun. apply Z.eqb_eq in Hrun.
      assert (Hone : sum_list (slot_leaves <$> <[pos := None]> c) = 1%nat) by lia.
      split; [reflexivity|]. split; [rewrite leaves_unfold; exact Hone|].
      destruct (first_item_single _ Hone) as (i & k & v' & Hi & Hf).
      { intros i tag child Hi. specialize (Hent' i _ Hi). now inversion Hent'. }
      exists k, v'. split; [exact Hf|].
      specialize (Hent' i _ Hi). inversion Hent' as [? ? ? ? Hk|]; subst.
      now apply key_path_step in Hk.
    + intros Hrun. apply Z.eqb_neq in Hrun. rewrite leaves_unfold. lia.
  - (* a pointer: the walk goes on below, then the node is popped *)
    assert (Hneq : String.eqb p key = false) by now apply String.eqb_neq.
    rewrite Hneq in Hdel.
    pose proof (Hent pos _ Hs) as Hsub. inversion Hsub as [|? ? ? ? Hge Hwfc]; subst.
    destruct (del_loop fuel (S (length path)) child key)
      as [[item0 running0] [child' l0]|ex [child' l0]|] eqn:Hrec; try discriminate.
    destruct (IH (S (length path)) (path ++ [pos])%list child key item0 running0 child' l0)
      as (Hwf' & Hl' & Hrun1 & Hrun0);
      [rewrite length_app; cbn; lia|assumption|assumption|assumption|].
    pose proof (sum_list_lookup_le slot_leaves c pos _ Hs) as Hle.
    cbn [slot_leaves] in Hle.
    destruct running0.
    + (* the second loop is running: the item is written over the pointer *)
      destruct (Hrun1 eq_refl) as (-> & Hone & k & v & -> & Hk).
      replace (S (length path) - 1)%nat with (length path) in Hdel by lia.
      pose proof (key_path_step k path pos Hk) as [Hk' Hh].
      cbn [entry_key] in Hdel. rewrite Hh in Hdel. unfold array_set in Hdel.
      rewrite length_insert in Hdel. destruct (decide (pos < length c)%nat); [|lia].
      rewrite list_insert_insert_eq in Hdel. injection Hdel as <- <- <- <-.
      pose proof (sum_list_insert slot_leaves c pos _ (Some (Leaf k v)) Hs) as Hsum.
      cbn [slot_leaves] in Hsum.
      split; [|split; [|split]].
      * constructor; [now rewrite length_insert|rewrite leaves_unfold; lia|].
        intros i e Hi. apply list_lookup_insert_Some in Hi as [(Hi1 & Hi2 & _)|(_ & Hi)].
        -- subst i. injection Hi2 as <-. constructor. exact Hk.
        -- eauto.
      * rewrite !leaves_unfold. lia.
      * intros Hrun. apply Z.eqb_eq in Hrun.
        split; [reflexivity|]. split; [rewrite leaves_unfold; lia|].
        exists k, v. split; [reflexivity|exact Hk'].
      * intros Hrun. apply Z.eqb_neq in Hrun. rewrite leaves_unfold. lia.
    + (* the second loop has ended *)
      injection Hdel as <- <- <- <-.
      specialize (Hrun0 eq_refl).
      pose proof (sum_list_insert slot_leaves c pos _ (Some (Sub p child')) Hs) as Hsum.
      cbn [slot_leaves] in Hsum.
      split; [|split; [|split]].
      * constructor; [now rewrite length_insert|rewrite leaves_unfold; lia|].
        intros i e Hi. apply list_lookup_insert_Some in Hi as [(Hi1 & Hi2 & _)|(_ & Hi)].
        -- subst i. injection Hi2 as <-. constructor; [lia|assumption].
        -- eauto.
      * rewrite !leaves_unfold. lia.
      * discriminate.
      * intros _. rewrite leaves_unfold. lia.
Qed.

(** *** The tables built by sets and deletes *)

Lemma setitem_wf (fuel : nat) (t t' : InfiniteHashTable) (key : string) (value : Z) :
  wf [] (table t) ->
  setitem fuel t key value = Return tt t' ->
  wf [] (table t').
Proof.
  unfold setitem. intros Hwf Hset.
  destruct (set_loop fuel 0 (table t) (hash 0 key) key value)
    as [[] [a l]|ex [a l]|] eqn:Hloop; try discriminate.
  injection Hset as <-. cbn [table].
  now destruct (set_loop_wf fuel 0 [] (table t) key value a l eq_refl eq_refl Hwf Hloop).
Qed.

Lemma delitem_wf (t t' : InfiniteHashTable) (key : string) :
  wf [] (table t) ->
  stops_at_leaf 0 (table t) key ->
  delitem t key = Return tt t' ->
  wf [] (table t').
Proof.
  unfold delitem. intros Hwf Hstop Hdel.
  destruct (del_loop (depth (table t)) 0 (table t) key)
    as [[item running] [a l]|ex [a l]|] eqn:Hloop; try discriminate.
  injection Hdel as <-. cbn [table].
  now destruct (del_loop_wf _ 0 [] (table t) key item running a l eq_refl Hwf Hstop Hloop).
Qed.

Lemma built_wf (t : InfiniteHashTable) : built t -> wf [] (table t).
Proof.
  induction 1 as [|t fuel key value t' _ IH Hset|t key t' _ IH Hstop Hdel].
  - apply wf_init.
  - eapply setitem_wf; eauto.
  - eapply delitem_wf; eauto.
Qed.

(** C9, as the code has it: in every table that completed sets, and
    completed deletes of keys found at their leaf, have built from a new
    table, the counter of each node is the number of (key, value) leaves in
    the subtree of the node. *)
Theorem counters_count_subtree_leaves (t : InfiniteHashTable) :
  built t -> counters_count_leaves (table t).
Proof. intros H. apply wf_counters, built_wf, H. Qed.

(** The delete of a key found at its leaf completes. *)
Lemma del_loop_returns (fuel : nat) :
  forall lvl path current key,
    length path = lvl ->
    wf path current ->
    stops_at_leaf lvl current key ->
    (depth current <= fuel)%nat ->
    exists item running current' l,
      del_loop fuel lvl current key = Return (item, running) (current', l).
Proof.
  induction fuel as [|fuel IH]; intros lvl path [c n] key Hlen Hwf Hstop Hfuel.
  - cbn [depth] in Hfuel. lia.
  - inversion Hwf as [? ? ? Hc Hn Hent]; subst path0 c0 n0.
    cbn [del_loop cells node_count]. cbv zeta.
    set (pos := hash lvl key) in *.
    assert (Hpos : (pos < length c)%nat) by (rewrite Hc; apply hash_lt).
    inversion Hstop as [? ? ? v Hs|? ? ? p child Hs Hp Hbelow]; subst; cbn [cells] in Hs;
      fold pos in Hs; rewrite Hs; cbn [entry_key].
    + rewrite String.eqb_refl. eauto.
    + assert (Hneq : String.eqb p key = false) by now apply String.eqb_neq.
      rewrite Hneq.
      pose proof (Hent pos _ Hs) as Hsub. inversion Hsub as [|? ? ? ? Hge Hwfc]; subst.
      pose proof (depth_child c n pos p child Hs) as Hd.
      destruct (IH (S (length path)) (path ++ [pos])%list child key)
        as (item & running & child' & l & Hrec);
        [rewrite length_app; cbn; lia|assumption|assumption|lia|].
      rewrite Hrec.
      destruct (del_loop_wf fuel (S (length path)) (path ++ [pos])%list child key
                  item running child' l) as (_ & _ & Hrun1 & _);
        [rewrite length_app; cbn; lia|assumption|assumption|assumption|].
      destruct running; [|eauto].
      destruct (Hrun1 eq_refl) as (-> & _ & k & v & -> & Hk).
      unfold array_set. rewrite length_insert.
      destruct (decide (hash (S (length path) - 1) (entry_key (Leaf k v)) < length c)%nat)
        as [|Hn']; [eauto|].
      exfalso. apply Hn'. rewrite Hc. apply hash_lt.
Qed.

Lemma delitem_returns (t : InfiniteHashTable) (key : string) :
  built t ->
  stops_at_leaf 0 (table t) key ->
  exists t', delitem t key = Return tt t'.
Proof.
  intros Hb Hstop. unfold delitem.
  destruct (del_loop_returns (depth (table t)) 0 [] (table t) key eq_refl
              (built_wf t Hb) Hstop (Nat.le_refl _))
    as (item & running & a & l & ->).
  eauto.
Qed.

(** In a table built by completed sets and deletes, no node below the root
    is left with a single leaf: the collapse has moved such a leaf up. *)
Lemma built_nodes_keep_two_leaves (t : InfiniteHashTable) (i : nat) (tag : string)
    (child : ArrayR) (path : list nat) (b : ArrayR) :
  built t ->
  node_at (table t) path = Some b ->
  cells b !! i = Some (Some (Sub tag child)) ->
  (2 <= leaves child)%nat.
Proof.
  intros Hb Hat Hs. apply built_wf in Hb.
  apply (wf_node_at path [] _ b Hb) in Hat.
  inversion Hat as [? c n _ _ Hent]; subst. cbn [cells] in Hs.
  specialize (Hent i _ Hs). now inversion Hent.
Qed.

Lemma built_table_ab : built table_ab.
Proof.
  eapply (built_set _ 10 "ab" 2); [eapply (built_set _ 10 "a" 1); [apply built_init|run]|run].
Qed.

Lemma counters_count_subtree_leaves_witness :
  built table_ab /\ counters_count_leaves (table table_ab).
Proof.
  split; [exact built_table_ab|].
  apply (counters_count_subtree_leaves table_ab). exact built_table_ab.
Defined.

(** C9, as stated, fails: after the completed sets of ["a"] and ["ab"] the
    root has one non-empty slot, the pointer to the node of the two leaves,
    and its counter is 2. *)
Lemma counter_is_not_occupied_slots :
  set_all [("a", 1); ("ab", 2)] init = Return tt table_ab /\
  occupied_slots (table table_ab) = 1%nat /\
  node_count (table table_ab) = 2.
Proof. run_all. Qed.

End InfiniteHashTableProofs.

(** * Properties of linear probing and of the nested table *)

Module LinearProbeProofs.

Import LinearProbe LinearProbeSpec.

Section Probe.

Context {A : Type}.
Implicit Types a : list (option (string * A)).

Lemma probe_lookup_found n : forall a pos k p,
  probe_loop n a pos k false = Ok p -> exists x, a !! p = Some (Some (k, x)).
Proof.
  induction n as [|n IH]; intros a pos k p H; cbn in H; [discriminate|].
  destruct (a !! pos) as [[[k0 x]|]|] eqn:Hs; try discriminate.
  destruct (String.eqb k0 k) eqn:Hk.
  - injection H as <-. apply String.eqb_eq in Hk as ->. eauto.
  - eauto.
Qed.

Lemma probe_insert_slot n : forall a pos k p,
  probe_loop n a pos k true = Ok p ->
  a !! p = Some None \/ exists x, a !! p = Some (Some (k, x)).
Proof.
  induction n as [|n IH]; intros a pos k p H; cbn in H; [discriminate|].
  destruct (a !! pos) as [[[k0 x]|]|] eqn:Hs; try discriminate.
  - destruct (String.eqb k0 k) eqn:Hk.
    + injection H as <-. apply String.eqb_eq in Hk as ->. eauto.
    + eauto.
  - injection H as <-. auto.
Qed.

(** A write into an empty slot leaves every successful lookup probe as it
    was. *)
Lemma probe_frame n : forall a pos k p i y,
  a !! p = Some None ->
  probe_loop n a pos k false = Ok i ->
  probe_loop n (<[p := y]> a) pos k false = Ok i.
Proof.
  induction n as [|n IH]; intros a pos k p i y Hp H; cbn in *; [discriminate|].
  destruct (a !! pos) as [[[k0 x]|]|] eqn:Hs; try discriminate.
  assert (Hne : p <> pos) by congruence.
  rewrite list_lookup_insert_ne, Hs by exact Hne.
  destruct (String.eqb k0 k); [exact H|].
  rewrite length_insert. eauto.
Qed.

(** A write over a slot that keeps its key changes no probe. *)
Lemma probe_overwrite n : forall a pos k' p k x y b,
  a !! p = Some (Some (k, x)) ->
  probe_loop n (<[p := Some (k, y)]> a) pos k' b = probe_loop n a pos k' b.
Proof.
  induction n as [|n IH]; intros a pos k' p k x y b Hp; cbn; [reflexivity|].
  rewrite length_insert.
  destruct (decide (p = pos)) as [->|Hne].
  - rewrite list_lookup_insert_eq by (eapply lookup_lt_Some; eauto).
    rewrite Hp. destruct (String.eqb k k'); [reflexivity|]. eauto.
  - rewrite list_lookup_insert_ne by exact Hne.
    destruct (a !! pos) as [[[k0 x0]|]|]; try reflexivity.
    destruct (String.eqb k0 k'); [reflexivity|]. eauto.
Qed.

(** After the write at the position of the insertion probe, the lookup
    probe ends there. *)
Lemma probe_after_write n : forall a pos k p y,
  probe_loop n a pos k true = Ok p ->
  probe_loop n (<[p := Some (k, y)]> a) pos k false = Ok p.
Proof.
  induction n as [|n IH]; intros a pos k p y H; cbn in *; [discriminate|].
  rewrite length_insert.
  destruct (a !! pos) as [[[k0 x]|]|] eqn:Hs; try discriminate.
  - destruct (String.eqb k0 k) eqn:Hk.
    + injection H as <-.
      rewrite list_lookup_insert_eq by (eapply lookup_lt_Some; eauto).
      now rewrite String.eqb_refl.
    + assert (Hne : p <> pos).
      { intros ->. apply probe_insert_slot in H as [H|[x' H]]; [congruence|].
        rewrite Hs in H. injection H as -> _. now rewrite String.eqb_refl in Hk. }
      rewrite list_lookup_insert_ne, Hs, Hk by exact Hne. eauto.
  - injection H as <-.
    rewrite list_lookup_insert_eq by (eapply lookup_lt_Some; eauto).
    now rewrite String.eqb_refl.
Qed.

(** A lookup probe and an insertion probe that find the key agree. *)
Lemma probe_lookup_insert n : forall a pos k p,
  probe_loop n a pos k false = Ok p -> probe_loop n a pos k true = Ok p.
Proof.
  induction n as [|n IH]; intros a pos k p H; cbn in *; [discriminate|].
  destruct (a !! pos) as [[[k0 x]|]|] eqn:Hs; try discriminate.
  destruct (String.eqb k0 k); [exact H|]. eauto.
Qed.

(** An insertion probe that ends at the key is what the lookup probe
    gives; one that ends at an empty slot means the lookup probe fails. *)
Lemma probe_insert_lookup n : forall a pos k p,
  probe_loop n a pos k true = Ok p ->
  (exists x, a !! p = Some (Some (k, x))) ->
  probe_loop n a pos k false = Ok p.
Proof.
  induction n as [|n IH]; intros a pos k p H Hx; cbn in *; [discriminate|].
  destruct (a !! pos) as [[[k0 x]|]|] eqn:Hs; try discriminate.
  - destruct (String.eqb k0 k); [exact H|]. eauto.
  - injection H as <-. destruct Hx as [x Hx]. congruence.
Qed.

Lemma probe_insert_empty n : forall a pos k p,
  probe_loop n a pos k true = Ok p ->
  a !! p = Some None ->
  exists e, probe_loop n a pos k false = Error e.
Proof.
  induction n as [|n IH]; intros a pos k p H Hp; cbn in *; [discriminate|].
  destruct (a !! pos) as [[[k0 x]|]|] eqn:Hs; try discriminate.
  - destruct (String.eqb k0 k) eqn:Hk.
    + injection H as <-. congruence.
    + eauto.
  - eauto.
Qed.

End Probe.

Section Table.

(** The hash bound to the table reads only its capacity. *)
Variable hash : LinearProbeTable -> string -> result nat.
Hypothesis hash_size : forall t t' k,
  table_size t = table_size t' -> hash t k = hash t' k.

Local Abbreviation lookup := (lookup hash).
Local Abbreviation inv := (inv hash).
Local Abbreviation set_ok := (set_ok hash).

Lemma lookup_Some (t : LinearProbeTable) (k : string) (v : Z) :
  inv t -> (lookup t k = Some v <-> exists i, array t !! i = Some (Some (k, v))).
Proof.
  intros Hinv. unfold lookup. split.
  - destruct (_linear_probe hash t k false) as [p|] eqn:Hp; [|discriminate].
    unfold _linear_probe in Hp. destruct (hash t k); [|discriminate].
    apply probe_lookup_found in Hp as [x Hx]. rewrite Hx. intros [= ->]. eauto.
  - intros [i Hi]. rewrite (Hinv i k v Hi), Hi. reflexivity.
Qed.

Lemma lookup_unique (t : LinearProbeTable) (k : string) (i j : nat) (v w : Z) :
  inv t ->
  array t !! i = Some (Some (k, v)) -> array t !! j = Some (Some (k, w)) -> i = j.
Proof. intros Hinv Hi Hj. apply Hinv in Hi, Hj. congruence. Qed.

Lemma inv_empty (sizes : list Z) (idx : nat) (n : Z) (m : nat) :
  inv {| TABLE_SIZES := sizes; size_index := idx; count := n; array := replicate m None |}.
Proof. intros i k v H. apply lookup_replicate in H as [H _]. discriminate. Qed.

Lemma lookup_empty (sizes : list Z) (idx : nat) (n : Z) (m : nat) (k : string) :
  lookup {| TABLE_SIZES := sizes; size_index := idx; count := n; array := replicate m None |} k
  = None.
Proof.
  destruct (lookup _ k) as [v|] eqn:H; [|reflexivity].
  apply lookup_Some in H as [i H]; [|apply inv_empty].
  apply lookup_replicate in H as [H _]. discriminate.
Qed.

Lemma write_spec (t t' : LinearProbeTable) (k : string) (v : Z) :
  inv t ->
  write hash t k v = Return tt t' ->
  inv t' /\ table_size t' = table_size t /\
  TABLE_SIZES t' = TABLE_SIZES t /\ size_index t' = size_index t /\
  forall k', lookup t' k' = if String.eqb k' k then Some v else lookup t k'.
Proof.
  intros Hinv Hw. unfold write in Hw.
  destruct (_linear_probe hash t k true) as [p|] eqn:Hp; [|discriminate].
  destruct (array t !! p) as [old|] eqn:Hold; [|discriminate].
  injection Hw as <-.
  set (t' := {| TABLE_SIZES := TABLE_SIZES t; size_index := size_index t;
                count := _; array := <[p := Some (k, v)]> (array t) |}).
  assert (Hsize : table_size t' = table_size t)
    by (unfold table_size, t'; cbn; apply length_insert).
  assert (Hprobe : forall k0 b, _linear_probe hash t' k0 b =
            match hash t k0 with
            | Ok pos => probe_loop (table_size t) (<[p := Some (k, v)]> (array t)) pos k0 b
            | Error e => Error e
            end).
  { intros k0 b. unfold _linear_probe. rewrite (hash_size t' t k0 Hsize), Hsize.
    reflexivity. }
  unfold _linear_probe in Hp. destruct (hash t k) as [pos|] eqn:Hh; [|discriminate].
  assert (Hk : _linear_probe hash t' k false = Ok p).
  { rewrite Hprobe, Hh. now apply probe_after_write. }
  assert (Hframe : forall i k0 v0,
            i <> p -> array t !! i = Some (Some (k0, v0)) ->
            _linear_probe hash t' k0 false = Ok i).
  { intros i k0 v0 Hne Hi. specialize (Hinv i k0 v0 Hi).
    rewrite Hprobe. unfold _linear_probe in Hinv.
    destruct (hash t k0) as [pos0|]; [|discriminate].
    destruct (probe_insert_slot _ _ _ _ _ Hp) as [He|[x Hx]].
    - now apply probe_frame.
    - erewrite probe_overwrite by exact Hx. exact Hinv. }
  assert (Hinv' : inv t').
  { intros i k0 v0 Hi. unfold t' in Hi; cbn [array] in Hi.
    apply list_lookup_insert_Some in Hi as [(<- & Heq & _)|(Hne & Hi)].
    - injection Heq as <- <-. exact Hk.
    - eapply Hframe; eauto. }
  split; [exact Hinv'|]. split; [exact Hsize|]. split; [reflexivity|].
  split; [reflexivity|].
  intros k'. destruct (String.eqb k' k) eqn:Hkk.
  - apply String.eqb_eq in Hkk as ->. apply lookup_Some; [exact Hinv'|].
    exists p. unfold t'; cbn [array]. apply list_lookup_insert_eq.
    eapply lookup_lt_Some; eauto.
  - apply String.eqb_neq in Hkk. apply option_eq. intros w.
    rewrite !lookup_Some by assumption. unfold t'; cbn [array].
    split; intros [i Hi].
    + apply list_lookup_insert_Some in Hi as [(_ & Heq & _)|(_ & Hi)]; [congruence|eauto].
    + exists i. rewrite list_lookup_insert_ne; [exact Hi|].
      intros <-. destruct (probe_insert_slot _ _ _ _ _ Hp) as [He|[x Hx]]; congruence.
Qed.

Lemma overridden_absent (items : list (option (string * Z))) (k : string) :
  (forall j v, items !! j <> Some (Some (k, v))) ->
  forall before, overridden items k before = before.
Proof.
  induction items as [|[[k0 v0]|] items IH]; intros Habs before; cbn; [reflexivity| |].
  - destruct (String.eqb k k0) eqn:Hk.
    + apply String.eqb_eq in Hk as ->. now destruct (Habs 0%nat v0).
    + apply IH. intros j v. exact (Habs (S j) v).
  - apply IH. intros j v. exact (Habs (S j) v).
Qed.

Lemma overridden_present (items : list (option (string * Z))) (k : string) (v : Z) :
  forall i,
    items !! i = Some (Some (k, v)) ->
    (forall j w, items !! j = Some (Some (k, w)) -> j = i) ->
    forall before, overridden items k before = Some v.
Proof.
  induction items as [|s items IH]; intros i Hi Huniq before; [destruct i; discriminate|].
  destruct i as [|i].
  - injection Hi as ->. cbn. rewrite String.eqb_refl.
    apply overridden_absent. intros j w Hj. now specialize (Huniq (S j) w Hj).
  - assert (Hrest : forall before', overridden items k before' = Some v).
    { apply (IH i Hi). intros j w Hj. specialize (Huniq (S j) w Hj). lia. }
    destruct s as [[k0 v0]|]; cbn; apply Hrest.
Qed.

Lemma overridden_array (t : LinearProbeTable) (k : string) :
  inv t -> overridden (array t) k None = lookup t k.
Proof.
  intros Hinv. destruct (lookup t k) as [v|] eqn:Hl.
  - apply lookup_Some in Hl as [i Hi]; [|exact Hinv].
    apply (overridden_present _ k v i Hi).
    intros j w Hj. eapply lookup_unique; eauto.
  - apply overridden_absent. intros j v Hj.
    assert (lookup t k = Some v) by (apply lookup_Some; eauto). congruence.
Qed.

Lemma reinsert_all_spec set (items : list (option (string * Z))) :
  set_ok set ->
  forall t t',
    inv t -> reinsert_all set items t = Return tt t' ->
    inv t' /\ forall k, lookup t' k = overridden items k (lookup t k).
Proof.
  intros Hset. induction items as [|[[k0 v0]|] items IH]; intros t t' Hinv H; cbn in H.
  - injection H as <-. auto.
  - destruct (set t k0 v0) as [[] t1|?|] eqn:Hs; try discriminate.
    destruct (Hset _ _ _ _ Hinv Hs) as [Hinv1 Hl1].
    destruct (IH _ _ Hinv1 H) as [Hinv' Hl']. split; [exact Hinv'|].
    intros k. rewrite Hl', Hl1. reflexivity.
  - eauto.
Qed.

Lemma setitem_fuel_ok (fuel : nat) : set_ok (setitem_fuel hash fuel).
Proof.
  induction fuel as [|fuel IH]; intros t k v t' Hinv H; cbn in H; [discriminate|].
  destruct (write hash t k v) as [[] t1|?|] eqn:Hw; try discriminate.
  destruct (write_spec _ _ _ _ Hinv Hw) as (Hinv1 & _ & _ & _ & Hl1).
  destruct (2 * count t1 >? Z.of_nat (table_size t1)).
  - unfold _rehash in H.
    destruct (TABLE_SIZES t1 !! S (size_index t1)) as [n|].
    + unfold new_array in H. destruct (n <=? 0); [discriminate|].
      apply (reinsert_all_spec _ _ IH) in H as [Hinv' Hl']; [|apply inv_empty].
      split; [exact Hinv'|]. intros k'.
      rewrite Hl', lookup_empty, overridden_array by exact Hinv1. apply Hl1.
    + injection H as <-. auto.
  - injection H as <-. auto.
Qed.

Lemma setitem_ok : set_ok (setitem hash).
Proof. intros t k v t'. unfold setitem. apply setitem_fuel_ok. Qed.

End Table.

(** ** The fuel of a set is enough *)

Section Fuel.

Variable hash : LinearProbeTable -> string -> result nat.

Lemma write_keeps_sizes (t t' : LinearProbeTable) (k : string) (v : Z) :
  write hash t k v = Return tt t' ->
  TABLE_SIZES t' = TABLE_SIZES t /\ size_index t' = size_index t.
Proof.
  unfold write. destruct (_linear_probe hash t k true); [|discriminate].
  destruct (array t !! _); [|discriminate]. intros [= <-]. auto.
Qed.

Lemma reinsert_all_ends (sizes : list Z) (idx : nat) set
    (items : list (option (string * Z))) :
  set_ends sizes idx set ->
  forall t,
    TABLE_SIZES t = sizes -> (idx <= size_index t)%nat ->
    reinsert_all set items t <> OutOfFuel /\
    forall t', reinsert_all set items t = Return tt t' ->
               TABLE_SIZES t' = sizes /\ (size_index t <= size_index t')%nat.
Proof.
  intros Hset. induction items as [|[[k v]|] items IH]; intros t Hs Hi; cbn.
  - split; [discriminate|]. intros t' [= <-]. auto.
  - destruct (Hset t k v Hs Hi) as [Hne Hret].
    destruct (set t k v) as [[] t1|e t1|]; [|split; discriminate|contradiction].
    destruct (Hret t1 eq_refl) as [Hs1 Hi1].
    destruct (IH t1 Hs1 ltac:(lia)) as [Hne' Hret'].
    split; [exact Hne'|]. intros t' H. destruct (Hret' t' H). split; [assumption|lia].
  - apply IH; assumption.
Qed.

Lemma nested_setitem_fuel_ends (fuel : nat) :
  forall sizes idx,
    (length sizes - idx < fuel)%nat ->
    set_ends sizes idx (setitem_fuel hash fuel).
Proof.
  induction fuel as [|fuel IH]; intros sizes idx Hf t k v Hs Hi; [lia|].
  cbn [setitem_fuel].
  destruct (write hash t k v) as [[] t1|e t1|] eqn:Hw; [|split; discriminate|].
  - destruct (write_keeps_sizes _ _ _ _ Hw) as [Hs1 Hi1].
    destruct (2 * count t1 >? Z.of_nat (table_size t1)).
    + unfold _rehash.
      destruct (TABLE_SIZES t1 !! S (size_index t1)) as [n|] eqn:Hn.
      * destruct (new_array n) as [a|e]; [|split; discriminate].
        apply lookup_lt_Some in Hn.
        match goal with
        | |- reinsert_all _ _ ?t0 <> _ /\ _ =>
            destruct (reinsert_all_ends sizes (S (size_index t1)) _ (array t1)
                        (IH sizes (S (size_index t1)) ltac:(rewrite Hs1, Hs in Hn; lia))
                        t0 ltac:(cbn; congruence) ltac:(cbn; lia)) as [Hne Hret]
        end.
        split; [exact Hne|]. intros t' H. destruct (Hret t' H) as [H1 H2].
        cbn [size_index] in H2. split; [assumption|lia].
      * split; [discriminate|]. intros t' [= <-]. split; [congruence|lia].
    + split; [discriminate|]. intros t' [= <-]. split; [congruence|lia].
  - unfold write in Hw. destruct (_linear_probe hash t k true); [|discriminate].
    destruct (array t !! _); discriminate.
Qed.

(** A set of the nested table always ends: it returns or raises. *)
Lemma nested_setitem_ends (t : LinearProbeTable) (k : string) (v : Z) :
  setitem hash t k v <> OutOfFuel.
Proof.
  unfold setitem.
  assert (Hf : (length (TABLE_SIZES t) - size_index t
                < S (length (TABLE_SIZES t) - size_index t))%nat) by lia.
  apply (nested_setitem_fuel_ends _ (TABLE_SIZES t) (size_index t) Hf t k v eq_refl
           (Nat.le_refl _)).
Qed.

End Fuel.

End LinearProbeProofs.
(** * Properties of the composite table *)

Module DoubleKeyTableProofs.

Import DoubleKeyTable DoubleKeyTableSpec.

Local Open Scope string_scope.

(** ** The probe of the outer level *)

Lemma hash2_size (t t' : LinearProbe.LinearProbeTable) (k : string) :
  LinearProbe.table_size t = LinearProbe.table_size t' -> hash2 t k = hash2 t' k.
Proof. unfold hash2. now intros ->. Qed.

Lemma probe_loop_lookup (n : nat) (t : DoubleKeyTable) (key1 key2 : string) :
  forall pos,
    probe_loop n t pos key1 key2 false =
    match LinearProbe.probe_loop n (top_level_array t) pos key1 false with
    | Ok i =>
        match top_level_array t !! i with
        | Some (Some (_, inner)) =>
            match LinearProbe._linear_probe hash2 inner key2 false with
            | Ok p2 => Return (i, p2) t
            | Error e => Raise e t
            end
        | _ => Raise KeyError t
        end
    | Error e => Raise e t
    end.
Proof.
  induction n as [|n IH]; intros pos; cbn; [reflexivity|].
  destruct (top_level_array t !! pos) as [[[k inner]|]|] eqn:Hs; try reflexivity.
  destruct (String.eqb k key1); [now rewrite Hs|apply IH].
Qed.

Lemma probe_loop_insert (n : nat) (t : DoubleKeyTable) (key1 key2 : string) :
  forall pos,
    probe_loop n t pos key1 key2 true =
    match LinearProbe.probe_loop n (top_level_array t) pos key1 true with
    | Ok i =>
        match top_level_array t !! i with
        | Some (Some (_, inner)) =>
            match LinearProbe._linear_probe hash2 inner key2 true with
            | Ok p2 => Return (i, p2) t
            | Error e => Raise e t
            end
        | Some None =>
            match LinearProbe.init (internal_sizes t) with
            | Error e => Raise e t
            | Ok new_probe_table =>
                let t' := with_slot t i (Some (key1, new_probe_table)) (count t + 1) in
                match hash2 new_probe_table key2 with
                | Error e => Raise e t'
                | Ok p2 => Return (i, p2) t'
                end
            end
        | None => Raise IndexError t
        end
    | Error e => Raise e t
    end.
Proof.
  induction n as [|n IH]; intros pos; cbn; [reflexivity|].
  destruct (top_level_array t !! pos) as [[[k inner]|]|] eqn:Hs; try reflexivity.
  - destruct (String.eqb k key1); [now rewrite Hs|apply IH].
  - now rewrite Hs.
Qed.

Lemma lookup_eq (t : DoubleKeyTable) (key1 key2 : string) :
  lookup t key1 key2 =
  match hash1 t key1 with
  | Ok pos =>
      match LinearProbe.probe_loop (table_size t) (top_level_array t) pos key1 false with
      | Ok i =>
          match top_level_array t !! i with
          | Some (Some (_, inner)) => LinearProbeSpec.lookup hash2 inner key2
          | _ => None
          end
      | Error _ => None
      end
  | Error _ => None
  end.
Proof.
  unfold lookup, _linear_probe. destruct (hash1 t key1) as [pos|]; [|reflexivity].
  rewrite probe_loop_lookup.
  destruct (LinearProbe.probe_loop _ _ pos key1 false) as [i|]; [|reflexivity].
  destruct (top_level_array t !! i) as [[[k inner]|]|] eqn:Hs; try reflexivity.
  unfold LinearProbeSpec.lookup.
  destruct (LinearProbe._linear_probe hash2 inner key2 false); [|reflexivity].
  now rewrite Hs.
Qed.

Lemma lookup_slot (t : DoubleKeyTable) (i : nat) (k : string) inner (key2 : string) :
  inv t ->
  top_level_array t !! i = Some (Some (k, inner)) ->
  lookup t k key2 = LinearProbeSpec.lookup hash2 inner key2.
Proof.
  intros Hinv Hs. rewrite lookup_eq.
  destruct (inv_found t Hinv i k inner Hs) as (pos & -> & ->). now rewrite Hs.
Qed.

Lemma lookup_absent (t : DoubleKeyTable) (key1 key2 : string) :
  (forall i inner, top_level_array t !! i <> Some (Some (key1, inner))) ->
  lookup t key1 key2 = None.
Proof.
  intros Habs. rewrite lookup_eq. destruct (hash1 t key1) as [pos|]; [|reflexivity].
  destruct (LinearProbe.probe_loop _ _ pos key1 false) as [i|] eqn:Hp; [|reflexivity].
  apply LinearProbeProofs.probe_lookup_found in Hp as [inner Hi].
  now destruct (Habs i inner).
Qed.

Lemma slot_unique (t : DoubleKeyTable) (k : string) (i j : nat) inner inner' :
  inv t ->
  top_level_array t !! i = Some (Some (k, inner)) ->
  top_level_array t !! j = Some (Some (k, inner')) ->
  i = j.
Proof.
  intros Hinv Hi Hj.
  destruct (inv_found t Hinv i k inner Hi) as (pos & Hh & Hp).
  destruct (inv_found t Hinv j k inner' Hj) as (pos' & Hh' & Hp').
  congruence.
Qed.

Lemma occupied_replicate {A : Type} (n : nat) : occupied (replicate n (@None A)) = 0%nat.
Proof. unfold occupied. induction n as [|n IH]; [reflexivity|exact IH]. Qed.

Lemma inv_new (sizes : list Z) (idx : nat) (n : nat) (isz : option (list Z)) :
  inv {| TABLE_SIZES := sizes; size_index := idx; count := 0;
         top_level_array := replicate n None; internal_sizes := isz |}.
Proof.
  split; cbn [top_level_array count].
  - intros i k inner H. apply lookup_replicate in H as [H _]. discriminate.
  - intros i k inner H. apply lookup_replicate in H as [H _]. discriminate.
  - now rewrite occupied_replicate.
Qed.

Lemma inv_init (sizes isz : option (list Z)) (t : DoubleKeyTable) :
  init sizes isz = Ok t -> inv t.
Proof.
  unfold init. destruct (default DEFAULT_TABLE_SIZES sizes !! 0%nat) as [n|]; [|discriminate].
  unfold new_array. destruct (n <=? 0)%Z; [discriminate|].
  intros [= <-]. apply inv_new.
Qed.

Lemma init_inner_empty (isz : option (list Z)) (new : LinearProbe.LinearProbeTable) :
  LinearProbe.init isz = Ok new ->
  exists sizes idx n m,
    new = {| LinearProbe.TABLE_SIZES := sizes; LinearProbe.size_index := idx;
             LinearProbe.count := n; LinearProbe.array := replicate m None |}.
Proof.
  unfold LinearProbe.init.
  destruct (default LinearProbe.DEFAULT_TABLE_SIZES isz !! 0%nat) as [n|]; [|discriminate].
  unfold new_array. destruct (n <=? 0)%Z; [discriminate|].
  intros [= <-]. eauto.
Qed.

(** ** The write of a set *)

Lemma has_key_insert_probe (t : DoubleKeyTable) (key1 : string) (pos i : nat) :
  hash1 t key1 = Ok pos ->
  LinearProbe.probe_loop (table_size t) (top_level_array t) pos key1 true = Ok i ->
  has_key t key1 = match top_level_array t !! i with
                   | Some (Some _) => true
                   | _ => false
                   end.
Proof.
  intros Hh Hp. unfold has_key. rewrite Hh.
  destruct (LinearProbeProofs.probe_insert_slot _ _ _ _ _ Hp) as [He|[x Hx]].
  - rewrite He. now destruct (LinearProbeProofs.probe_insert_empty _ _ _ _ _ Hp He) as [e ->].
  - rewrite Hx. erewrite LinearProbeProofs.probe_insert_lookup; eauto.
Qed.

(** The outer slot the insertion probe of [key1] ends at is given the
    nested table [inner'], which holds [v] under [key2] and otherwise what
    the table held under [key1]. *)
Lemma with_slot_spec (t : DoubleKeyTable) (key1 key2 : string) (v : Z)
    (pos i : nat) (inner' : LinearProbe.LinearProbeTable) :
  inv t ->
  hash1 t key1 = Ok pos ->
  LinearProbe.probe_loop (table_size t) (top_level_array t) pos key1 true = Ok i ->
  LinearProbeSpec.inv hash2 inner' ->
  (forall b, LinearProbeSpec.lookup hash2 inner' b =
             if String.eqb b key2 then Some v else lookup t key1 b) ->
  let t2 := with_slot t i (Some (key1, inner'))
              (if has_key t key1 then count t else count t + 1) in
  inv t2 /\
  (forall a b, lookup t2 a b =
               if String.eqb a key1 && String.eqb b key2 then Some v else lookup t a b) /\
  has_key t2 key1 = true.
Proof.
  intros Hinv Hh Hp Hinner Hl t2.
  set (top := top_level_array t) in *.
  set (top2 := <[i := Some (key1, inner')]> top).
  assert (Htop2 : top_level_array t2 = top2) by reflexivity.
  assert (Hsize : table_size t2 = table_size t)
    by (unfold table_size; rewrite Htop2; apply length_insert).
  assert (Hhash : forall a, hash1 t2 a = hash1 t a)
    by (intros a; unfold hash1; now rewrite Hsize).
  pose proof (LinearProbeProofs.probe_insert_slot _ _ _ _ _ Hp) as Hslot. fold top in Hslot.
  assert (Hi : (i < length top)%nat)
    by (destruct Hslot as [H|[x H]]; eapply lookup_lt_Some; eauto).
  assert (F1 : forall a pa j,
             LinearProbe.probe_loop (table_size t) top pa a false = Ok j ->
             LinearProbe.probe_loop (table_size t) top2 pa a false = Ok j).
  { intros a pa j Hj. destruct Hslot as [He|[x Hx]].
    - now apply LinearProbeProofs.probe_frame.
    - unfold top2. erewrite LinearProbeProofs.probe_overwrite by exact Hx. exact Hj. }
  assert (F2 : LinearProbe.probe_loop (table_size t) top2 pos key1 false = Ok i)
    by now apply LinearProbeProofs.probe_after_write.
  pose proof (has_key_insert_probe t key1 pos i Hh Hp) as Hhas. fold top in Hhas.
  assert (Hinv2 : inv t2).
  { split.
    - intros j k inn Hj. rewrite Htop2 in Hj. rewrite Hsize, Hhash, Htop2.
      apply list_lookup_insert_Some in Hj as [(<- & Heq & _)|(Hne & Hj)].
      + injection Heq as <- <-. eauto.
      + destruct (inv_found t Hinv j k inn Hj) as (pa & Hpa & Hj'). eauto.
    - intros j k inn Hj. rewrite Htop2 in Hj.
      apply list_lookup_insert_Some in Hj as [(<- & Heq & _)|(Hne & Hj)].
      + now injection Heq as <- <-.
      + eapply inv_inner; eauto.
    - rewrite Htop2. unfold t2, with_slot; cbn [count].
      pose proof (inv_count t Hinv) as Hc. fold top in Hc. unfold occupied in *.
      destruct Hslot as [He|[x Hx]].
      + pose proof (sum_list_insert
                      (fun s : option (string * LinearProbe.LinearProbeTable) =>
                         if s is Some _ then 1%nat else 0%nat)
                      top i _ (Some (key1, inner')) He) as Hsum.
        fold top2 in Hsum. rewrite Hhas, He. cbn beta iota in Hsum. lia.
      + pose proof (sum_list_insert
                      (fun s : option (string * LinearProbe.LinearProbeTable) =>
                         if s is Some _ then 1%nat else 0%nat)
                      top i _ (Some (key1, inner')) Hx) as Hsum.
        fold top2 in Hsum. rewrite Hhas, Hx. cbn beta iota in Hsum. lia. }
  split; [exact Hinv2|]. split.
  - intros a b. rewrite (lookup_eq t2), Hhash, Hsize, Htop2.
    destruct (String.eqb a key1) eqn:Ha; cbn [andb].
    + apply String.eqb_eq in Ha as ->. rewrite Hh, F2.
      unfold top2. rewrite list_lookup_insert_eq by exact Hi. apply Hl.
    + apply String.eqb_neq in Ha. rewrite (lookup_eq t). fold top.
      destruct (hash1 t a) as [pa|] eqn:Hpa; [|reflexivity].
      destruct (LinearProbe.probe_loop (table_size t) top pa a false) as [j|e] eqn:Hj.
      * rewrite (F1 a pa j Hj).
        assert (Hne : i <> j).
        { intros <-. apply LinearProbeProofs.probe_lookup_found in Hj as [x Hx].
          destruct Hslot as [He|[y Hy]]; congruence. }
        unfold top2. now rewrite list_lookup_insert_ne.
      * destruct (LinearProbe.probe_loop (table_size t) top2 pa a false) as [j|] eqn:Hj2;
          [|reflexivity].
        exfalso.
        pose proof Hj2 as Hfound.
        apply LinearProbeProofs.probe_lookup_found in Hfound as [x Hx].
        unfold top2 in Hx.
        apply list_lookup_insert_Some in Hx as [(_ & Heq & _)|(Hne & Hx)]; [congruence|].
        destruct (inv_found t Hinv j a x Hx) as (pa' & Hpa' & Hj').
        fold top in Hj'. congruence.
  - unfold has_key. now rewrite Hhash, Hsize, Htop2, Hh, F2.
Qed.

Lemma write_pair_spec (t t2 : DoubleKeyTable) (key1 key2 : string) (v : Z) :
  inv t ->
  write_pair t (key1, key2) v = Return tt t2 ->
  inv t2 /\ table_size t2 = table_size t /\ TABLE_SIZES t2 = TABLE_SIZES t /\
  size_index t2 = size_index t /\ internal_sizes t2 = internal_sizes t /\
  (forall a b, lookup t2 a b =
               if String.eqb a key1 && String.eqb b key2 then Some v else lookup t a b) /\
  has_key t2 key1 = true /\
  count t2 = (if has_key t key1 then count t else count t + 1).
Proof.
  intros Hinv Hw. unfold write_pair, _linear_probe in Hw. cbn [fst snd] in Hw.
  destruct (hash1 t key1) as [pos|] eqn:Hh; [|discriminate].
  rewrite probe_loop_insert in Hw.
  destruct (LinearProbe.probe_loop (table_size t) (top_level_array t) pos key1 true)
    as [i|] eqn:Hp; [|discriminate].
  pose proof (has_key_insert_probe t key1 pos i Hh Hp) as Hhas.
  pose proof (LinearProbeProofs.probe_insert_slot _ _ _ _ _ Hp) as Hslot.
  assert (Hgoal : forall inner',
             LinearProbeSpec.inv hash2 inner' ->
             (forall b, LinearProbeSpec.lookup hash2 inner' b =
                        if String.eqb b key2 then Some v else lookup t key1 b) ->
             t2 = with_slot t i (Some (key1, inner'))
                    (if has_key t key1 then count t else count t + 1) ->
             inv t2 /\ table_size t2 = table_size t /\ TABLE_SIZES t2 = TABLE_SIZES t /\
             size_index t2 = size_index t /\ internal_sizes t2 = internal_sizes t /\
             (forall a b, lookup t2 a b =
                if String.eqb a key1 && String.eqb b key2 then Some v else lookup t a b) /\
             has_key t2 key1 = true /\
             count t2 = (if has_key t key1 then count t else count t + 1)).
  { intros inner' Hinv' Hl' ->.
    destruct (with_slot_spec t key1 key2 v pos i inner' Hinv Hh Hp Hinv' Hl')
      as (H1 & H2 & H3).
    split; [exact H1|]. split; [unfold table_size; cbn; apply length_insert|].
    repeat (split; [reflexivity|]). split; [exact H2|]. split; [exact H3|reflexivity]. }
  destruct (top_level_array t !! i) as [[[k inner]|]|] eqn:Hs; [| |discriminate].
  - (* the outer key is there *)
    assert (k = key1) as -> by (destruct Hslot as [He|[x Hx]]; congruence).
    destruct (LinearProbe._linear_probe hash2 inner key2 true); [|discriminate].
    rewrite Hs, String.eqb_refl in Hw.
    destruct (LinearProbe.setitem hash2 inner key2 v) as [[] inner'|?|] eqn:Hset;
      try discriminate.
    injection Hw as <-.
    destruct (LinearProbeProofs.setitem_ok hash2 hash2_size inner key2 v inner'
                (inv_inner t Hinv i key1 inner Hs) Hset) as [Hinv' Hl'].
    apply (Hgoal inner' Hinv').
    + intros b. rewrite Hl'. now rewrite (lookup_slot t i key1 inner b Hinv Hs).
    + now rewrite Hhas.
  - (* a nested table is made for the outer key *)
    destruct (LinearProbe.init (internal_sizes t)) as [new|] eqn:Hnew; [|discriminate].
    cbv zeta in Hw. destruct (hash2 new key2); [|discriminate].
    assert (Hi : (i < length (top_level_array t))%nat) by (eapply lookup_lt_Some; eauto).
    cbn [with_slot top_level_array] in Hw.
    rewrite list_lookup_insert_eq, String.eqb_refl in Hw by exact Hi.
    destruct (LinearProbe.setitem hash2 new key2 v) as [[] inner'|?|] eqn:Hset;
      try discriminate.
    injection Hw as <-.
    destruct (init_inner_empty _ _ Hnew) as (sizes & idx & n & m & ->).
    destruct (LinearProbeProofs.setitem_ok hash2 hash2_size _ key2 v inner'
                (LinearProbeProofs.inv_empty hash2 sizes idx n m) Hset) as [Hinv' Hl'].
    apply (Hgoal inner' Hinv').
    + intros b. rewrite Hl', LinearProbeProofs.lookup_empty by exact hash2_size.
      rewrite (lookup_eq t key1 b), Hh.
      now destruct (LinearProbeProofs.probe_insert_empty _ _ _ _ _ Hp Hs) as [e ->].
    + rewrite Hhas. unfold with_slot. cbn. now rewrite list_insert_insert_eq.
Qed.

(** An outer key is in some slot or in none. *)
Lemma classic_slot (t : DoubleKeyTable) (a : string) :
  (exists i inner, top_level_array t !! i = Some (Some (a, inner))) \/
  (forall i inner, top_level_array t !! i <> Some (Some (a, inner))).
Proof.
  induction (top_level_array t) as [|s l IH].
  - right. intros i inner H. destruct i; discriminate.
  - destruct s as [[k inner]|].
    + destruct (String.eqb_spec k a) as [->|Hne].
      * left. exists 0%nat, inner. reflexivity.
      * destruct IH as [(i & inner' & Hi)|Habs].
        -- left. exists (S i), inner'. exact Hi.
        -- right. intros [|i] inner' H; [injection H as -> _; congruence|].
           exact (Habs i inner' H).
    + destruct IH as [(i & inner' & Hi)|Habs].
      * left. exists (S i), inner'. exact Hi.
      * right. intros [|i] inner' H; [discriminate|]. exact (Habs i inner' H).
Qed.

(** ** Growth *)

Lemma setitem_fuel_S (fuel : nat) (t : DoubleKeyTable) (key : string * string) (data : Z) :
  setitem_fuel (S fuel) t key data =
  match write_pair t key data with
  | Return _ t2 =>
      if 2 * len t2 >? Z.of_nat (table_size t2)
      then _rehash (setitem_fuel fuel) t2
      else Return tt t2
  | other => other
  end.
Proof. reflexivity. Qed.

(** A set on a table that the pair leaves at most half full is the write
    alone. *)
Lemma setitem_fuel_small (fuel : nat) (t t' : DoubleKeyTable) (key1 key2 : string)
    (v : Z) (M : Z) :
  inv t ->
  2 * M <= Z.of_nat (table_size t) ->
  (if has_key t key1 then count t <= M else count t + 1 <= M) ->
  setitem_fuel fuel t (key1, key2) v = Return tt t' ->
  write_pair t (key1, key2) v = Return tt t'.
Proof.
  intros Hinv HM Hc H. destruct fuel as [|fuel]; [discriminate|]. cbn [setitem_fuel] in H.
  destruct (write_pair t (key1, key2) v) as [[] t2|?|] eqn:Hw; try discriminate.
  destruct (write_pair_spec t t2 key1 key2 v Hinv Hw) as (_ & Hsize & _ & _ & _ & _ & _ & Hcount).
  unfold len in H. rewrite Hsize in H.
  destruct (2 * count t2 >? Z.of_nat (table_size t)) eqn:Hgt.
  - apply Z.gtb_lt in Hgt. destruct (has_key t key1); lia.
  - congruence.
Qed.

Lemma reinsert_inner_spec (fuel : nat) (n : nat) (M : Z) (key1 : string)
    (items : list (option (string * Z))) :
  2 * M <= Z.of_nat n ->
  forall s s',
    inv s -> table_size s = n ->
    (if has_key s key1 then count s <= M else count s + 1 <= M) ->
    reinsert_inner (setitem_fuel fuel) key1 items s = Return tt s' ->
    inv s' /\ table_size s' = n /\ size_index s' = size_index s /\ count s' <= M /\
    forall a b, lookup s' a b =
                if String.eqb a key1
                then LinearProbeSpec.overridden items b (lookup s a b)
                else lookup s a b.
Proof.
  intros HM. induction items as [|[[k2 v2]|] items IH]; intros s s' Hinv Hn Hc H; cbn in H.
  - injection H as <-. repeat (split; [auto|]); [destruct (has_key s key1); lia|].
    intros a b. now destruct (String.eqb a key1).
  - destruct (setitem_fuel fuel s (key1, k2) v2) as [[] s1|?|] eqn:Hset; try discriminate.
    apply (setitem_fuel_small fuel s s1 key1 k2 v2 M Hinv) in Hset;
      [|rewrite Hn; exact HM|exact Hc].
    destruct (write_pair_spec s s1 key1 k2 v2 Hinv Hset)
      as (Hinv1 & Hsize1 & _ & Hidx1 & _ & Hl1 & Hhas1 & Hcount1).
    destruct (IH s1 s' Hinv1) as (Hinv' & Hn' & Hidx' & Hc' & Hl'); [congruence| |exact H|].
    { rewrite Hhas1, Hcount1. destruct (has_key s key1); lia. }
    repeat (split; [auto; congruence|]).
    intros a b. rewrite Hl', Hl1. cbn [LinearProbeSpec.overridden].
    now destruct (String.eqb a key1).
  - eauto.
Qed.

Lemma reinsert_outer_spec (fuel : nat) (n : nat) (C : Z)
    (items : list (option (string * LinearProbe.LinearProbeTable))) :
  2 * C <= Z.of_nat n ->
  forall s s',
    inv s -> table_size s = n ->
    count s + Z.of_nat (occupied items) <= C ->
    reinsert_outer (setitem_fuel fuel) items s = Return tt s' ->
    inv s' /\ table_size s' = n /\ size_index s' = size_index s /\
    forall a b, lookup s' a b = overridden2 items a b (lookup s a b).
Proof.
  intros HC. induction items as [|[[k inner]|] items IH]; intros s s' Hinv Hn Hc H; cbn in H.
  - injection H as <-. auto.
  - destruct (reinsert_inner (setitem_fuel fuel) k (LinearProbe.array inner) s)
      as [[] s1|?|] eqn:Hin; try discriminate.
    change (occupied (Some (k, inner) :: items)) with (S (occupied items)) in Hc.
    destruct (reinsert_inner_spec fuel n (C - Z.of_nat (occupied items)) k _
                ltac:(lia) s s1 Hinv Hn ltac:(destruct (has_key s k); lia) Hin)
      as (Hinv1 & Hn1 & Hidx1 & Hc1 & Hl1).
    destruct (IH s1 s' Hinv1 Hn1 ltac:(lia) H) as (Hinv' & Hn' & Hidx' & Hl').
    repeat (split; [auto; congruence|]).
    intros a b. rewrite Hl', Hl1. reflexivity.
  - change (occupied (None :: items)) with (occupied items) in Hc. eauto.
Qed.

Lemma overridden2_absent items (a b : string) :
  (forall j inner, items !! j <> Some (Some (a, inner))) ->
  forall before, overridden2 items a b before = before.
Proof.
  induction items as [|[[k inner]|] items IH]; intros Habs before; cbn; [reflexivity| |].
  - destruct (String.eqb a k) eqn:Hk.
    + apply String.eqb_eq in Hk as ->. now destruct (Habs 0%nat inner).
    + apply IH. intros j inner'. exact (Habs (S j) inner').
  - apply IH. intros j inner'. exact (Habs (S j) inner').
Qed.

Lemma overridden2_present items (a b : string) inner :
  forall i,
    items !! i = Some (Some (a, inner)) ->
    (forall j inner', items !! j = Some (Some (a, inner')) -> j = i) ->
    forall before,
      overridden2 items a b before =
      LinearProbeSpec.overridden (LinearProbe.array inner) b before.
Proof.
  induction items as [|s items IH]; intros i Hi Huniq before; [destruct i; discriminate|].
  destruct i as [|i].
  - injection Hi as ->. cbn. rewrite String.eqb_refl.
    apply overridden2_absent. intros j inner' Hj. now specialize (Huniq (S j) inner' Hj).
  - assert (Hrest : forall before',
               overridden2 items a b before' =
               LinearProbeSpec.overridden (LinearProbe.array inner) b before').
    { apply (IH i Hi). intros j inner' Hj. specialize (Huniq (S j) inner' Hj). lia. }
    destruct s as [[k0 inner0]|]; cbn; [|apply Hrest].
    destruct (String.eqb a k0) eqn:Hk; [|apply Hrest].
    apply String.eqb_eq in Hk as <-. specialize (Huniq 0%nat inner0 eq_refl). lia.
Qed.

Lemma overridden2_table (t : DoubleKeyTable) (a b : string) :
  inv t -> overridden2 (top_level_array t) a b None = lookup t a b.
Proof.
  intros Hinv.
  destruct (classic_slot t a) as [(i & inner & Hi)|Habs].
  - rewrite (overridden2_present _ a b inner i Hi).
    + rewrite (lookup_slot t i a inner b Hinv Hi).
      apply LinearProbeProofs.overridden_array.
      eapply inv_inner; eauto.
    + intros j inner' Hj. eapply slot_unique; eauto.
  - rewrite overridden2_absent by exact Habs. symmetry. now apply lookup_absent.
Qed.

(** ** The fuel of a set is enough *)

Lemma probe_loop_ends (n : nat) (t : DoubleKeyTable) (key1 key2 : string) (b : bool) :
  forall pos, probe_loop n t pos key1 key2 b <> OutOfFuel.
Proof.
  induction n as [|n IH]; intros pos; cbn; [discriminate|].
  destruct (top_level_array t !! pos) as [[[k inner]|]|]; try discriminate.
  - destruct (String.eqb k key1); [|apply IH].
    destruct (LinearProbe._linear_probe hash2 inner key2 b); discriminate.
  - destruct b; [|discriminate].
    destruct (LinearProbe.init (internal_sizes t)); [|discriminate].
    destruct (hash2 _ key2); discriminate.
Qed.

Lemma probe_loop_keeps_sizes (n : nat) (t t' : DoubleKeyTable) (key1 key2 : string)
    (b : bool) (p : nat * nat) :
  forall pos,
    probe_loop n t pos key1 key2 b = Return p t' ->
    TABLE_SIZES t' = TABLE_SIZES t /\ size_index t' = size_index t.
Proof.
  induction n as [|n IH]; intros pos; cbn; [discriminate|].
  destruct (top_level_array t !! pos) as [[[k inner]|]|]; try discriminate.
  - destruct (String.eqb k key1); [|apply IH].
    destruct (LinearProbe._linear_probe hash2 inner key2 b); [|discriminate].
    intros [= _ <-]. auto.
  - destruct b; [|discriminate].
    destruct (LinearProbe.init (internal_sizes t)); [|discriminate].
    destruct (hash2 _ key2); [|discriminate]. intros [= _ <-]. auto.
Qed.

Lemma write_pair_ends (t : DoubleKeyTable) (key : string * string) (v : Z) :
  write_pair t key v <> OutOfFuel /\
  forall t', write_pair t key v = Return tt t' ->
             TABLE_SIZES t' = TABLE_SIZES t /\ size_index t' = size_index t.
Proof.
  unfold write_pair, _linear_probe.
  destruct (hash1 t key.1) as [pos|]; [|split; discriminate].
  pose proof (probe_loop_ends (table_size t) t key.1 key.2 true pos) as Hne.
  destruct (probe_loop (table_size t) t pos key.1 key.2 true) as [[p1 p2] t1|e t1|] eqn:Hp;
    [|split; discriminate|contradiction].
  destruct (probe_loop_keeps_sizes _ _ _ _ _ _ _ _ Hp) as [Hs Hi].
  destruct (top_level_array t1 !! p1) as [[[k inner]|]|]; [|split; discriminate..].
  destruct (String.eqb k key.1).
  - pose proof (LinearProbeProofs.nested_setitem_ends hash2 inner key.2 v) as Hin.
    destruct (LinearProbe.setitem hash2 inner key.2 v); [|split; discriminate|contradiction].
    split; [discriminate|]. intros t' [= <-]. cbn. auto.
  - split; [discriminate|]. intros t' [= <-]. auto.
Qed.

Lemma reinsert_inner_ends (sizes : list Z) (idx : nat) set (key1 : string)
    (items : list (option (string * Z))) :
  set_ends sizes idx set ->
  forall t,
    TABLE_SIZES t = sizes -> (idx <= size_index t)%nat ->
    reinsert_inner set key1 items t <> OutOfFuel /\
    forall t', reinsert_inner set key1 items t = Return tt t' ->
               TABLE_SIZES t' = sizes /\ (size_index t <= size_index t')%nat.
Proof.
  intros Hset. induction items as [|[[k v]|] items IH]; intros t Hs Hi; cbn.
  - split; [discriminate|]. intros t' [= <-]. auto.
  - destruct (Hset t (key1, k) v Hs Hi) as [Hne Hret].
    destruct (set t (key1, k) v) as [[] t1|e t1|]; [|split; discriminate|contradiction].
    destruct (Hret t1 eq_refl) as [Hs1 Hi1].
    destruct (IH t1 Hs1 ltac:(lia)) as [Hne' Hret'].
    split; [exact Hne'|]. intros t' H. destruct (Hret' t' H). split; [assumption|lia].
  - apply IH; assumption.
Qed.

Lemma reinsert_outer_ends (sizes : list Z) (idx : nat) set
    (items : list (option (string * LinearProbe.LinearProbeTable))) :
  set_ends sizes idx set ->
  forall t,
    TABLE_SIZES t = sizes -> (idx <= size_index t)%nat ->
    reinsert_outer set items t <> OutOfFuel /\
    forall t', reinsert_outer set items t = Return tt t' ->
               TABLE_SIZES t' = sizes /\ (size_index t <= size_index t')%nat.
Proof.
  intros Hset. induction items as [|[[k inner]|] items IH]; intros t Hs Hi; cbn.
  - split; [discriminate|]. intros t' [= <-]. auto.
  - destruct (reinsert_inner_ends sizes idx set k (LinearProbe.array inner) Hset t Hs Hi)
      as [Hne Hret].
    destruct (reinsert_inner set k (LinearProbe.array inner) t) as [[] t1|e t1|];
      [|split; discriminate|contradiction].
    destruct (Hret t1 eq_refl) as [Hs1 Hi1].
    destruct (IH t1 Hs1 ltac:(lia)) as [Hne' Hret'].
    split; [exact Hne'|]. intros t' H. destruct (Hret' t' H). split; [assumption|lia].
  - apply IH; assumption.
Qed.

Lemma setitem_fuel_ends (fuel : nat) :
  forall sizes idx,
    (length sizes - idx < fuel)%nat ->
    set_ends sizes idx (setitem_fuel fuel).
Proof.
  induction fuel as [|fuel IH]; intros sizes idx Hf t key v Hs Hi; [lia|].
  rewrite setitem_fuel_S.
  destruct (write_pair_ends t key v) as [Hne Hret].
  destruct (write_pair t key v) as [[] t1|e t1|]; [|split; discriminate|contradiction].
  destruct (Hret t1 eq_refl) as [Hs1 Hi1].
  destruct (2 * len t1 >? Z.of_nat (table_size t1)).
  - unfold _rehash. cbn [size_index TABLE_SIZES].
    destruct (S (size_index t1) =? length (TABLE_SIZES t1))%nat.
    + split; [discriminate|]. intros t' [= <-]. cbn. split; [congruence|lia].
    + destruct (TABLE_SIZES t1 !! S (size_index t1)) as [n|] eqn:Hn; [|split; discriminate].
      destruct (new_array n) as [a|e]; [|split; discriminate].
      apply lookup_lt_Some in Hn.
      match goal with
      | |- reinsert_outer _ _ ?t0 <> _ /\ _ =>
          destruct (reinsert_outer_ends sizes (S (size_index t1)) _ (top_level_array t1)
                      (IH sizes (S (size_index t1)) ltac:(rewrite Hs1, Hs in Hn; lia))
                      t0 ltac:(cbn; congruence) ltac:(cbn; lia)) as [Hne' Hret']
      end.
      split; [exact Hne'|]. intros t' H. destruct (Hret' t' H) as [H1 H2].
      cbn [size_index] in H2. split; [assumption|lia].
  - split; [discriminate|]. intros t' [= <-]. split; [congruence|lia].
Qed.

(** [__setitem__] always ends: it returns or raises. *)
Lemma setitem_ends (t : DoubleKeyTable) (key : string * string) (v : Z) :
  setitem t key v <> OutOfFuel.
Proof.
  unfold setitem.
  assert (Hf : (length (TABLE_SIZES t) - 0 < S (S (length (TABLE_SIZES t))))%nat) by lia.
  apply (setitem_fuel_ends _ (TABLE_SIZES t) 0 Hf t key v eq_refl (Nat.le_0_l _)).
Qed.

(** Growth on a well-formed table: when the write of a set leaves the
    outer count above half the capacity, the capacity sequence has a next
    capacity [n] and the count is at most half of [n], the set that returns
    has adopted [n], and every key pair is located by the lookup probe with
    the value it had, the pair just set with its new value. *)
Theorem growth_adopts_next_capacity (t t2 t' : DoubleKeyTable) (key1 key2 : string)
    (v : Z) (n : Z) :
  inv t ->
  write_pair t (key1, key2) v = Return tt t2 ->
  2 * len t2 > Z.of_nat (table_size t2) ->
  TABLE_SIZES t !! S (size_index t) = Some n ->
  2 * len t2 <= n ->
  setitem t (key1, key2) v = Return tt t' ->
  Z.of_nat (table_size t') = n /\ size_index t' = S (size_index t) /\ inv t' /\
  forall a b, lookup t' a b =
              if String.eqb a key1 && String.eqb b key2 then Some v else lookup t a b.
Proof.
  intros Hinv Hw Hgt Hnext Hn Hset.
  destruct (write_pair_spec t t2 key1 key2 v Hinv Hw)
    as (Hinv2 & Hsize2 & Hsizes2 & Hidx2 & _ & Hl2 & _ & _).
  unfold setitem in Hset. rewrite setitem_fuel_S, Hw in Hset.
  destruct (2 * len t2 >? Z.of_nat (table_size t2)) eqn:Hgtb;
    [|rewrite Z.gtb_ltb in Hgtb; apply Z.ltb_ge in Hgtb; lia].
  unfold _rehash in Hset. cbn [size_index TABLE_SIZES] in Hset.
  rewrite Hsizes2, Hidx2 in Hset.
  assert (Hlt : (S (size_index t) < length (TABLE_SIZES t))%nat)
    by (eapply lookup_lt_Some; eauto).
  destruct (S (size_index t) =? length (TABLE_SIZES t))%nat eqn:Heq;
    [apply Nat.eqb_eq in Heq; lia|].
  rewrite Hnext in Hset. unfold new_array in Hset.
  destruct (n <=? 0)%Z eqn:Hn0; [apply Z.leb_le in Hn0; unfold len in *; lia|].
  match type of Hset with
  | reinsert_outer _ _ ?t0 = _ =>
      destruct (reinsert_outer_spec _ (Z.to_nat n) (count t2) (top_level_array t2)
                  ltac:(unfold len in *; lia) t0 t'
                  (inv_new _ _ _ _)
                  ltac:(unfold table_size; cbn; apply length_replicate)
                  ltac:(cbn [count]; rewrite (inv_count t2 Hinv2); lia)
                  Hset) as (Hinv' & Hn' & Hidx' & Hl')
  end.
  split; [rewrite Hn'; unfold len in *; lia|]. split; [exact Hidx'|].
  split; [exact Hinv'|].
  intros a b. rewrite Hl', lookup_absent.
  - rewrite overridden2_table by exact Hinv2. apply Hl2.
  - intros i inner H. cbn [top_level_array] in H.
    apply lookup_replicate in H as [H _]. discriminate.
Qed.

Lemma inv_two_keys : inv two_keys.
Proof.
  assert (H0 : inv (table_of (match init None None with
                              | Ok t => Return tt t
                              | Error _ => OutOfFuel
                              end))).
  { apply (inv_init None None). run. }
  eapply (write_pair_spec _ _ "a" "x" 1) in H0 as (H1 & _); [|run].
  eapply (write_pair_spec _ _ "b" "x" 2) in H1 as (H2 & _); [|run].
  exact H2.
Qed.

Lemma growth_adopts_next_capacity_witness :
  inv two_keys /\
  write_pair two_keys ("c", "x") 3 = Return tt three_keys_written /\
  2 * len three_keys_written > Z.of_nat (table_size three_keys_written) /\
  TABLE_SIZES two_keys !! S (size_index two_keys) = Some 13 /\
  2 * len three_keys_written <= 13 /\
  setitem two_keys ("c", "x") 3 = Return tt three_keys /\
  (Z.of_nat (table_size three_keys) = 13 /\
   size_index three_keys = S (size_index two_keys) /\ inv three_keys /\
   forall a b, lookup three_keys a b =
               if String.eqb a "c" && String.eqb b "x" then Some 3
               else lookup two_keys a b).
Proof.
  split; [exact inv_two_keys|]. split; [run|]. split; [run|]. split; [run|].
  split; [vm_compute; discriminate|]. split; [run|].
  apply (growth_adopts_next_capacity two_keys three_keys_written three_keys "c" "x" 3 13).
  - exact inv_two_keys.
  - run.
  - run.
  - run.
  - vm_compute; discriminate.
  - run.
Defined.

(** C4: with the default capacities the third outer key makes the table
    grow from capacity 5 to 13, the next capacity, and the triples stored
    before are still located by the lookup probe; but the read of each of
    them raises [TypeError]: none is retrievable.  And once a delete has
    left a stale copy of the outer key ["f"], the growth sets the stale pair
    after the live one: [("f", "x")] is located with 9 before the growth and
    with 2 after it. *)
Theorem growth_counterexample :
  (exists t0 t2 t3,
      init None None = Ok t0 /\
      set_all [("a", "x", 1); ("b", "x", 2)] t0 = Return tt t2 /\
      setitem t2 ("c", "x") 3 = Return tt t3 /\
      table_size t2 = 5%nat /\ table_size t3 = 13%nat /\
      lookup t2 "a" "x" = Some 1 /\ lookup t3 "a" "x" = Some 1 /\
      lookup t2 "b" "x" = Some 2 /\ lookup t3 "b" "x" = Some 2 /\
      getitem t3 ("a", "x") = Raise TypeError t3 /\
      getitem t3 ("b", "x") = Raise TypeError t3) /\
  (exists t0 t1 t2 t3,
      init None None = Ok t0 /\
      set_all [("a", "x", 1); ("f", "x", 2)] t0 = Return tt t1 /\
      delitem 5 t1 ("a", "x") = Return tt t2 /\
      setitem t2 ("f", "x") 9 = Return tt t3 /\
      keys t3 = ["f"; "f"] /\ lookup t3 "f" "x" = Some 9 /\
      exists t4,
        setitem t3 ("b", "x") 5 = Return tt t4 /\
        table_size t3 = 5%nat /\ table_size t4 = 13%nat /\
        lookup t4 "f" "x" = Some 2).
Proof.
  split; [do 3 eexists; run_all|].
  do 4 eexists. do 6 (split; [run|]). eexists. run_all.
Qed.

(** [__getitem__] never returns: the probe raises, or the pair of the
    outer slot is subscripted by the string [key2]. *)
Lemma getitem_never_returns (t : DoubleKeyTable) (key : string * string) :
  exists e t', getitem t key = Raise e t'.
Proof.
  unfold getitem.
  assert (Hp : forall n pos,
             (exists p t', probe_loop n t pos key.1 key.2 false = Return p t' /\ t' = t /\
                 exists item, top_level_array t !! p.1 = Some (Some item)) \/
             (exists e t', probe_loop n t pos key.1 key.2 false = Raise e t')).
  { induction n as [|n IH]; intros pos; cbn [probe_loop]; [right; eauto|].
    destruct (top_level_array t !! pos) as [[[k inner]|]|] eqn:Hs; [|right; eauto..].
    destruct (String.eqb k key.1); [|apply IH].
    destruct (LinearProbe._linear_probe hash2 inner key.2 false); [|right; eauto].
    left. do 2 eexists. split; [reflexivity|]. split; [reflexivity|]. cbn. eauto. }
  unfold _linear_probe. destruct (hash1 t key.1) as [pos|e]; [|eauto].
  destruct (Hp (table_size t) pos) as [(p & t' & -> & -> & item & Hitem)|(e & t' & ->)];
    [|eauto].
  destruct p as [p1 p2]. cbn in Hitem. rewrite Hitem. cbn. eauto.
Qed.

(** C1: on a new table, after [t["a", "x"] = 1] the read [t["a", "x"]]
    raises [TypeError] and does not return 1. *)
Theorem getitem_after_setitem_raises :
  exists t0 t1,
    init None None = Ok t0 /\
    setitem t0 ("a", "x") 1 = Return tt t1 /\
    getitem t1 ("a", "x") = Raise TypeError t1.
Proof. do 2 eexists. run_all. Qed.

(** C2: Scenario A.  After the three sets and the delete of [("a", "x")]
    the outer keys are ["a"] and ["b"] and the read of [("a", "x")] raises
    [KeyError], but the read of [("a", "y")] raises [TypeError] and does
    not return 2. *)
Theorem scenario_A :
  exists t0 t1 t2,
    init None None = Ok t0 /\
    set_all [("a", "x", 1); ("a", "y", 2); ("b", "x", 3)] t0 = Return tt t1 /\
    keys t1 = ["a"; "b"] /\
    delitem 5 t1 ("a", "x") = Return tt t2 /\
    keys t2 = ["a"; "b"] /\
    getitem t2 ("a", "y") = Raise TypeError t2 /\
    getitem t2 ("a", "x") = Raise KeyError t2.
Proof. do 3 eexists. run_all. Qed.

(** C5: with the capacity sequence [[5]], the third outer key makes the
    first growth attempt, which is skipped silently; the set of a fourth
    key writes its pair and then raises [IndexError] from the second
    attempt. *)
Theorem second_exhausted_growth_raises :
  exists t0 t3 t4,
    init (Some [5]) None = Ok t0 /\
    set_all [("a", "x", 1); ("b", "x", 2); ("c", "x", 3)] t0 = Return tt t3 /\
    table_size t3 = 5%nat /\ len t3 = 3 /\ size_index t3 = 1%nat /\
    setitem t3 ("d", "x") 4 = Raise IndexError t4 /\
    table_size t4 = 5%nat /\ len t4 = 4 /\ size_index t4 = 2%nat.
Proof. do 3 eexists. run_all. Qed.

(** C8: ["a"] and ["f"] both hash to slot 2 of a table of capacity 5.  Once
    [("a", "x")] is deleted, the repair of the cluster sets the pair of
    ["f"] again without clearing its slot: ["f"] then fills two outer
    slots, and the length is 2 for one outer key. *)
Theorem cluster_repair_duplicates_key :
  exists t0 t1 t2,
    init None None = Ok t0 /\
    set_all [("a", "x", 1); ("f", "x", 2)] t0 = Return tt t1 /\
    keys t1 = ["a"; "f"] /\ len t1 = 2 /\
    delitem 5 t1 ("a", "x") = Return tt t2 /\
    keys t2 = ["f"; "f"] /\ len t2 = 2.
Proof. do 3 eexists. run_all. Qed.

End DoubleKeyTableProofs.

(** * The polynomial hash *)

Module HashProofs.

Lemma hash_chars_lt (size : N) (key : string) :
  forall value a,
    (2 <= size)%N -> (value < size)%N ->
    exists v, hash_chars size key value a = Ok v /\ (v < size)%N.
Proof.
  induction key as [|c rest IH]; intros value a Hs Hv; cbn [hash_chars].
  - eauto.
  - destruct (N.eqb_spec size 0) as [->|_]; [lia|].
    destruct (N.eqb_spec (size - 1) 0) as [E|_]; [lia|].
    apply IH; [exact Hs|]. apply N.mod_lt. lia.
Qed.

Lemma hash_string_lt (n : nat) (key : string) :
  (2 <= n)%nat -> exists p, hash_string n key = Ok p /\ (p < n)%nat.
Proof.
  intros Hn. unfold hash_string.
  destruct (hash_chars_lt (N.of_nat n) key 0 31415) as (v & -> & Hv); [lia|lia|].
  exists (N.to_nat v). split; [reflexivity|lia].
Qed.

Lemma hash_string_one (c : ascii) (rest : string) :
  hash_string 1 (String c rest) = Error ZeroDivisionError.
Proof. reflexivity. Qed.

End HashProofs.

(** * Further properties of the composite table *)

Module DoubleKeyTableMore.

Import DoubleKeyTable DoubleKeyTableSpec DoubleKeyTableProofs.

Local Open Scope string_scope.

(** ** Probes that fail *)

Section Probe.

Context {A : Type}.
Implicit Types a : list (option (string * A)).

(** A lookup probe that starts inside the array fails with [KeyError]
    only. *)
Lemma probe_lookup_error n : forall a pos k e,
  (pos < length a)%nat ->
  LinearProbe.probe_loop n a pos k false = Error e -> e = KeyError.
Proof.
  induction n as [|n IH]; intros a pos k e Hp H; cbn in H; [congruence|].
  destruct (a !! pos) as [[[k0 x]|]|] eqn:Hs.
  - destruct (String.eqb k0 k); [discriminate|].
    eapply IH; [|exact H]. apply Nat.mod_upper_bound. lia.
  - congruence.
  - apply lookup_ge_None in Hs. lia.
Qed.

Lemma probe_lookup_absent n a pos k :
  (pos < length a)%nat ->
  (forall j x, a !! j <> Some (Some (k, x))) ->
  LinearProbe.probe_loop n a pos k false = Error KeyError.
Proof.
  intros Hp Habs.
  destruct (LinearProbe.probe_loop n a pos k false) as [p|e] eqn:H.
  - destruct (LinearProbeProofs.probe_lookup_found _ _ _ _ _ H) as [x Hx].
    now destruct (Habs p x).
  - now rewrite (probe_lookup_error _ _ _ _ _ Hp H).
Qed.

(** An insertion probe over slots that all hold other keys fails with
    [FullError]. *)
Lemma probe_insert_full n : forall a pos k,
  (pos < length a)%nat ->
  (forall i, (i < length a)%nat -> exists k0 x, a !! i = Some (Some (k0, x)) /\ k0 <> k) ->
  LinearProbe.probe_loop n a pos k true = Error FullError.
Proof.
  induction n as [|n IH]; intros a pos k Hp Hfull; cbn; [reflexivity|].
  destruct (Hfull pos Hp) as (k0 & x & -> & Hne).
  apply String.eqb_neq in Hne. rewrite Hne.
  apply IH; [|exact Hfull]. apply Nat.mod_upper_bound. lia.
Qed.

End Probe.

(** ** The hashes *)

(** X1: [hash1] and [hash2] give a position inside the array they hash for,
    whatever the key, once the capacity is at least 2. *)
Theorem hashes_within_capacity (t : DoubleKeyTable)
    (sub_table : LinearProbe.LinearProbeTable) (key1 key2 : string) :
  (2 <= table_size t)%nat ->
  (2 <= LinearProbe.table_size sub_table)%nat ->
  (exists p, hash1 t key1 = Ok p /\ (p < table_size t)%nat) /\
  (exists p, hash2 sub_table key2 = Ok p /\ (p < LinearProbe.table_size sub_table)%nat).
Proof.
  intros H1 H2. split; [apply HashProofs.hash_string_lt, H1|apply HashProofs.hash_string_lt, H2].
Qed.

Lemma hashes_within_capacity_witness :
  (2 <= table_size new_table)%nat /\
  (2 <= LinearProbe.table_size new_nested)%nat /\
  (exists p, hash1 new_table "lin" = Ok p /\ (p < table_size new_table)%nat) /\
  (exists p, hash2 new_nested "lim" = Ok p /\ (p < LinearProbe.table_size new_nested)%nat).
Proof.
  assert (H1 : (2 <= table_size new_table)%nat) by (vm_compute; lia).
  assert (H2 : (2 <= LinearProbe.table_size new_nested)%nat) by (vm_compute; lia).
  split; [exact H1|]. split; [exact H2|].
  exact (hashes_within_capacity new_table new_nested "lin" "lim" H1 H2).
Defined.

(** X2: On a table of capacity 1 every operation on a key pair whose first key
    is not empty raises [ZeroDivisionError], from the modulus
    [self.table_size - 1] of [hash1], and leaves the table as it was. *)
Theorem capacity_one_raises (t : DoubleKeyTable) (c : ascii) (rest key2 : string)
    (v : Z) (fuel : nat) :
  table_size t = 1%nat ->
  setitem t (String c rest, key2) v = Raise ZeroDivisionError t /\
  getitem t (String c rest, key2) = Raise ZeroDivisionError t /\
  contains t (String c rest, key2) = Raise ZeroDivisionError t /\
  delitem fuel t (String c rest, key2) = Raise ZeroDivisionError t.
Proof.
  intros H.
  assert (Hh : hash1 t (String c rest) = Error ZeroDivisionError)
    by (unfold hash1; rewrite H; apply HashProofs.hash_string_one).
  unfold setitem, contains, getitem, delitem. rewrite setitem_fuel_S.
  unfold write_pair, _linear_probe. cbn [fst snd]. rewrite Hh. auto.
Qed.

Lemma capacity_one_raises_witness :
  table_size unit_table = 1%nat /\
  setitem unit_table ("a", "x") 1 = Raise ZeroDivisionError unit_table /\
  getitem unit_table ("a", "x") = Raise ZeroDivisionError unit_table /\
  contains unit_table ("a", "x") = Raise ZeroDivisionError unit_table /\
  delitem 5 unit_table ("a", "x") = Raise ZeroDivisionError unit_table.
Proof.
  split; [reflexivity|].
  exact (capacity_one_raises unit_table "a" "" "x" 1 5 eq_refl).
Defined.

(** ** Reads *)

Lemma getitem_raises (t : DoubleKeyTable) (key : string * string) :
  exists e, getitem t key = Raise e t.
Proof.
  unfold getitem, _linear_probe.
  destruct (hash1 t key.1) as [pos|e]; [|eauto].
  rewrite probe_loop_lookup.
  destruct (LinearProbe.probe_loop _ _ pos key.1 false) as [i|e] eqn:Hp; [|eauto].
  destruct (LinearProbeProofs.probe_lookup_found _ _ _ _ _ Hp) as [inner Hi].
  rewrite Hi.
  destruct (LinearProbe._linear_probe hash2 inner key.2 false); [|eauto].
  rewrite Hi. cbn. eauto.
Qed.

(** X3: [__getitem__] never returns and [__contains__] never answers [True]:
    the read raises, and the membership test turns a [KeyError] into
    [False] and lets every other exception through.  Both leave the table
    as it was. *)
Theorem reads_never_return (t : DoubleKeyTable) (key : string * string) :
  exists e,
    getitem t key = Raise e t /\
    contains t key = (if e is KeyError then Return false t else Raise e t).
Proof.
  destruct (getitem_raises t key) as [e H]. exists e. split; [exact H|].
  unfold contains. rewrite H. now destruct e.
Qed.

(** X4: The read and the membership test of a key pair that the lookup probe
    locates raise [TypeError]. *)
Theorem located_pair_read_raises (t : DoubleKeyTable) (key1 key2 : string) (v : Z) :
  lookup t key1 key2 = Some v ->
  getitem t (key1, key2) = Raise TypeError t /\
  contains t (key1, key2) = Raise TypeError t.
Proof.
  intros H.
  assert (Hg : getitem t (key1, key2) = Raise TypeError t).
  { unfold lookup, getitem, _linear_probe in *. cbn [fst snd].
    destruct (hash1 t key1) as [pos|e]; [|discriminate].
    rewrite probe_loop_lookup in *.
    destruct (LinearProbe.probe_loop _ _ pos key1 false) as [i|e] eqn:Hp; [|discriminate].
    destruct (top_level_array t !! i) as [[[k inner]|]|] eqn:Hi; try discriminate.
    destruct (LinearProbe._linear_probe hash2 inner key2 false); [|discriminate].
    now rewrite Hi. }
  split; [exact Hg|]. unfold contains. now rewrite Hg.
Qed.

Lemma located_pair_read_raises_witness :
  lookup two_keys "a" "x" = Some 1 /\
  getitem two_keys ("a", "x") = Raise TypeError two_keys /\
  contains two_keys ("a", "x") = Raise TypeError two_keys.
Proof.
  split; [reflexivity|].
  exact (located_pair_read_raises two_keys "a" "x" 1 eq_refl).
Defined.

(** X5: A key pair that is not stored: no outer slot holds [key1], or the
    nested tables under [key1] have no pair of [key2].  On capacities of 2
    and more the read and the delete raise [KeyError], the membership test
    answers [False], and the table is as it was. *)
Theorem absent_pair_raises_KeyError (t : DoubleKeyTable) (key1 key2 : string)
    (fuel : nat) :
  (2 <= table_size t)%nat ->
  (forall i inner,
      top_level_array t !! i = Some (Some (key1, inner)) ->
      (2 <= LinearProbe.table_size inner)%nat /\
      forall j v, LinearProbe.array inner !! j <> Some (Some (key2, v))) ->
  getitem t (key1, key2) = Raise KeyError t /\
  contains t (key1, key2) = Return false t /\
  delitem fuel t (key1, key2) = Raise KeyError t.
Proof.
  intros Hn Habs.
  assert (Hp : _linear_probe t key1 key2 false = Raise KeyError t).
  { unfold _linear_probe, hash1.
    destruct (HashProofs.hash_string_lt (table_size t) key1 Hn) as (pos & -> & Hpos).
    rewrite probe_loop_lookup.
    destruct (LinearProbe.probe_loop _ _ pos key1 false) as [i|e] eqn:Hl.
    - destruct (LinearProbeProofs.probe_lookup_found _ _ _ _ _ Hl) as [inner Hi].
      rewrite Hi. destruct (Habs i inner Hi) as [Hm Hno].
      unfold LinearProbe._linear_probe, hash2.
      destruct (HashProofs.hash_string_lt (LinearProbe.table_size inner) key2 Hm)
        as (p2 & -> & Hp2).
      now rewrite (probe_lookup_absent _ _ _ _ Hp2 Hno).
    - now rewrite (probe_lookup_error _ _ _ _ _ Hpos Hl). }
  unfold contains, getitem, delitem. cbn [fst snd]. now rewrite Hp.
Qed.

Lemma absent_pair_raises_KeyError_witness :
  (2 <= table_size two_keys)%nat /\
  (forall i inner,
      top_level_array two_keys !! i = Some (Some ("a", inner)) ->
      (2 <= LinearProbe.table_size inner)%nat /\
      forall j v, LinearProbe.array inner !! j <> Some (Some ("y", v))) /\
  getitem two_keys ("a", "y") = Raise KeyError two_keys /\
  contains two_keys ("a", "y") = Return false two_keys /\
  delitem 5 two_keys ("a", "y") = Raise KeyError two_keys.
Proof.
  assert (H1 : (2 <= table_size two_keys)%nat) by (vm_compute; lia).
  assert (H2 : forall i inner,
             top_level_array two_keys !! i = Some (Some ("a", inner)) ->
             (2 <= LinearProbe.table_size inner)%nat /\
             forall j v, LinearProbe.array inner !! j <> Some (Some ("y", v))).
  { intros i inner H.
    destruct i as [|[|[|[|[|i]]]]]; try discriminate H.
    injection H as <-. split; [vm_compute; lia|].
    intros j v Hj.
    destruct j as [|[|[|[|[|j]]]]]; discriminate Hj. }
  split; [exact H1|]. split; [exact H2|].
  exact (absent_pair_raises_KeyError two_keys "a" "y" 5 H1 H2).
Defined.

(** ** Sets *)

(** X6: A set of a new first key on a table whose outer slots are all taken, of
    capacity 2 or more, raises [FullError] and leaves the table as it
    was. *)
Theorem full_table_set_raises (t : DoubleKeyTable) (key1 key2 : string) (v : Z) :
  (2 <= table_size t)%nat ->
  (forall i, (i < table_size t)%nat ->
             exists k inner, top_level_array t !! i = Some (Some (k, inner)) /\ k <> key1) ->
  setitem t (key1, key2) v = Raise FullError t.
Proof.
  intros Hn Hfull. unfold setitem. rewrite setitem_fuel_S.
  unfold write_pair, _linear_probe, hash1. cbn [fst snd].
  destruct (HashProofs.hash_string_lt (table_size t) key1 Hn) as (pos & -> & Hpos).
  rewrite probe_loop_insert.
  now rewrite (probe_insert_full _ _ _ _ Hpos Hfull).
Qed.

Lemma full_table_set_raises_witness :
  (2 <= table_size full_table)%nat /\
  (forall i, (i < table_size full_table)%nat ->
             exists k inner,
               top_level_array full_table !! i = Some (Some (k, inner)) /\ k <> "c") /\
  setitem full_table ("c", "x") 3 = Raise FullError full_table.
Proof.
  assert (H1 : (2 <= table_size full_table)%nat) by (vm_compute; lia).
  assert (H2 : forall i, (i < table_size full_table)%nat ->
             exists k inner,
               top_level_array full_table !! i = Some (Some (k, inner)) /\ k <> "c").
  { intros i Hi. destruct i as [|[|i]].
    - do 2 eexists. split; [reflexivity|discriminate].
    - do 2 eexists. split; [reflexivity|discriminate].
    - exfalso. vm_compute in Hi. lia. }
  split; [exact H1|]. split; [exact H2|].
  exact (full_table_set_raises full_table "c" "x" 3 H1 H2).
Defined.

(** ** What a set keeps *)

Lemma inv_same_array (t t' : DoubleKeyTable) :
  top_level_array t' = top_level_array t -> count t' = count t -> inv t -> inv t'.
Proof.
  intros Ha Hc [Hf Hi Hn].
  constructor; unfold hash1, table_size in *; rewrite ?Ha, ?Hc; assumption.
Qed.

Lemma lookup_same_array (t t' : DoubleKeyTable) (a b : string) :
  top_level_array t' = top_level_array t -> lookup t' a b = lookup t a b.
Proof. intros H. rewrite !lookup_eq. unfold hash1, table_size. now rewrite H. Qed.

Lemma lookup_init (sizes isz : option (list Z)) (t : DoubleKeyTable) (a b : string) :
  init sizes isz = Ok t -> lookup t a b = None.
Proof.
  unfold init. destruct (default DEFAULT_TABLE_SIZES sizes !! 0%nat) as [n|]; [|discriminate].
  unfold new_array. destruct (n <=? 0)%Z; [discriminate|]. intros [= <-].
  apply lookup_absent. intros i inner H. cbn [top_level_array] in H.
  apply lookup_replicate in H as [H _]. discriminate.
Qed.

Section Reinsert.

Variable set : DoubleKeyTable -> string * string -> Z -> outcome DoubleKeyTable unit.

Hypothesis set_spec : forall t key1 key2 v t',
  inv t -> set t (key1, key2) v = Return tt t' ->
  inv t' /\
  forall a b, lookup t' a b =
              if String.eqb a key1 && String.eqb b key2 then Some v else lookup t a b.

Lemma reinsert_inner_any (key1 : string) (items : list (option (string * Z))) :
  forall s s',
    inv s -> reinsert_inner set key1 items s = Return tt s' ->
    inv s' /\
    forall a b, lookup s' a b =
                if String.eqb a key1
                then LinearProbeSpec.overridden items b (lookup s a b)
                else lookup s a b.
Proof.
  induction items as [|[[k2 v2]|] items IH]; intros s s' Hinv H; cbn in H.
  - injection H as <-. split; [exact Hinv|]. intros a b. now destruct (String.eqb a key1).
  - destruct (set s (key1, k2) v2) as [[] s1|?|] eqn:Hset; try discriminate.
    destruct (set_spec _ _ _ _ _ Hinv Hset) as [Hinv1 Hl1].
    destruct (IH s1 s' Hinv1 H) as [Hinv' Hl'].
    split; [exact Hinv'|]. intros a b. rewrite Hl', Hl1.
    cbn [LinearProbeSpec.overridden]. now destruct (String.eqb a key1).
  - eauto.
Qed.

Lemma reinsert_outer_any (items : list (option (string * LinearProbe.LinearProbeTable))) :
  forall s s',
    inv s -> reinsert_outer set items s = Return tt s' ->
    inv s' /\ forall a b, lookup s' a b = overridden2 items a b (lookup s a b).
Proof.
  induction items as [|[[k inner]|] items IH]; intros s s' Hinv H; cbn in H.
  - injection H as <-. auto.
  - destruct (reinsert_inner set k (LinearProbe.array inner) s) as [[] s1|?|] eqn:Hin;
      try discriminate.
    destruct (reinsert_inner_any k _ s s1 Hinv Hin) as [Hinv1 Hl1].
    destruct (IH s1 s' Hinv1 H) as [Hinv' Hl'].
    split; [exact Hinv'|]. intros a b. rewrite Hl', Hl1. reflexivity.
  - eauto.
Qed.

End Reinsert.

(** A set that returns, with whatever growth it runs, keeps the table well
    formed and changes what the lookup probe locates for its pair only. *)
Lemma setitem_fuel_spec (fuel : nat) :
  forall t key1 key2 v t',
    inv t -> setitem_fuel fuel t (key1, key2) v = Return tt t' ->
    inv t' /\
    forall a b, lookup t' a b =
                if String.eqb a key1 && String.eqb b key2 then Some v else lookup t a b.
Proof.
  induction fuel as [|fuel IH]; intros t key1 key2 v t' Hinv H; [discriminate|].
  rewrite setitem_fuel_S in H.
  destruct (write_pair t (key1, key2) v) as [[] t2|?|] eqn:Hw; try discriminate.
  destruct (write_pair_spec t t2 key1 key2 v Hinv Hw)
    as (Hinv2 & _ & _ & _ & _ & Hl2 & _ & _).
  destruct (2 * len t2 >? Z.of_nat (table_size t2)); [|injection H as <-; auto].
  unfold _rehash in H. cbn [size_index TABLE_SIZES] in H.
  destruct (S (size_index t2) =? length (TABLE_SIZES t2))%nat.
  - injection H as <-. split.
    + now apply (inv_same_array t2).
    + intros a b. rewrite <- Hl2. now apply lookup_same_array.
  - destruct (TABLE_SIZES t2 !! S (size_index t2)) as [n|]; [|discriminate].
    unfold new_array in H. destruct (n <=? 0)%Z; [discriminate|].
    destruct (reinsert_outer_any _ IH _ _ _ (inv_new _ _ _ _) H) as [Hinv' Hl'].
    split; [exact Hinv'|].
    intros a b. rewrite Hl', lookup_absent.
    + rewrite overridden2_table by exact Hinv2. apply Hl2.
    + intros i inner Hi. cbn [top_level_array] in Hi.
      apply lookup_replicate in Hi as [Hi _]. discriminate.
Qed.

(** X7: On a well-formed table, a set that returns (the write, and the growth
    it may run, exhausted or nested) leaves the table well formed; the
    lookup probe then locates the pair with the value set, and every other
    pair as before. *)
Theorem setitem_updates_lookup (t t' : DoubleKeyTable) (key1 key2 : string) (v : Z) :
  inv t ->
  setitem t (key1, key2) v = Return tt t' ->
  inv t' /\
  forall a b, lookup t' a b =
              if String.eqb a key1 && String.eqb b key2 then Some v else lookup t a b.
Proof. apply setitem_fuel_spec. Qed.

Lemma setitem_updates_lookup_witness :
  inv two_keys /\
  setitem two_keys ("c", "x") 3 = Return tt three_keys /\
  inv three_keys /\
  forall a b, lookup three_keys a b =
              if String.eqb a "c" && String.eqb b "x" then Some 3 else lookup two_keys a b.
Proof.
  split; [exact inv_two_keys|]. split; [reflexivity|].
  exact (setitem_updates_lookup two_keys three_keys "c" "x" 3 inv_two_keys eq_refl).
Defined.

Lemma set_all_spec (kvs : list (string * string * Z)) :
  forall t0 t,
    inv t0 -> set_all kvs t0 = Return tt t ->
    inv t /\ forall a b, lookup t a b = last_set kvs a b (lookup t0 a b).
Proof.
  induction kvs as [|[[k1 k2] v] kvs IH]; intros t0 t Hinv H; cbn [set_all] in H.
  - injection H as <-. auto.
  - destruct (setitem t0 (k1, k2) v) as [[] t1|?|] eqn:Hset; try discriminate.
    cbn [and_then] in H.
    destruct (setitem_fuel_spec _ _ _ _ _ _ Hinv Hset) as [Hinv1 Hl1].
    destruct (IH t1 t Hinv1 H) as [Hinv' Hl'].
    split; [exact Hinv'|]. intros a b. rewrite Hl', Hl1. reflexivity.
Qed.

(** X8: A run of sets that all return, from a new table: the lookup probe
    locates every pair with the value of its last set in the run, and no
    other pair. *)
Theorem sets_behave_as_map (sizes isz : option (list Z)) (t0 t : DoubleKeyTable)
    (kvs : list (string * string * Z)) :
  init sizes isz = Ok t0 ->
  set_all kvs t0 = Return tt t ->
  forall a b, lookup t a b = last_set kvs a b None.
Proof.
  intros H0 H a b.
  destruct (set_all_spec kvs t0 t (inv_init _ _ _ H0) H) as [_ Hl].
  now rewrite Hl, (lookup_init _ _ _ _ _ H0).
Qed.

Lemma sets_behave_as_map_witness :
  init None None = Ok new_table /\
  set_all [("a", "x", 1); ("b", "x", 2); ("a", "x", 7)] new_table
    = Return tt (table_of (setitem two_keys ("a", "x") 7)) /\
  forall a b,
    lookup (table_of (setitem two_keys ("a", "x") 7)) a b
    = last_set [("a", "x", 1); ("b", "x", 2); ("a", "x", 7)] a b None.
Proof.
  assert (H0 : init None None = Ok new_table) by reflexivity.
  assert (H1 : set_all [("a", "x", 1); ("b", "x", 2); ("a", "x", 7)] new_table
               = Return tt (table_of (setitem two_keys ("a", "x") 7))) by (vm_compute; reflexivity).
  split; [exact H0|]. split; [exact H1|].
  exact (sets_behave_as_map None None new_table _ _ H0 H1).
Defined.

(** ** Keys and the count *)

Lemma set_built_inv (t : DoubleKeyTable) : set_built t -> inv t.
Proof.
  induction 1 as [sizes isz t H|t [key1 key2] data t' _ IH H].
  - exact (inv_init _ _ _ H).
  - exact (proj1 (setitem_fuel_spec _ _ _ _ _ _ IH H)).
Qed.

Lemma omap_keys_NoDup (items : list (option (string * LinearProbe.LinearProbeTable))) :
  (forall i j k inner inner',
      items !! i = Some (Some (k, inner)) -> items !! j = Some (Some (k, inner')) -> i = j) ->
  NoDup (omap (fun item : option (string * LinearProbe.LinearProbeTable) =>
                 match item with Some (k, _) => Some k | None => None end) items).
Proof.
  induction items as [|[[k inner]|] items IH]; intros Hu; cbn.
  - constructor.
  - constructor.
    + intros Hin. apply list_elem_of_omap in Hin as ([[k' inner']|] & Hel & Heq);
        [|discriminate].
      injection Heq as ->. apply list_elem_of_lookup in Hel as [j Hj].
      specialize (Hu 0%nat (S j) k inner inner' eq_refl Hj). discriminate.
    + apply IH. intros i j k0 i1 i2 H1 H2.
      specialize (Hu (S i) (S j) k0 i1 i2 H1 H2). lia.
  - apply IH. intros i j k0 i1 i2 H1 H2.
    specialize (Hu (S i) (S j) k0 i1 i2 H1 H2). lia.
Qed.

Lemma length_keys_occupied (items : list (option (string * LinearProbe.LinearProbeTable))) :
  length (omap (fun item : option (string * LinearProbe.LinearProbeTable) =>
                  match item with Some (k, _) => Some k | None => None end) items)
  = occupied items.
Proof.
  induction items as [|[[k inner]|] items IH]; cbn; [reflexivity| |exact IH].
  now rewrite IH.
Qed.

(** X10: In a table that sets alone have built, [keys()] lists every first key
    once and [len()] is the number of keys listed. *)
Theorem len_counts_distinct_keys (t : DoubleKeyTable) :
  set_built t -> NoDup (keys t) /\ len t = Z.of_nat (length (keys t)).
Proof.
  intros Hb. apply set_built_inv in Hb. split.
  - apply omap_keys_NoDup. intros i j k inner inner' Hi Hj.
    exact (slot_unique t k i j inner inner' Hb Hi Hj).
  - unfold len, keys. rewrite length_keys_occupied. apply (inv_count t Hb).
Qed.

Lemma set_built_two_keys : set_built two_keys.
Proof.
  eapply (set_built_set _ ("b", "x") 2);
    [eapply (set_built_set _ ("a", "x") 1); [eapply (set_built_init None None); run|run]|run].
Qed.

Lemma len_counts_distinct_keys_witness :
  set_built two_keys /\ NoDup (keys two_keys) /\ len two_keys = Z.of_nat (length (keys two_keys)).
Proof.
  split; [exact set_built_two_keys|].
  exact (len_counts_distinct_keys two_keys set_built_two_keys).
Defined.

(** ** Keys and values under a first key *)

Lemma first_of_None {B : Type} (f : LinearProbe.LinearProbeTable -> B)
    (items : list (option (string * LinearProbe.LinearProbeTable))) (key : string) :
  first_of f items key = None <->
  ~ elem_of key
      (omap (fun item : option (string * LinearProbe.LinearProbeTable) =>
               match item with Some (k, _) => Some k | None => None end) items).
Proof.
  induction items as [|[[k inner]|] items IH]; cbn.
  - split; [intros _; apply not_elem_of_nil|reflexivity].
  - destruct (String.eqb_spec k key) as [->|Hne].
    + split; [discriminate|]. intros H. destruct H. left.
    + rewrite IH, not_elem_of_cons. split; [intros H; split; [congruence|exact H]|tauto].
  - exact IH.
Qed.

(** X12: [keys(key)] and [values(key)] give [None] exactly for a [key] that
    [keys()] does not list; they do not raise. *)
Theorem keys_of_None_iff_unlisted (t : DoubleKeyTable) (key : string) :
  (keys_of t key = None <-> ~ elem_of key (keys t)) /\
  (values_of t key = None <-> ~ elem_of key (keys t)).
Proof. split; apply first_of_None. Qed.

Lemma each_of_absent {B : Type} (f : LinearProbe.LinearProbeTable -> list B)
    (items : list (option (string * LinearProbe.LinearProbeTable))) (key : string) :
  (forall j inner, items !! j <> Some (Some (key, inner))) ->
  each_of f items key = [] /\ first_of f items key = None.
Proof.
  induction items as [|[[k inner]|] items IH]; intros Habs; cbn; [auto| |].
  - destruct (String.eqb_spec k key) as [->|_]; [now destruct (Habs 0%nat inner)|].
    apply IH. intros j inner'. exact (Habs (S j) inner').
  - apply IH. intros j inner'. exact (Habs (S j) inner').
Qed.

Lemma each_of_first_of {B : Type} (f : LinearProbe.LinearProbeTable -> list B)
    (items : list (option (string * LinearProbe.LinearProbeTable))) (key : string) :
  (forall i j inner inner',
      items !! i = Some (Some (key, inner)) -> items !! j = Some (Some (key, inner')) ->
      i = j) ->
  each_of f items key = default [] (first_of f items key).
Proof.
  induction items as [|[[k inner]|] items IH]; intros Hu; cbn; [reflexivity| |].
  - destruct (String.eqb_spec k key) as [->|_].
    + destruct (each_of_absent f items key) as [-> _]; [|cbn; apply app_nil_r].
      intros j inner' Hj. specialize (Hu 0%nat (S j) inner inner' eq_refl Hj). discriminate.
    + apply IH. intros i j i1 i2 H1 H2. specialize (Hu (S i) (S j) i1 i2 H1 H2). lia.
  - apply IH. intros i j i1 i2 H1 H2. specialize (Hu (S i) (S j) i1 i2 H1 H2). lia.
Qed.

(** X13: On a well-formed table the generators with a key yield what the list
    methods return: [iter_keys(key)] the list of [keys(key)] and
    [iter_values(key)] the list of [values(key)], and nothing where those
    return [None]. *)
Theorem generators_agree_with_lists (t : DoubleKeyTable) (key : string) :
  inv t ->
  iter_keys t (Some key) = default [] (keys_of t key) /\
  iter_values t (Some key) = default [] (values_of t key).
Proof.
  intros Hinv.
  assert (Hu : forall i j inner inner',
             top_level_array t !! i = Some (Some (key, inner)) ->
             top_level_array t !! j = Some (Some (key, inner')) -> i = j)
    by (intros i j inner inner'; apply (slot_unique t key i j inner inner' Hinv)).
  split; apply each_of_first_of, Hu.
Qed.

Lemma generators_agree_with_lists_witness :
  inv two_keys /\
  iter_keys two_keys (Some "a") = default [] (keys_of two_keys "a") /\
  iter_values two_keys (Some "a") = default [] (values_of two_keys "a").
Proof.
  split; [exact inv_two_keys|].
  exact (generators_agree_with_lists two_keys "a" inv_two_keys).
Defined.

Lemma first_of_slot {B : Type} (f : LinearProbe.LinearProbeTable -> B)
    (items : list (option (string * LinearProbe.LinearProbeTable))) (key : string) :
  forall i inner,
    (forall j inner', items !! j = Some (Some (key, inner')) -> j = i) ->
    items !! i = Some (Some (key, inner)) ->
    first_of f items key = Some (f inner).
Proof.
  induction items as [|[[k inner0]|] items IH]; intros i inner Hu Hi; cbn.
  - destruct i; discriminate.
  - destruct (String.eqb_spec k key) as [->|Hne].
    + specialize (Hu 0%nat inner0 eq_refl). subst i. now injection Hi as ->.
    + destruct i as [|i]; [injection Hi as ? ?; congruence|].
      apply (IH i); [|exact Hi].
      intros j inner' Hj. specialize (Hu (S j) inner' Hj). lia.
  - destruct i as [|i]; [discriminate|].
    apply (IH i); [|exact Hi].
    intros j inner' Hj. specialize (Hu (S j) inner' Hj). lia.
Qed.

(** X14: On a well-formed table [values()] is the concatenation, over the keys
    of [keys()] in their order, of the lists [values(key)]. *)
Theorem values_concatenates_values_of (t : DoubleKeyTable) :
  inv t ->
  values t = flat_map (fun key => default [] (values_of t key)) (keys t).
Proof.
  intros Hinv. unfold values, keys, values_of.
  assert (H : forall l,
             (forall item, elem_of item l -> elem_of item (top_level_array t)) ->
             flat_map (fun item : option (string * LinearProbe.LinearProbeTable) =>
                         match item with
                         | Some (_, inner) => LinearProbe.values inner
                         | None => []
                         end) l
             = flat_map (fun key =>
                           default [] (first_of LinearProbe.values (top_level_array t) key))
                 (omap (fun item : option (string * LinearProbe.LinearProbeTable) =>
                          match item with Some (k, _) => Some k | None => None end) l)).
  { induction l as [|[[k inner]|] l IH]; intros Hsub; cbn; [reflexivity| |].
    - rewrite IH by (intros item Hin; apply Hsub; now right).
      f_equal.
      assert (Hin : elem_of (Some (k, inner)) (top_level_array t)) by (apply Hsub; left).
      apply list_elem_of_lookup in Hin as [i Hi].
      rewrite (first_of_slot LinearProbe.values _ k i inner); [reflexivity| |exact Hi].
      intros j inner' Hj. exact (slot_unique t k j i inner' inner Hinv Hj Hi).
    - apply IH. intros item Hin. apply Hsub. now right. }
  apply H. auto.
Qed.

Lemma values_concatenates_values_of_witness :
  inv two_keys /\
  values two_keys
  = flat_map (fun key => default [] (values_of two_keys key)) (keys two_keys).
Proof.
  split; [exact inv_two_keys|].
  exact (values_concatenates_values_of two_keys inv_two_keys).
Defined.

(** ** A set ends *)

Section MoreFuel.

Variables set set' : DoubleKeyTable -> string * string -> Z -> outcome DoubleKeyTable unit.

Hypothesis set_more : forall t key v, set t key v <> OutOfFuel -> set' t key v = set t key v.

Lemma reinsert_inner_more (key1 : string) (items : list (option (string * Z))) :
  forall t,
    reinsert_inner set key1 items t <> OutOfFuel ->
    reinsert_inner set' key1 items t = reinsert_inner set key1 items t.
Proof.
  induction items as [|[[k2 v2]|] items IH]; intros t H; cbn in *; [reflexivity| |auto].
  destruct (set t (key1, k2) v2) as [[] t1|e t1|] eqn:Hset.
  - rewrite (set_more t (key1, k2) v2), Hset by congruence. auto.
  - now rewrite (set_more t (key1, k2) v2), Hset by congruence.
  - contradiction.
Qed.

Lemma reinsert_outer_more (items : list (option (string * LinearProbe.LinearProbeTable))) :
  forall t,
    reinsert_outer set items t <> OutOfFuel ->
    reinsert_outer set' items t = reinsert_outer set items t.
Proof.
  induction items as [|[[k inner]|] items IH]; intros t H; cbn in *; [reflexivity| |auto].
  destruct (reinsert_inner set k (LinearProbe.array inner) t) as [[] t1|e t1|] eqn:Hin.
  - rewrite reinsert_inner_more, Hin by congruence. auto.
  - now rewrite reinsert_inner_more, Hin by congruence.
  - contradiction.
Qed.

End MoreFuel.

Lemma setitem_fuel_more (fuel : nat) :
  forall fuel' t key v,
    (fuel <= fuel')%nat ->
    setitem_fuel fuel t key v <> OutOfFuel ->
    setitem_fuel fuel' t key v = setitem_fuel fuel t key v.
Proof.
  induction fuel as [|fuel IH]; intros fuel' t key v Hle H; [contradiction|].
  destruct fuel' as [|fuel']; [lia|].
  rewrite !setitem_fuel_S in *.
  destruct (write_pair t key v) as [[] t2|e t2|]; [|reflexivity..].
  destruct (2 * len t2 >? Z.of_nat (table_size t2)); [|reflexivity].
  unfold _rehash in *. cbn [size_index TABLE_SIZES] in *.
  destruct (S (size_index t2) =? length (TABLE_SIZES t2))%nat; [reflexivity|].
  destruct (TABLE_SIZES t2 !! S (size_index t2)) as [n|]; [|reflexivity].
  destruct (new_array n) as [a|e]; [|reflexivity].
  apply reinsert_outer_more; [|exact H].
  intros t0 key0 v0 H0. apply IH; [lia|exact H0].
Qed.

(** X9: [__setitem__] ends on every table and key pair: it returns or raises,
    and a greater bound on the nesting of [_rehash] and [__setitem__] than
    the length of the capacity sequence plus two gives the same result. *)
Theorem setitem_terminates (t : DoubleKeyTable) (key : string * string) (v : Z)
    (fuel : nat) :
  (S (S (length (TABLE_SIZES t))) <= fuel)%nat ->
  setitem t key v <> OutOfFuel /\ setitem_fuel fuel t key v = setitem t key v.
Proof.
  intros Hle. split; [apply setitem_ends|].
  apply setitem_fuel_more; [exact Hle|apply setitem_ends].
Qed.

Lemma setitem_terminates_witness :
  (S (S (length (TABLE_SIZES two_keys))) <= 40)%nat /\
  setitem two_keys ("c", "x") 3 <> OutOfFuel /\
  setitem_fuel 40 two_keys ("c", "x") 3 = setitem two_keys ("c", "x") 3.
Proof.
  assert (H : (S (S (length (TABLE_SIZES two_keys))) <= 40)%nat) by (vm_compute; lia).
  split; [exact H|].
  exact (setitem_terminates two_keys ("c", "x") 3 40 H).
Defined.

(** ** A new table *)

Lemma omap_replicate_None {A B : Type} (f : option A -> option B) (n : nat) :
  f None = None -> omap f (replicate n None) = [].
Proof. intros H. induction n as [|n IH]; cbn; [reflexivity|]. now rewrite H. Qed.

Lemma flat_map_replicate_nil {A B : Type} (f : A -> list B) (x : A) (n : nat) :
  f x = [] -> flat_map f (replicate n x) = [].
Proof. intros H. induction n as [|n IH]; cbn; [reflexivity|]. now rewrite H, IH. Qed.

(** X11: A table that [__init__] has made, with any capacity sequences, is
    empty and has the first capacity: [len()] is 0, [keys()] and [values()]
    are empty, and the lookup probe locates no pair. *)
Theorem init_gives_empty_table (sizes isz : option (list Z)) (t : DoubleKeyTable) :
  init sizes isz = Ok t ->
  len t = 0 /\ keys t = [] /\ values t = [] /\
  Some (Z.of_nat (table_size t)) = default DEFAULT_TABLE_SIZES sizes !! 0%nat /\
  forall key1 key2, lookup t key1 key2 = None.
Proof.
  intros H. split; [|split; [|split; [|split]]].
  - revert H. unfold init.
    destruct (default DEFAULT_TABLE_SIZES sizes !! 0%nat) as [n|]; [|discriminate].
    destruct (new_array n); [|discriminate]. now intros [= <-].
  - revert H. unfold init, new_array, keys.
    destruct (default DEFAULT_TABLE_SIZES sizes !! 0%nat) as [n|]; [|discriminate].
    destruct (n <=? 0)%Z; [discriminate|]. intros [= <-].
    now apply omap_replicate_None.
  - revert H. unfold init, new_array, values.
    destruct (default DEFAULT_TABLE_SIZES sizes !! 0%nat) as [n|]; [|discriminate].
    destruct (n <=? 0)%Z; [discriminate|]. intros [= <-].
    now apply flat_map_replicate_nil.
  - revert H. unfold init, new_array, table_size.
    destruct (default DEFAULT_TABLE_SIZES sizes !! 0%nat) as [n|]; [|discriminate].
    destruct (n <=? 0)%Z eqn:Hn; [discriminate|]. intros [= <-].
    cbn [top_level_array]. rewrite length_replicate. f_equal.
    apply Z.leb_gt in Hn. lia.
  - intros key1 key2. exact (lookup_init _ _ _ _ _ H).
Qed.

Lemma init_gives_empty_table_witness :
  init (Some [4; 5; 9]) None = Ok (table_of (match init (Some [4; 5; 9]) None with
                                             | Ok t => Return tt t
                                             | Error _ => OutOfFuel
                                             end)) /\
  let t := table_of (match init (Some [4; 5; 9]) None with
                     | Ok t => Return tt t
                     | Error _ => OutOfFuel
                     end) in
  len t = 0 /\ keys t = [] /\ values t = [] /\
  Some (Z.of_nat (table_size t)) = default DEFAULT_TABLE_SIZES (Some [4; 5; 9]) !! 0%nat /\
  forall key1 key2, lookup t key1 key2 = None.
Proof.
  split; [reflexivity|].
  exact (init_gives_empty_table (Some [4; 5; 9]) None _ eq_refl).
Defined.

(** ** The string rendering *)

Section Str.

Variable str_of : pyobj -> string.

Lemma str_inner_spec (t : DoubleKeyTable) (key1 : string) (keys2 : list string)
    (result : string) :
  (keys2 = [] /\ str_inner str_of t key1 keys2 result = Return result t) \/
  (keys2 <> [] /\ exists e, str_inner str_of t key1 keys2 result = Raise e t).
Proof.
  destruct keys2 as [|key2 rest]; [left; auto|right].
  split; [discriminate|].
  cbn [str_inner]. destruct (getitem_raises t (key1, key2)) as [e ->]. eauto.
Qed.

Lemma str_outer_spec (t : DoubleKeyTable) (keys1 : list string) :
  forall result,
    ((forall key1, elem_of key1 keys1 -> keys_of t key1 = Some []) /\
     str_outer str_of t keys1 result = Return result t) \/
    ((exists key1, elem_of key1 keys1 /\ keys_of t key1 <> Some []) /\
     exists e, str_outer str_of t keys1 result = Raise e t).
Proof.
  induction keys1 as [|key1 rest IH]; intros result; cbn [str_outer].
  - left. split; [|reflexivity]. intros key1 H. now apply elem_of_nil in H.
  - destruct (keys_of t key1) as [keys2|] eqn:Hk.
    + destruct (str_inner_spec t key1 keys2 result) as [[-> ->]|[Hne [e ->]]].
      * destruct (IH result) as [[Hall ->]|[(k & Hin & Hk') [e ->]]]; [left|right].
        -- split; [|reflexivity].
           intros k H. apply elem_of_cons in H as [->|H]; [exact Hk|exact (Hall k H)].
        -- split; [|eauto]. exists k. split; [now right|exact Hk'].
      * right. split; [|eauto]. exists key1. split; [left|]. rewrite Hk. congruence.
    + right. split; [|eauto]. exists key1. split; [left|]. now rewrite Hk.
Qed.

(** X15: [__str__] gives no string.  On the tables where every key that
    [keys()] lists has an empty list [keys(key)], an empty table among
    them, it returns [None]: the method builds its string and ends without
    a [return].  On every other table it raises, the read of the first
    pair it renders never returning.  The table is as it was. *)
Theorem str_gives_no_string (t : DoubleKeyTable) :
  ((forall key1, elem_of key1 (keys t) -> keys_of t key1 = Some []) /\
   str str_of t = Return None t) \/
  ((exists key1, elem_of key1 (keys t) /\ keys_of t key1 <> Some []) /\
   exists e, str str_of t = Raise e t).
Proof.
  unfold str.
  destruct (str_outer_spec t (keys t) EmptyString) as [[Hall ->]|[Hex [e ->]]];
    [left|right]; eauto.
Qed.

End Str.

End DoubleKeyTableMore.

(** * Further properties of the trie table *)

Module InfiniteHashTableMore.

Import InfiniteHashTable InfiniteHashTableSpec InfiniteHashTableProofs.

Local Open Scope string_scope.

(** ** The hash *)

Lemma get_None (key : string) :
  forall lvl, String.get lvl key = None <-> (String.length key <= lvl)%nat.
Proof.
  induction key as [|c rest IH]; intros lvl; cbn.
  - split; [lia|reflexivity].
  - destruct lvl as [|lvl]; [split; [discriminate|lia]|].
    rewrite IH. lia.
Qed.

(** X16: [hash] gives a slot of the node, and the last slot exactly when the
    depth has reached the length of the key: a character never hashes to
    it. *)
Theorem hash_reserved_slot (lvl : nat) (key : string) :
  (hash lvl key < TABLE_SIZE)%nat /\
  (hash lvl key = (TABLE_SIZE - 1)%nat <-> (String.length key <= lvl)%nat).
Proof.
  split; [apply hash_lt|].
  rewrite <- get_None. unfold hash.
  destruct (String.get lvl key) as [c|]; [|tauto].
  split; [|discriminate].
  pose proof (N.mod_lt (ord c) (N.of_nat (TABLE_SIZE - 1))) as H.
  cbn [TABLE_SIZE Nat.sub] in *. lia.
Qed.

(** ** Reads *)

Section Get.

Variable same_object : string -> string -> bool.
Variable key : string.

(** Objects that are one have equal contents. *)
Hypothesis identity_eq : forall p, same_object p key = true -> p = key.

Lemma get_location_loop_walk (fuel : nat) :
  forall lvl a d s temp,
    walk lvl a key d s ->
    (depth a <= fuel)%nat ->
    match s with
    | Some (Leaf k v) =>
        if same_object k key
        then exists loc,
            get_location_loop same_object fuel lvl a key temp = Return (temp ++ loc)%list 0%nat /\
            follow (PArray a) loc = Ok (PInt v)
        else get_location_loop same_object fuel lvl a key temp = Raise KeyError (S d)
    | _ =>
        exists loc,
          get_location_loop same_object fuel lvl a key temp = Return (temp ++ loc)%list 0%nat /\
          follow (PArray a) loc = Error TypeError
    end.
Proof.
  induction fuel as [|fuel IH]; intros lvl [c n] d s temp Hw Hd;
    [cbn [depth] in Hd; lia|].
  inversion Hw as [? ? ? Hs|? ? ? k v Hs|? ? ? p child ? ? Hs Hp Hbelow]; subst;
    cbn [cells] in Hs; cbn [get_location_loop cells]; rewrite Hs.
  - exists [hash d key]. split; [reflexivity|]. cbn [follow cells]. now rewrite Hs.
  - cbn [entry_key]. destruct (same_object k key); [|reflexivity].
    exists [hash d key]. split; [reflexivity|]. cbn [follow cells]. now rewrite Hs.
  - cbn [entry_key].
    destruct (same_object p key) eqn:Hsame; [now apply identity_eq in Hsame|].
    pose proof (depth_child c n _ p child Hs) as Hdc.
    specialize (IH (S lvl) child d s (temp ++ [hash lvl key])%list Hbelow ltac:(lia)).
    assert (Hf : forall loc, follow (PArray (mkArrayR c n)) (hash lvl key :: loc)
                             = follow (PArray child) loc)
      by (intros loc; cbn [follow cells]; now rewrite Hs).
    destruct s as [[k v|p' c']|].
    + destruct (same_object k key); [|exact IH].
      destruct IH as (loc & -> & Hloc). exists (hash lvl key :: loc).
      split; [now rewrite <- app_assoc|now rewrite Hf].
    + destruct IH as (loc & -> & Hloc). exists (hash lvl key :: loc).
      split; [now rewrite <- app_assoc|now rewrite Hf].
    + destruct IH as (loc & -> & Hloc). exists (hash lvl key :: loc).
      split; [now rewrite <- app_assoc|now rewrite Hf].
Qed.

End Get.

(** X17: A key whose walk ends at its own leaf, asked for by the object that is
    stored: [__getitem__] returns the value of the leaf and [__contains__]
    answers [True]. *)
Theorem getitem_returns_stored_value (same_object : string -> string -> bool)
    (t : InfiniteHashTable) (key : string) (v : Z) (d : nat) :
  (forall p, same_object p key = true -> p = key) ->
  same_object key key = true ->
  walk 0 (table t) key d (Some (Leaf key v)) ->
  getitem same_object t key
    = Return (PInt v) {| table := table t; level := 0; count := count t |} /\
  contains same_object t key
    = Return true {| table := table t; level := 0; count := count t |}.
Proof.
  intros Hid Hsame Hw.
  pose proof (get_location_loop_walk same_object key Hid _ _ _ _ _ [] Hw (Nat.le_refl _)) as H.
  cbn beta iota in H. rewrite Hsame in H. destruct H as (loc & Hloc & Hf).
  assert (Hg : getitem same_object t key
               = Return (PInt v) {| table := table t; level := 0; count := count t |})
    by (unfold getitem, get_location; rewrite Hloc; cbn [app]; now rewrite Hf).
  split; [exact Hg|]. unfold contains. now rewrite Hg.
Qed.

Lemma getitem_returns_stored_value_witness :
  (forall p, String.eqb p "lin" = true -> p = "lin") /\
  String.eqb "lin" "lin" = true /\
  walk 0 (table table_lin_lim) "lin" 2 (Some (Leaf "lin" 1)) /\
  getitem String.eqb table_lin_lim "lin"
    = Return (PInt 1) {| table := table table_lin_lim; level := 0;
                         count := count table_lin_lim |} /\
  contains String.eqb table_lin_lim "lin"
    = Return true {| table := table table_lin_lim; level := 0;
                     count := count table_lin_lim |}.
Proof.
  assert (H1 : forall p, String.eqb p "lin" = true -> p = "lin")
    by (intros p; apply String.eqb_eq).
  assert (H2 : walk 0 (table table_lin_lim) "lin" 2 (Some (Leaf "lin" 1))).
  { eapply walk_below; [reflexivity|discriminate|].
    eapply walk_below; [reflexivity|discriminate|].
    apply walk_leaf. reflexivity. }
  split; [exact H1|]. split; [reflexivity|]. split; [exact H2|].
  exact (getitem_returns_stored_value String.eqb table_lin_lim "lin" 1 2 H1 eq_refl H2).
Defined.

Lemma get_location_loop_get_walk (same_object : string -> string -> bool)
    (key : string) (fuel : nat) :
  forall lvl a d s temp,
    get_walk same_object lvl a key d s ->
    (depth a <= fuel)%nat ->
    match s with
    | Some (Leaf k v) =>
        if same_object k key
        then exists loc,
            get_location_loop same_object fuel lvl a key temp = Return (temp ++ loc)%list 0%nat /\
            follow (PArray a) loc = Ok (PInt v)
        else get_location_loop same_object fuel lvl a key temp = Raise KeyError (S d)
    | _ =>
        exists loc,
          get_location_loop same_object fuel lvl a key temp = Return (temp ++ loc)%list 0%nat /\
          follow (PArray a) loc = Error TypeError
    end.
Proof.
  induction fuel as [|fuel IH]; intros lvl [c n] d s temp Hw Hd;
    [cbn [depth] in Hd; lia|].
  inversion Hw as [? ? ? Hs|? ? ? k v Hs|? ? ? p child ? ? Hs Hp Hbelow]; subst;
    cbn [cells] in Hs; cbn [get_location_loop cells]; rewrite Hs.
  - exists [hash d key]. split; [reflexivity|]. cbn [follow cells]. now rewrite Hs.
  - cbn [entry_key]. destruct (same_object k key); [|reflexivity].
    exists [hash d key]. split; [reflexivity|]. cbn [follow cells]. now rewrite Hs.
  - cbn [entry_key]. rewrite Hp.
    pose proof (depth_child c n _ p child Hs) as Hdc.
    specialize (IH (S lvl) child d s (temp ++ [hash lvl key])%list Hbelow ltac:(lia)).
    assert (Hf : forall loc, follow (PArray (mkArrayR c n)) (hash lvl key :: loc)
                             = follow (PArray child) loc)
      by (intros loc; cbn [follow cells]; now rewrite Hs).
    destruct s as [[k v|p' c']|].
    + destruct (same_object k key); [|exact IH].
      destruct IH as (loc & -> & Hloc). exists (hash lvl key :: loc).
      split; [now rewrite <- app_assoc|now rewrite Hf].
    + destruct IH as (loc & -> & Hloc). exists (hash lvl key :: loc).
      split; [now rewrite <- app_assoc|now rewrite Hf].
    + destruct IH as (loc & -> & Hloc). exists (hash lvl key :: loc).
      split; [now rewrite <- app_assoc|now rewrite Hf].
Qed.

(** X18: values being ints, a key whose walk in [get_location] passes
    pointers whose tag is not the object of the key, whatever the contents
    of the tag, and ends at a leaf whose key is not that object either:
    the loop steps into the value, [__getitem__] raises [KeyError] and
    [__contains__] answers [False]; [self.level] is left at the depth the
    walk had reached plus one. *)
Theorem getitem_at_other_leaf_raises_KeyError (same_object : string -> string -> bool)
    (t : InfiniteHashTable) (key k : string) (v : Z) (d : nat) :
  get_walk same_object 0 (table t) key d (Some (Leaf k v)) ->
  same_object k key = false ->
  getitem same_object t key
    = Raise KeyError {| table := table t; level := S d; count := count t |} /\
  contains same_object t key
    = Return false {| table := table t; level := S d; count := count t |}.
Proof.
  intros Hw Hsame.
  pose proof (get_location_loop_get_walk same_object key _ _ _ _ _ [] Hw (Nat.le_refl _))
    as H.
  cbn beta iota in H. rewrite Hsame in H.
  assert (Hg : getitem same_object t key
               = Raise KeyError {| table := table t; level := S d; count := count t |})
    by (unfold getitem, get_location; now rewrite H).
  split; [exact Hg|]. unfold contains. now rewrite Hg.
Qed.

Lemma getitem_at_other_leaf_raises_KeyError_witness :
  set_all [("DG", 1); ("xab", 2)] init = Return tt table_DG_xab /\
  get_walk (fun _ _ => false) 0 (table table_DG_xab) "xa" 2 (Some (Leaf "DG" 1)) /\
  getitem (fun _ _ => false) table_DG_xab "xa"
    = Raise KeyError {| table := table table_DG_xab; level := 3;
                        count := count table_DG_xab |} /\
  contains (fun _ _ => false) table_DG_xab "xa"
    = Return false {| table := table table_DG_xab; level := 3;
                      count := count table_DG_xab |}.
Proof.
  assert (H : get_walk (fun _ _ => false) 0 (table table_DG_xab) "xa" 2
                (Some (Leaf "DG" 1))).
  { eapply get_walk_below; [reflexivity|reflexivity|].
    eapply get_walk_below; [reflexivity|reflexivity|].
    apply get_walk_leaf. reflexivity. }
  split; [reflexivity|]. split; [exact H|].
  exact (getitem_at_other_leaf_raises_KeyError (fun _ _ => false) table_DG_xab
           "xa" "DG" 1 2 H eq_refl).
Defined.




(** ** Sets *)

Lemma set_loop_more_fuel (fuel : nat) :
  forall fuel' lvl current pos key value r,
    (fuel <= fuel')%nat ->
    set_loop fuel lvl current pos key value = Return tt r ->
    set_loop fuel' lvl current pos key value = Return tt r.
Proof.
  induction fuel as [|fuel IH]; intros fuel' lvl current pos key value r Hle H;
    [discriminate|].
  destruct fuel' as [|fuel']; [lia|].
  cbn [set_loop] in *. cbv zeta in *.
  destruct (cells current !! pos) as [[e|]|]; [|exact H|exact H].
  destruct e as [k v|p child].
  - destruct (set_loop fuel (S lvl) (split_table (S lvl) k v) (hash (S lvl) key) key value)
      as [[] [child' l]|ex [child' l]|] eqn:E; try discriminate.
    now rewrite (IH fuel' _ _ _ _ _ _ ltac:(lia) E).
  - destruct (set_loop fuel (S lvl) child (hash (S lvl) key) key value)
      as [[] [child' l]|ex [child' l]|] eqn:E; try discriminate.
    now rewrite (IH fuel' _ _ _ _ _ _ ltac:(lia) E).
Qed.

(** The splits of a set that has met the leaf of [k] end at the first
    depth where [key] and [k] hash to different slots. *)
Lemma set_loop_splits (key : string) (value : Z) (k : string) (v : Z) (m : nat) :
  forall lvl current,
    cells current !! hash lvl key = Some (Some (Leaf k v)) ->
    hash (lvl + S m) key <> hash (lvl + S m) k ->
    exists fuel current' l,
      set_loop fuel lvl current (hash lvl key) key value = Return tt (current', l) /\
      stored lvl current' key value.
Proof.
  induction m as [|m IH]; intros lvl [c n] Hs Hne; cbn [cells] in Hs.
  - exists 2%nat. cbn [set_loop cells node_count]. cbv zeta. rewrite Hs.
    unfold split_table at 1. cbn [cells new_ArrayR node_count].
    replace (lvl + 1)%nat with (S lvl) in Hne by lia.
    rewrite list_lookup_insert_ne by congruence.
    rewrite lookup_replicate_2 by apply hash_lt.
    do 2 eexists. split; [reflexivity|].
    eapply stored_below.
    + cbn [cells]. apply list_lookup_insert_eq. eapply lookup_lt_Some; eauto.
    + apply stored_here. cbn [cells]. apply list_lookup_insert_eq.
      unfold split_table. cbn [cells new_ArrayR].
      rewrite length_insert, length_replicate. apply hash_lt.
  - destruct (Nat.eq_dec (hash (S lvl) key) (hash (S lvl) k)) as [Heq|Hdiff].
    + destruct (IH (S lvl) (split_table (S lvl) k v)) as (fuel & child' & l & Hset & Hst).
      * unfold split_table. cbn [cells new_ArrayR]. rewrite Heq.
        apply list_lookup_insert_eq. rewrite length_replicate. apply hash_lt.
      * replace (S lvl + S m)%nat with (lvl + S (S m))%nat by lia. exact Hne.
      * exists (S fuel). cbn [set_loop cells node_count]. cbv zeta. rewrite Hs, Hset.
        do 2 eexists. split; [reflexivity|].
        eapply stored_below; [|exact Hst].
        cbn [cells]. apply list_lookup_insert_eq. eapply lookup_lt_Some; eauto.
    + exists 2%nat. cbn [set_loop cells node_count]. cbv zeta. rewrite Hs.
      unfold split_table at 1. cbn [cells new_ArrayR node_count].
      rewrite list_lookup_insert_ne by congruence.
      rewrite lookup_replicate_2 by apply hash_lt.
      do 2 eexists. split; [reflexivity|].
      eapply stored_below.
      * cbn [cells]. apply list_lookup_insert_eq. eapply lookup_lt_Some; eauto.
      * apply stored_here. cbn [cells]. apply list_lookup_insert_eq.
        unfold split_table. cbn [cells new_ArrayR].
        rewrite length_insert, length_replicate. apply hash_lt.
Qed.

Lemma set_loop_can_set (key : string) (value : Z) :
  forall lvl current,
    can_set lvl current key ->
    exists fuel current' l,
      set_loop fuel lvl current (hash lvl key) key value = Return tt (current', l) /\
      stored lvl current' key value.
Proof.
  induction 1 as [lvl a key Hs|lvl a key k v d Hs Hd Hne|lvl a key p child Hs _ IH].
  - exists 1%nat. cbn [set_loop]. cbv zeta. rewrite Hs. do 2 eexists.
    split; [reflexivity|]. apply stored_here. cbn [cells].
    apply list_lookup_insert_eq. eapply lookup_lt_Some; eauto.
  - apply (set_loop_splits key value k v (d - lvl - 1)); [exact Hs|].
    replace (lvl + S (d - lvl - 1))%nat with d by lia. exact Hne.
  - destruct IH as (fuel & child' & l & Hset & Hst).
    exists (S fuel). cbn [set_loop]. cbv zeta. rewrite Hs, Hset. do 2 eexists.
    split; [reflexivity|]. eapply stored_below; [|exact Hst].
    cbn [cells]. apply list_lookup_insert_eq. eapply lookup_lt_Some; eauto.
Qed.

(** X20: A set of a key whose slots lead to an empty slot, or to the leaf of a
    key that hashes apart from it at some greater depth, ends: from some
    bound on, every bound on the turns of its loop gives the same table;
    the key is stored there with the value, and [len()] has grown by
    one. *)
Theorem setitem_of_separable_key_returns (t : InfiniteHashTable) (key : string)
    (value : Z) :
  can_set 0 (table t) key ->
  exists fuel0 t',
    (forall fuel, (fuel0 <= fuel)%nat -> setitem fuel t key value = Return tt t') /\
    stored 0 (table t') key value /\
    len t' = len t + 1.
Proof.
  intros Hc.
  destruct (set_loop_can_set key value 0 (table t) Hc) as (fuel0 & a & l & Hset & Hst).
  exists fuel0, {| table := a; level := l; count := count t + 1 |}.
  split; [|split; [exact Hst|reflexivity]].
  intros fuel Hle. unfold setitem.
  now rewrite (set_loop_more_fuel fuel0 fuel _ _ _ _ _ _ Hle Hset).
Qed.

Lemma setitem_of_separable_key_returns_witness :
  can_set 0 (table table_a) "ab" /\
  exists fuel0 t',
    (forall fuel, (fuel0 <= fuel)%nat -> setitem fuel table_a "ab" 2 = Return tt t') /\
    stored 0 (table t') "ab" 2 /\
    len t' = len table_a + 1.
Proof.
  assert (H : can_set 0 (table table_a) "ab").
  { apply (can_set_leaf 0 (table table_a) "ab" "a" 1 1); [reflexivity|lia|discriminate]. }
  split; [exact H|].
  exact (setitem_of_separable_key_returns table_a "ab" 2 H).
Defined.

(** ** The count *)

(** X22: In every table that completed sets, and completed deletes of keys
    found at their leaf, have built from a new table, [len()] is the number
    of (key, value) leaves in the trie. *)
Theorem len_counts_leaves (t : InfiniteHashTable) :
  built t -> len t = Z.of_nat (leaves (table t)).
Proof.
  induction 1 as [|t fuel key value t' Hb IH Hset|t key t' Hb IH Hstop Hdel].
  - reflexivity.
  - apply built_wf in Hb. unfold setitem in Hset.
    destruct (set_loop fuel 0 (table t) (hash 0 key) key value)
      as [[] [a l]|ex [a l]|] eqn:Hloop; try discriminate.
    injection Hset as <-.
    destruct (set_loop_wf fuel 0 [] (table t) key value a l eq_refl eq_refl Hb Hloop)
      as [_ Hl].
    unfold len in *. cbn [count table]. lia.
  - apply built_wf in Hb. unfold delitem in Hdel.
    destruct (del_loop (depth (table t)) 0 (table t) key)
      as [[item running] [a l]|ex [a l]|] eqn:Hloop; try discriminate.
    injection Hdel as <-.
    destruct (del_loop_wf _ 0 [] (table t) key item running a l eq_refl Hb Hstop Hloop)
      as (_ & Hl & _).
    unfold len in *. cbn [count table]. lia.
Qed.

Lemma len_counts_leaves_witness :
  built table_ab /\ len table_ab = Z.of_nat (leaves (table table_ab)).
Proof.
  split; [exact built_table_ab|].
  exact (len_counts_leaves table_ab built_table_ab).
Defined.

(** ** Deletes *)

Lemma first_item_lookup (c : list (option entry)) (e : entry) :
  first_item c = Some e -> exists i, c !! i = Some (Some e).
Proof.
  induction c as [|[e0|] c IH]; intros H.
  - discriminate.
  - exists 0%nat. cbv in H. injection H as ->. reflexivity.
  - destruct (IH H) as [i Hi]. exists (S i). exact Hi.
Qed.

Lemma del_loop_unholds (fuel : nat) :
  forall lvl path current key item running current' l,
    length path = lvl ->
    wf path current ->
    stops_at_leaf lvl current key ->
    del_loop fuel lvl current key = Return (item, running) (current', l) ->
    ~ holds lvl current' key /\
    (running = true -> exists k v, item = Some (Leaf k v) /\ k <> key).
Proof.
  induction fuel as [|fuel IH];
    intros lvl path [c n] key item running current' l Hlen Hwf Hstop Hdel;
    [discriminate|].
  destruct (del_loop_wf (S fuel) lvl path (mkArrayR c n) key item running current' l
              Hlen Hwf Hstop Hdel) as (Hwf' & _ & Hrun1' & _).
  inversion Hwf as [? ? ? Hc Hn Hent]; subst path0 c0 n0.
  cbn [del_loop cells node_count] in Hdel. cbv zeta in Hdel.
  set (pos := hash lvl key) in *.
  assert (Hpos : (pos < length c)%nat) by (rewrite Hc; apply hash_lt).
  inversion Hstop as [? ? ? v Hs|? ? ? p child Hs Hp Hbelow]; subst; cbn [cells] in Hs;
    fold pos in Hs; rewrite Hs in Hdel; cbn [entry_key] in Hdel.
  - rewrite String.eqb_refl in Hdel. injection Hdel as <- <- <- <-.
    assert (Hnone : <[pos := None]> c !! pos = Some None)
      by (apply list_lookup_insert_eq; exact Hpos).
    split.
    + intros Hh. inversion Hh as [? ? ? ? H1|? ? ? ? ? H1 _]; subst; cbn [cells] in H1;
        fold pos in H1; congruence.
    + intros Hrun. destruct (Hrun1' Hrun) as (_ & _ & k & v' & Hitem & _).
      exists k, v'. split; [exact Hitem|]. intros ->.
      apply first_item_lookup in Hitem as [i Hi].
      inversion Hwf' as [? ? ? _ _ Hent']; subst.
      specialize (Hent' i _ Hi). inversion Hent' as [? ? ? ? Hk|]; subst.
      apply key_path_step in Hk as [_ Hk]. fold pos in Hk. subst i. congruence.
  - assert (Hneq : String.eqb p key = false) by now apply String.eqb_neq.
    rewrite Hneq in Hdel.
    pose proof (Hent pos _ Hs) as Hsub. inversion Hsub as [|? ? ? ? Hge Hwfc]; subst.
    destruct (del_loop fuel (S (length path)) child key)
      as [[item0 running0] [child' l0]|ex [child' l0]|] eqn:Hrec; try discriminate.
    destruct (IH (S (length path)) (path ++ [pos])%list child key item0 running0 child' l0)
      as (Hnh & Hr);
      [rewrite length_app; cbn; lia|assumption|assumption|assumption|].
    destruct (del_loop_wf fuel (S (length path)) (path ++ [pos])%list child key
                item0 running0 child' l0) as (_ & _ & Hrun1 & _);
      [rewrite length_app; cbn; lia|assumption|assumption|assumption|].
    destruct running0.
    + destruct (Hrun1 eq_refl) as (-> & _ & k & v & -> & Hk).
      destruct (Hr eq_refl) as (k1 & v1 & [= <- <-] & Hne).
      replace (S (length path) - 1)%nat with (length path) in Hdel by lia.
      pose proof (key_path_step k path pos Hk) as [Hk' Hh].
      cbn [entry_key] in Hdel. rewrite Hh in Hdel. unfold array_set in Hdel.
      rewrite length_insert in Hdel. destruct (decide (pos < length c)%nat); [|lia].
      rewrite list_insert_insert_eq in Hdel. injection Hdel as <- <- <- <-.
      split.
      * intros Hh'. inversion Hh' as [? ? ? ? H1|? ? ? ? ? H1 _]; subst; cbn [cells] in H1;
          fold pos in H1; rewrite list_lookup_insert_eq in H1 by exact Hpos; congruence.
      * intros _. exists k, v. auto.
    + injection Hdel as <- <- <- <-. split; [|discriminate].
      intros Hh'. inversion Hh' as [? ? ? ? H1|? ? ? ? ? H1 H2]; subst; cbn [cells] in H1;
        fold pos in H1; rewrite list_lookup_insert_eq in H1 by exact Hpos; [discriminate|].
      injection H1 as <- <-. exact (Hnh H2).
Qed.

Lemma built_table_lin_lim : built table_lin_lim.
Proof.
  eapply (built_set _ 10 "lim" 2); [eapply (built_set _ 10 "lin" 1); [apply built_init|run]|run].
Qed.

Lemma stops_table_lin_lim : stops_at_leaf 0 (table table_lin_lim) "lin".
Proof.
  eapply stops_below; [reflexivity|discriminate|].
  eapply stops_below; [reflexivity|discriminate|].
  eapply stops_here. reflexivity.
Qed.

(** X23: in a table that completed sets, and completed deletes of keys
    found at their leaf, have built from a new table, the delete of a key
    whose walk ends at its leaf returns; afterwards the slots of the key
    lead to no leaf of it, [len()] is one less and the table is again one
    of those tables.  A delete that has stopped at a pointer tagged with
    its key leaves a table outside them. *)
Theorem delitem_removes_key (t : InfiniteHashTable) (key : string) :
  built t ->
  stops_at_leaf 0 (table t) key ->
  exists t',
    delitem t key = Return tt t' /\
    ~ holds 0 (table t') key /\
    len t' = len t - 1 /\
    built t'.
Proof.
  intros Hb Hstop.
  destruct (delitem_returns t key Hb Hstop) as [t' Hdel].
  exists t'. split; [exact Hdel|].
  split; [|split; [|exact (built_del t key t' Hb Hstop Hdel)]].
  - unfold delitem in Hdel.
    destruct (del_loop (depth (table t)) 0 (table t) key)
      as [[item running] [a l]|ex [a l]|] eqn:Hloop; try discriminate.
    injection Hdel as <-. cbn [table].
    exact (proj1 (del_loop_unholds _ 0 [] (table t) key item running a l eq_refl
                    (built_wf t Hb) Hstop Hloop)).
  - unfold delitem in Hdel.
    destruct (del_loop (depth (table t)) 0 (table t) key) as [[? ?] [a l]|ex [a l]|];
      try discriminate.
    now injection Hdel as <-.
Qed.

Lemma delitem_removes_key_witness :
  built table_lin_lim /\
  stops_at_leaf 0 (table table_lin_lim) "lin" /\
  exists t',
    delitem table_lin_lim "lin" = Return tt t' /\
    ~ holds 0 (table t') "lin" /\
    len t' = len table_lin_lim - 1 /\
    built t'.
Proof.
  split; [exact built_table_lin_lim|]. split; [exact stops_table_lin_lim|].
  exact (delitem_removes_key table_lin_lim "lin" built_table_lin_lim stops_table_lin_lim).
Defined.

(** ** What sets and deletes keep *)

Lemma stored_same_slot (lvl : nat) (c c' : list (option entry)) (n n' : Z)
    (k : string) (v : Z) :
  c' !! hash lvl k = c !! hash lvl k ->
  stored lvl (mkArrayR c n) k v -> stored lvl (mkArrayR c' n') k v.
Proof.
  intros Heq Hst.
  inversion Hst as [? ? ? ? Hs|? ? ? ? p child Hs Hbelow]; subst; cbn [cells] in Hs.
  - apply stored_here. cbn [cells]. congruence.
  - eapply stored_below; [|exact Hbelow]. cbn [cells]. rewrite Heq. exact Hs.
Qed.

Lemma set_loop_keeps (fuel : nat) :
  forall lvl current key value current' l k v,
    set_loop fuel lvl current (hash lvl key) key value = Return tt (current', l) ->
    k <> key ->
    stored lvl current k v ->
    stored lvl current' k v.
Proof.
  induction fuel as [|fuel IH]; intros lvl [c n] key value current' l k v H Hne Hst;
    [discriminate|].
  cbn [set_loop cells node_count] in H. cbv zeta in H.
  destruct (c !! hash lvl key) as [[e|]|] eqn:Hs; [| |discriminate].
  - assert (Hpos : (hash lvl key < length c)%nat) by (eapply lookup_lt_Some; eauto).
    destruct e as [k0 v0|p child].
    + destruct (set_loop fuel (S lvl) (split_table (S lvl) k0 v0) (hash (S lvl) key) key value)
        as [[] [child' l']|ex [child' l']|] eqn:E; try discriminate.
      injection H as <- <-.
      destruct (Nat.eq_dec (hash lvl k) (hash lvl key)) as [Heq|Hneq].
      * inversion Hst as [? ? ? ? Hk|? ? ? ? p child Hk Hbelow]; subst; cbn [cells] in Hk;
          rewrite Heq, Hs in Hk; [|discriminate].
        injection Hk as -> ->.
        eapply stored_below.
        -- cbn [cells]. rewrite Heq. apply list_lookup_insert_eq. exact Hpos.
        -- apply (IH _ _ _ _ _ _ _ _ E Hne). apply stored_here.
           unfold split_table. cbn [cells new_ArrayR].
           apply list_lookup_insert_eq. rewrite length_replicate. apply hash_lt.
      * eapply (stored_same_slot lvl c); [|exact Hst].
        apply list_lookup_insert_ne. congruence.
    + destruct (set_loop fuel (S lvl) child (hash (S lvl) key) key value)
        as [[] [child' l']|ex [child' l']|] eqn:E; try discriminate.
      injection H as <- <-.
      destruct (Nat.eq_dec (hash lvl k) (hash lvl key)) as [Heq|Hneq].
      * inversion Hst as [? ? ? ? Hk|? ? ? ? p0 child0 Hk Hbelow]; subst; cbn [cells] in Hk;
          rewrite Heq, Hs in Hk; [discriminate|].
        injection Hk as <- <-.
        eapply stored_below.
        -- cbn [cells]. rewrite Heq. apply list_lookup_insert_eq. exact Hpos.
        -- exact (IH _ _ _ _ _ _ _ _ E Hne Hbelow).
      * eapply (stored_same_slot lvl c); [|exact Hst].
        apply list_lookup_insert_ne. congruence.
  - injection H as <- <-.
    destruct (Nat.eq_dec (hash lvl k) (hash lvl key)) as [Heq|Hneq].
    + inversion Hst as [? ? ? ? Hk|? ? ? ? p0 child0 Hk Hbelow]; subst; cbn [cells] in Hk;
        rewrite Heq, Hs in Hk; discriminate.
    + eapply (stored_same_slot lvl c); [|exact Hst].
      apply list_lookup_insert_ne. congruence.
Qed.

(** X21: A set that returns keeps every pair of another key: the pair is still
    stored, with its value, at the slots its key hashes to. *)
Theorem setitem_keeps_other_keys (fuel : nat) (t t' : InfiniteHashTable)
    (key : string) (value : Z) (k : string) (v : Z) :
  setitem fuel t key value = Return tt t' ->
  k <> key ->
  stored 0 (table t) k v ->
  stored 0 (table t') k v.
Proof.
  unfold setitem. intros H Hne Hst.
  destruct (set_loop fuel 0 (table t) (hash 0 key) key value)
    as [[] [a l]|ex [a l]|] eqn:Hloop; try discriminate.
  injection H as <-. exact (set_loop_keeps _ _ _ _ _ _ _ _ _ Hloop Hne Hst).
Qed.

Lemma setitem_keeps_other_keys_witness :
  setitem 10 table_a "ab" 2 = Return tt table_ab /\
  "a" <> "ab" /\
  stored 0 (table table_a) "a" 1 /\
  stored 0 (table table_ab) "a" 1.
Proof.
  assert (H1 : setitem 10 table_a "ab" 2 = Return tt table_ab) by reflexivity.
  assert (H2 : "a" <> "ab") by discriminate.
  assert (H3 : stored 0 (table table_a) "a" 1) by (apply stored_here; reflexivity).
  split; [exact H1|]. split; [exact H2|]. split; [exact H3|].
  exact (setitem_keeps_other_keys 10 table_a table_ab "ab" 2 "a" 1 H1 H2 H3).
Defined.

(** A well-formed node with one leaf beneath it stores one pair. *)
Lemma stored_single (lvl : nat) (path : list nat) (a : ArrayR) (k1 k2 : string)
    (v1 v2 : Z) :
  wf path a -> leaves a = 1%nat ->
  stored lvl a k1 v1 -> stored lvl a k2 v2 ->
  k1 = k2 /\ v1 = v2.
Proof.
  intros Hwf Hone H1 H2. destruct a as [c n].
  inversion Hwf as [? ? ? _ _ Hent]; subst. rewrite leaves_unfold in Hone.
  assert (Hsub : forall i p child, c !! i = Some (Some (Sub p child)) -> False).
  { intros i p child Hi. pose proof (Hent i _ Hi) as He. inversion He; subst.
    pose proof (sum_list_lookup_le slot_leaves c i _ Hi) as Hle.
    cbn [slot_leaves] in Hle. lia. }
  inversion H1 as [? ? ? ? Hs1|? ? ? ? p1 child1 Hs1 _]; subst; cbn [cells] in Hs1;
    [|now destruct (Hsub _ _ _ Hs1)].
  inversion H2 as [? ? ? ? Hs2|? ? ? ? p2 child2 Hs2 _]; subst; cbn [cells] in Hs2;
    [|now destruct (Hsub _ _ _ Hs2)].
  destruct (Nat.eq_dec (hash lvl k1) (hash lvl k2)) as [Heq|Hneq].
  - rewrite Heq, Hs2 in Hs1. now injection Hs1 as -> ->.
  - pose proof (sum_list_insert slot_leaves c _ _ None Hs1) as Hsum.
    cbn [slot_leaves] in Hsum.
    assert (Hi2 : <[hash lvl k1 := None]> c !! hash lvl k2 = Some (Some (Leaf k2 v2)))
      by (rewrite list_lookup_insert_ne by exact Hneq; exact Hs2).
    pose proof (sum_list_lookup_le slot_leaves _ _ _ Hi2) as Hle.
    cbn [slot_leaves] in Hle. lia.
Qed.

Lemma del_loop_keeps (fuel : nat) :
  forall lvl path current key item running current' l,
    length path = lvl ->
    wf path current ->
    stops_at_leaf lvl current key ->
    del_loop fuel lvl current key = Return (item, running) (current', l) ->
    (forall k v, k <> key -> stored lvl current k v -> stored lvl current' k v) /\
    (running = true -> exists k v, item = Some (Leaf k v) /\ stored lvl current' k v).
Proof.
  induction fuel as [|fuel IH];
    intros lvl path [c n] key item running current' l Hlen Hwf Hstop Hdel;
    [discriminate|].
  destruct (del_loop_wf (S fuel) lvl path (mkArrayR c n) key item running current' l
              Hlen Hwf Hstop Hdel) as (Hwf' & _ & Hrun1' & _).
  inversion Hwf as [? ? ? Hc Hn Hent]; subst path0 c0 n0.
  cbn [del_loop cells node_count] in Hdel. cbv zeta in Hdel.
  set (pos := hash lvl key) in *.
  assert (Hpos : (pos < length c)%nat) by (rewrite Hc; apply hash_lt).
  inversion Hstop as [? ? ? v0 Hs|? ? ? p child Hs Hp Hbelow]; subst; cbn [cells] in Hs;
    fold pos in Hs; rewrite Hs in Hdel; cbn [entry_key] in Hdel.
  - rewrite String.eqb_refl in Hdel. injection Hdel as <- <- <- <-.
    split.
    + intros k v Hne Hst. eapply (stored_same_slot _ c); [|exact Hst].
      apply list_lookup_insert_ne. intros Heq.
      inversion Hst as [? ? ? ? Hk|? ? ? ? p0 child0 Hk _]; subst; cbn [cells] in Hk;
        rewrite <- Heq, Hs in Hk; congruence.
    + intros Hrun. destruct (Hrun1' Hrun) as (_ & _ & k & v' & Hitem & _).
      exists k, v'. split; [exact Hitem|].
      apply first_item_lookup in Hitem as [i Hi].
      inversion Hwf' as [? ? ? _ _ Hent']; subst.
      pose proof (Hent' i _ Hi) as He. inversion He as [? ? ? ? Hk|]; subst.
      apply key_path_step in Hk as [_ Hk]. subst i.
      apply stored_here. exact Hi.
  - assert (Hneq : String.eqb p key = false) by now apply String.eqb_neq.
    rewrite Hneq in Hdel.
    pose proof (Hent pos _ Hs) as Hsub. inversion Hsub as [|? ? ? ? Hge Hwfc]; subst.
    destruct (del_loop fuel (S (length path)) child key)
      as [[item0 running0] [child' l0]|ex [child' l0]|] eqn:Hrec; try discriminate.
    destruct (IH (S (length path)) (path ++ [pos])%list child key item0 running0 child' l0)
      as (Hkeep & Hitem);
      [rewrite length_app; cbn; lia|assumption|assumption|assumption|].
    destruct (del_loop_wf fuel (S (length path)) (path ++ [pos])%list child key
                item0 running0 child' l0) as (Hwfc' & _ & Hrun1 & _);
      [rewrite length_app; cbn; lia|assumption|assumption|assumption|].
    destruct running0.
    + destruct (Hrun1 eq_refl) as (-> & Hone & k & v & -> & Hk).
      destruct (Hitem eq_refl) as (k1 & v1 & [= <- <-] & Hstk).
      replace (S (length path) - 1)%nat with (length path) in Hdel by lia.
      pose proof (key_path_step k path pos Hk) as [Hk' Hh].
      cbn [entry_key] in Hdel. rewrite Hh in Hdel. unfold array_set in Hdel.
      rewrite length_insert in Hdel. destruct (decide (pos < length c)%nat); [|lia].
      rewrite list_insert_insert_eq in Hdel. injection Hdel as <- <- <- <-.
      assert (Hnew : stored (length path) (mkArrayR (<[pos := Some (Leaf k v)]> c) (n - 1)) k v).
      { apply stored_here. cbn [cells]. rewrite Hh.
        apply list_lookup_insert_eq. exact Hpos. }
      split; [|intros _; exists k, v; auto].
      intros k' v' Hne Hst.
      destruct (Nat.eq_dec (hash (length path) k') pos) as [Heq|Hdiff].
      * inversion Hst as [? ? ? ? Hk0|? ? ? ? p0 child0 Hk0 Hb0]; subst; cbn [cells] in Hk0;
          rewrite Heq, Hs in Hk0; [discriminate|].
        injection Hk0 as <- <-.
        destruct (stored_single _ _ _ _ _ _ _ Hwfc' Hone (Hkeep _ _ Hne Hb0) Hstk)
          as [-> ->].
        exact Hnew.
      * eapply (stored_same_slot _ c); [|exact Hst].
        apply list_lookup_insert_ne. congruence.
    + injection Hdel as <- <- <- <-. split; [|discriminate].
      intros k' v' Hne Hst.
      destruct (Nat.eq_dec (hash (length path) k') pos) as [Heq|Hdiff].
      * inversion Hst as [? ? ? ? Hk0|? ? ? ? p0 child0 Hk0 Hb0]; subst; cbn [cells] in Hk0;
          rewrite Heq, Hs in Hk0; [discriminate|].
        injection Hk0 as <- <-.
        eapply stored_below; [|exact (Hkeep _ _ Hne Hb0)].
        cbn [cells]. rewrite Heq. apply list_lookup_insert_eq. exact Hpos.
      * eapply (stored_same_slot _ c); [|exact Hst].
        apply list_lookup_insert_ne. congruence.
Qed.

(** X24: in a table that completed sets, and completed deletes of keys
    found at their leaf, have built from a new table, the delete of a key
    whose walk ends at its leaf keeps every pair of another key: the pair is
    still stored, with its value, at the slots its key hashes to, whether
    the collapse has moved it up or not.  A delete that has stopped at a
    pointer tagged with its key leaves a table outside them. *)
Theorem delitem_keeps_other_keys (t t' : InfiniteHashTable) (key k : string) (v : Z) :
  built t ->
  stops_at_leaf 0 (table t) key ->
  delitem t key = Return tt t' ->
  k <> key ->
  stored 0 (table t) k v ->
  stored 0 (table t') k v.
Proof.
  intros Hb Hstop Hdel Hne Hst. unfold delitem in Hdel.
  destruct (del_loop (depth (table t)) 0 (table t) key)
    as [[item running] [a l]|ex [a l]|] eqn:Hloop; try discriminate.
  injection Hdel as <-. cbn [table].
  exact (proj1 (del_loop_keeps _ 0 [] (table t) key item running a l eq_refl
                  (built_wf t Hb) Hstop Hloop) k v Hne Hst).
Qed.

Lemma delitem_keeps_other_keys_witness :
  built table_lin_lim /\
  stops_at_leaf 0 (table table_lin_lim) "lin" /\
  delitem table_lin_lim "lin"
    = Return tt {| table := mkArrayR (<[4%nat := Some (Leaf "lim" 2)]> (replicate 27 None)) 1;
                   level := 0; count := 1 |} /\
  "lim" <> "lin" /\
  stored 0 (table table_lin_lim) "lim" 2 /\
  stored 0 (mkArrayR (<[4%nat := Some (Leaf "lim" 2)]> (replicate 27 None)) 1) "lim" 2.
Proof.
  assert (H1 : delitem table_lin_lim "lin"
               = Return tt {| table := mkArrayR (<[4%nat := Some (Leaf "lim" 2)]>
                                                   (replicate 27 None)) 1;
                              level := 0; count := 1 |}) by (vm_compute; reflexivity).
  assert (H2 : "lim" <> "lin") by discriminate.
  assert (H3 : stored 0 (table table_lin_lim) "lim" 2).
  { eapply stored_below; [reflexivity|]. eapply stored_below; [reflexivity|].
    apply stored_here. reflexivity. }
  split; [exact built_table_lin_lim|]. split; [exact stops_table_lin_lim|].
  split; [exact H1|]. split; [exact H2|]. split; [exact H3|].
  exact (delitem_keeps_other_keys table_lin_lim _ "lin" "lim" 2
           built_table_lin_lim stops_table_lin_lim H1 H2 H3).
Defined.

(** ** A set, then a read *)

Lemma prefix_of_length (n : nat) :
  forall key, (n <= String.length key)%nat -> String.length (prefix_of n key) = n.
Proof.
  unfold prefix_of. induction n as [|n IH]; intros [|c key] H; cbn in *;
    try reflexivity; try lia.
  rewrite IH by lia. reflexivity.
Qed.

Lemma prefix_of_neq (n : nat) (key : string) :
  (n < String.length key)%nat -> prefix_of n key <> key.
Proof.
  intros H Heq. pose proof (prefix_of_length n key ltac:(lia)) as Hl.
  rewrite Heq in Hl. lia.
Qed.

Lemma set_loop_splits_walk (key : string) (value : Z) (k : string) (v : Z) (m : nat) :
  forall lvl current,
    cells current !! hash lvl key = Some (Some (Leaf k v)) ->
    hash (lvl + S m) key <> hash (lvl + S m) k ->
    (lvl + S m < String.length key)%nat ->
    exists fuel current' l d,
      set_loop fuel lvl current (hash lvl key) key value = Return tt (current', l) /\
      walk lvl current' key d (Some (Leaf key value)).
Proof.
  induction m as [|m IH]; intros lvl [c n] Hs Hne Hlen; cbn [cells] in Hs.
  - exists 2%nat. cbn [set_loop cells node_count]. cbv zeta. rewrite Hs.
    unfold split_table at 1. cbn [cells new_ArrayR node_count].
    replace (lvl + 1)%nat with (S lvl) in Hne by lia.
    rewrite list_lookup_insert_ne by congruence.
    rewrite lookup_replicate_2 by apply hash_lt.
    do 3 eexists. split; [reflexivity|].
    eapply walk_below.
    + cbn [cells]. apply list_lookup_insert_eq. eapply lookup_lt_Some; eauto.
    + apply prefix_of_neq. lia.
    + apply walk_leaf. cbn [cells]. apply list_lookup_insert_eq.
      unfold split_table. cbn [cells new_ArrayR].
      rewrite length_insert, length_replicate. apply hash_lt.
  - destruct (Nat.eq_dec (hash (S lvl) key) (hash (S lvl) k)) as [Heq|Hdiff].
    + destruct (IH (S lvl) (split_table (S lvl) k v))
        as (fuel & child' & l & d & Hset & Hw).
      * unfold split_table. cbn [cells new_ArrayR]. rewrite Heq.
        apply list_lookup_insert_eq. rewrite length_replicate. apply hash_lt.
      * replace (S lvl + S m)%nat with (lvl + S (S m))%nat by lia. exact Hne.
      * lia.
      * exists (S fuel). cbn [set_loop cells node_count]. cbv zeta. rewrite Hs, Hset.
        do 3 eexists. split; [reflexivity|].
        eapply walk_below; [| |exact Hw].
        -- cbn [cells]. apply list_lookup_insert_eq. eapply lookup_lt_Some; eauto.
        -- apply prefix_of_neq. lia.
    + exists 2%nat. cbn [set_loop cells node_count]. cbv zeta. rewrite Hs.
      unfold split_table at 1. cbn [cells new_ArrayR node_count].
      rewrite list_lookup_insert_ne by congruence.
      rewrite lookup_replicate_2 by apply hash_lt.
      do 3 eexists. split; [reflexivity|].
      eapply walk_below.
      * cbn [cells]. apply list_lookup_insert_eq. eapply lookup_lt_Some; eauto.
      * apply prefix_of_neq. lia.
      * apply walk_leaf. cbn [cells]. apply list_lookup_insert_eq.
        unfold split_table. cbn [cells new_ArrayR].
        rewrite length_insert, length_replicate. apply hash_lt.
Qed.

Lemma set_loop_can_set_above (key : string) (value : Z) :
  forall lvl current,
    can_set_above lvl current key ->
    exists fuel current' l d,
      set_loop fuel lvl current (hash lvl key) key value = Return tt (current', l) /\
      walk lvl current' key d (Some (Leaf key value)).
Proof.
  induction 1 as [lvl a key Hs|lvl a key k v d Hs Hd Hlen Hne|lvl a key p child Hs Hp _ IH].
  - exists 1%nat. cbn [set_loop]. cbv zeta. rewrite Hs. do 3 eexists.
    split; [reflexivity|]. apply walk_leaf. cbn [cells].
    apply list_lookup_insert_eq. eapply lookup_lt_Some; eauto.
  - apply (set_loop_splits_walk key value k v (d - lvl - 1)); [exact Hs| |lia].
    replace (lvl + S (d - lvl - 1))%nat with d by lia. exact Hne.
  - destruct IH as (fuel & child' & l & d & Hset & Hw).
    exists (S fuel). cbn [set_loop]. cbv zeta. rewrite Hs, Hset. do 3 eexists.
    split; [reflexivity|]. eapply walk_below; [|exact Hp|exact Hw].
    cbn [cells]. apply list_lookup_insert_eq. eapply lookup_lt_Some; eauto.
Qed.

(** X25: A set, then a read of the key by the object that was stored.  When
    the slots of the key lead, through pointers not tagged with the key, to
    an empty slot or to the leaf of a key that hashes apart from it at a
    depth below the length of the key, the set returns and [__getitem__]
    then returns the value set, and [__contains__] answers [True]. *)
Theorem getitem_after_setitem_returns (same_object : string -> string -> bool)
    (t : InfiniteHashTable) (key : string) (value : Z) :
  (forall p, same_object p key = true -> p = key) ->
  same_object key key = true ->
  can_set_above 0 (table t) key ->
  exists fuel t',
    setitem fuel t key value = Return tt t' /\
    getitem same_object t' key
      = Return (PInt value) {| table := table t'; level := 0; count := count t' |} /\
    contains same_object t' key
      = Return true {| table := table t'; level := 0; count := count t' |}.
Proof.
  intros Hid Hsame Hc.
  destruct (set_loop_can_set_above key value 0 (table t) Hc)
    as (fuel & a & l & d & Hset & Hw).
  exists fuel, {| table := a; level := l; count := count t + 1 |}.
  assert (Hg : getitem same_object {| table := a; level := l; count := count t + 1 |} key
               = Return (PInt value) {| table := a; level := 0; count := count t + 1 |}).
  { pose proof (get_location_loop_walk same_object key Hid _ _ _ _ _ [] Hw (Nat.le_refl _))
      as H.
    cbn beta iota in H. rewrite Hsame in H. destruct H as (loc & Hloc & Hf).
    unfold getitem, get_location. cbn [table count]. rewrite Hloc. cbn [app].
    now rewrite Hf. }
  split; [unfold setitem; now rewrite Hset|].
  split; [exact Hg|]. unfold contains. now rewrite Hg.
Qed.

Lemma getitem_after_setitem_returns_witness :
  (forall p, String.eqb p "ab" = true -> p = "ab") /\
  String.eqb "ab" "ab" = true /\
  can_set_above 0 (table table_a) "ab" /\
  exists fuel t',
    setitem fuel table_a "ab" 2 = Return tt t' /\
    getitem String.eqb t' "ab"
      = Return (PInt 2) {| table := table t'; level := 0; count := count t' |} /\
    contains String.eqb t' "ab"
      = Return true {| table := table t'; level := 0; count := count t' |}.
Proof.
  assert (H1 : forall p, String.eqb p "ab" = true -> p = "ab")
    by (intros p; apply String.eqb_eq).
  assert (H2 : can_set_above 0 (table table_a) "ab").
  { apply (can_set_above_leaf 0 (table table_a) "ab" "a" 1 1);
      [reflexivity|lia|cbn; lia|discriminate]. }
  split; [exact H1|]. split; [reflexivity|]. split; [exact H2|].
  exact (getitem_after_setitem_returns String.eqb table_a "ab" 2 H1 eq_refl H2).
Defined.

End InfiniteHashTableMore.
